(** * AutoCrossword: the crossword CSP solver of [generate.py]

    A shallow embedding of [CrosswordCreator] (node consistency, arc
    revision, AC-3, the assignment check, the two ordering heuristics, the
    backtracking search and the letter grid) together with the properties
    stated about it.

    Conventions of the embedding.
    - A Python [str] is a [string]; [s[k]] is [str_index s k], which raises
      [IndexError] out of range (offsets are never negative here).
    - A Python [dict] is an association list in insertion order
      ([getitem], [setitem], [delitem], [contains]); a Python [set] of words
      is a list whose order is the iteration order of the run.
    - [self.domains] is threaded explicitly: a method that mutates it takes
      the store and returns the new one.  The [assignment] dictionary, which
      [backtrack] mutates in place and shares with its recursive calls, is
      threaded the same way.
    - A Python exception is the outcome [Raise e]; loops whose number of
      iterations is not structurally bounded take fuel, and [OutOfFuel] is
      shown to be unreachable for the fuel the top-level functions supply. *)

From Stdlib Require Import List String Ascii Bool Arith PeanoNat Lia.
From Stdlib Require Import Permutation Sorted.
Import ListNotations.

Set Implicit Arguments.

(** ** Outcomes of a call *)

Inductive exn : Type := KeyError | IndexError | TypeError.

Inductive result (A : Type) : Type :=
| Ok (a : A)
| Raise (e : exn)
| OutOfFuel.

Arguments Ok {A} a.
Arguments Raise {A} e.
Arguments OutOfFuel {A}.

Definition bind {A B : Type} (r : result A) (k : A -> result B) : result B :=
  match r with
  | Ok a => k a
  | Raise e => Raise e
  | OutOfFuel => OutOfFuel
  end.

Notation "x <- e ;; k" := (bind e (fun x => k))
  (at level 61, e at next level, right associativity).
Notation "' pat <- e ;; k" := (bind e (fun x => match x with pat => k end))
  (at level 61, pat pattern, e at next level, right associativity).

(** ** Slots (class [Variable] of the structure provider) *)

Inductive Direction : Type := ACROSS | DOWN.

(** Modelled from the spec: class [Variable] lives in [crossword.py], which
    is not part of the sources; a slot is its starting row and column, its
    direction and its length, and two slots are equal when all four agree. *)
Record Var : Type := mkVar {
  var_i : nat;
  var_j : nat;
  var_direction : Direction;
  var_length : nat
}.

Definition Direction_eqb (d1 d2 : Direction) : bool :=
  match d1, d2 with
  | ACROSS, ACROSS | DOWN, DOWN => true
  | _, _ => false
  end.

(** [Variable.__eq__] *)
Definition Var_eqb (x y : Var) : bool :=
  Nat.eqb (var_i x) (var_i y) && Nat.eqb (var_j x) (var_j y)
  && Direction_eqb (var_direction x) (var_direction y)
  && Nat.eqb (var_length x) (var_length y).

(** ** Words *)

Definition word : Type := string.

(** [s[k]] for a non-negative [k] *)
Definition str_index (s : word) (k : nat) : result ascii :=
  match String.get k s with
  | Some c => Ok c
  | None => Raise IndexError
  end.

(** [w in s] for a set (or list) of words *)
Definition word_in (w : word) (s : list word) : bool :=
  existsb (String.eqb w) s.

(** [s.remove(w)]: [KeyError] when [w] is not a member *)
Definition set_remove (s : list word) (w : word) : result (list word) :=
  if word_in w s
  then Ok (filter (fun w' => negb (String.eqb w w')) s)
  else Raise KeyError.

(** ** Dictionaries keyed by slots *)

Section Dict.
Variable V : Type.

Definition dict : Type := list (Var * V).

Definition keys (d : dict) : list Var := map fst d.

(** [k in d] *)
Fixpoint contains (d : dict) (k : Var) : bool :=
  match d with
  | [] => false
  | (k', _) :: d' => if Var_eqb k' k then true else contains d' k
  end.

(** [d[k]] *)
Fixpoint getitem (d : dict) (k : Var) : result V :=
  match d with
  | [] => Raise KeyError
  | (k', v) :: d' => if Var_eqb k' k then Ok v else getitem d' k
  end.

(** [d[k] = v]: an existing key keeps its place, a new one goes last *)
Fixpoint setitem (d : dict) (k : Var) (v : V) : dict :=
  match d with
  | [] => [(k, v)]
  | (k', v') :: d' =>
      if Var_eqb k' k then (k', v) :: d' else (k', v') :: setitem d' k v
  end.

(** [del d[k]] *)
Fixpoint delitem (d : dict) (k : Var) : result dict :=
  match d with
  | [] => Raise KeyError
  | (k', v') :: d' =>
      if Var_eqb k' k then Ok d'
      else d'' <- delitem d' k ;; Ok ((k', v') :: d'')
  end.
End Dict.

Definition Domains : Type := dict (list word).
Definition Assignment : Type := dict word.

(** ** The Constraint Model *)

(** Modelled from the spec: class [Crossword] lives in [crossword.py], which
    is not part of the sources.  The solver reads its set of slots, its
    vocabulary and, for two slots, their overlap or "none". *)
Record Crossword : Type := mkCrossword {
  variables : list Var;
  words : list word;
  overlaps : Var -> Var -> option (nat * nat)
}.

Definition is_some {A : Type} (o : option A) : bool :=
  match o with Some _ => true | None => false end.

(** Modelled from the spec: [Crossword.neighbors] is missing with the rest
    of [crossword.py]; the neighbors of a slot are the other slots that
    share a defined overlap with it. *)
Definition neighbors (cw : Crossword) (var : Var) : list Var :=
  filter (fun v => negb (Var_eqb v var) && is_some (overlaps cw v var))
         (variables cw).

(** ** Stable sort by key ([list.sort(key=...)]) *)

Section Sort.
Variables (A K : Type) (key : A -> K) (leb : K -> K -> bool).

Fixpoint insert_sorted (x : A) (l : list A) : list A :=
  match l with
  | [] => [x]
  | y :: l' =>
      if leb (key x) (key y) then x :: l else y :: insert_sorted x l'
  end.

Definition sort_by : list A -> list A :=
  fold_right insert_sorted [].
End Sort.

(** Order on the keys [(len(domain), -degree)] of the variable heuristic *)
Definition mrv_key_leb (k1 k2 : nat * nat) : bool :=
  Nat.ltb (fst k1) (fst k2)
  || (Nat.eqb (fst k1) (fst k2) && Nat.leb (snd k2) (snd k1)).

(** ** [class CrosswordCreator] *)

Section CrosswordCreator.
Variable crossword : Crossword.

(** [__init__]: every slot starts with a copy of the whole vocabulary. *)
Definition init_domains : Domains :=
  map (fun var => (var, words crossword)) (variables crossword).

(** *** [enforce_node_consistency] *)

(** The inner loop [for node in dom] for one slot [domain]. *)
Fixpoint enforce_nodes (domain : Var) (dom : list word)
         (self_domains : Domains) : result Domains :=
  match dom with
  | [] => Ok self_domains
  | node :: dom' =>
      if negb (Nat.eqb (String.length node) (var_length domain)) then
        s <- getitem self_domains domain ;;
        s' <- set_remove s node ;;
        enforce_nodes domain dom' (setitem self_domains domain s')
      else enforce_nodes domain dom' self_domains
  end.

(** The outer loop [for domain in domains] over the copied key list. *)
Fixpoint enforce_loop (domains : list Var) (self_domains : Domains)
  : result Domains :=
  match domains with
  | [] => Ok self_domains
  | domain :: rest =>
      dom <- getitem self_domains domain ;;
      self_domains' <- enforce_nodes domain dom self_domains ;;
      enforce_loop rest self_domains'
  end.

Definition enforce_node_consistency (self_domains : Domains)
  : result Domains :=
  enforce_loop (keys self_domains) self_domains.

(** *** [revise] *)

(** The loop [for node2 in domains_y], which sets [found] and never
    leaves early. *)
Fixpoint revise_found (overlap : nat * nat) (node : word)
         (domains_y : list word) (found : bool) : result bool :=
  match domains_y with
  | [] => Ok found
  | node2 :: rest =>
      c1 <- str_index node (fst overlap) ;;
      c2 <- str_index node2 (snd overlap) ;;
      revise_found overlap node rest
                   (if Ascii.eqb c1 c2 then true else found)
  end.

(** The loop [for node in domains_x]. *)
Fixpoint revise_loop (overlap : nat * nat) (x : Var)
         (domains_y domains_x : list word) (revision : bool)
         (self_domains : Domains) : result (bool * Domains) :=
  match domains_x with
  | [] => Ok (revision, self_domains)
  | node :: rest =>
      found <- revise_found overlap node domains_y false ;;
      if negb found then
        s <- getitem self_domains x ;;
        s' <- set_remove s node ;;
        revise_loop overlap x domains_y rest true
                    (setitem self_domains x s')
      else revise_loop overlap x domains_y rest revision self_domains
  end.

Definition revise (x y : Var) (self_domains : Domains)
  : result (bool * Domains) :=
  let revision := false in
  match overlaps crossword x y with
  | None => Ok (revision, self_domains)
  | Some overlap =>
      domains_x <- getitem self_domains x ;;
      domains_y <- getitem self_domains y ;;
      revise_loop overlap x domains_y domains_x revision self_domains
  end.

(** *** [ac3] *)

(** [[(var, neighbor) for var in self.domains.keys()
                      for neighbor in self.crossword.neighbors(var)]] *)
Definition all_arcs (self_domains : Domains) : list (Var * Var) :=
  flat_map (fun var => map (fun neighbor => (var, neighbor))
                           (neighbors crossword var))
           (keys self_domains).

(** [[(neighbor, var1) for neighbor in neighbors(var1)
                       if neighbor != var2]] *)
Definition requeue (var1 var2 : Var) : list (Var * Var) :=
  map (fun neighbor => (neighbor, var1))
      (filter (fun neighbor => negb (Var_eqb neighbor var2))
              (neighbors crossword var1)).

(** The loop [while arcs]; the worklist is popped at the front and
    extended at the back. *)
Fixpoint ac3_loop (fuel : nat) (arcs : list (Var * Var))
         (self_domains : Domains) : result (bool * Domains) :=
  match fuel with
  | 0 => OutOfFuel
  | S fuel' =>
      match arcs with
      | [] => Ok (true, self_domains)
      | (var1, var2) :: arcs' =>
          '(revised, self_domains') <- revise var1 var2 self_domains ;;
          if revised then
            d <- getitem self_domains' var1 ;;
            match d with
            | [] => Ok (false, self_domains')
            | _ :: _ =>
                ac3_loop fuel' (arcs' ++ requeue var1 var2) self_domains'
            end
          else ac3_loop fuel' arcs' self_domains'
      end
  end.

(** Number of words held by the whole store. *)
Definition total_size (self_domains : Domains) : nat :=
  list_sum (map (fun e => List.length (snd e)) self_domains).

(** A bound on the iterations of [while arcs]: each one either shortens
    the worklist or removes a word and adds at most one arc per slot. *)
Definition ac3_fuel (arcs : list (Var * Var)) (self_domains : Domains)
  : nat :=
  S (List.length arcs
     + List.length (variables crossword) * total_size self_domains).

(** [arcs=None] is [None]; a list argument is [Some l].  The test
    [if not arcs] holds for [None] and for the empty list alike. *)
Definition ac3 (arcs : option (list (Var * Var)))
           (self_domains : Domains) : result (bool * Domains) :=
  let arcs :=
    match arcs with
    | None | Some [] => all_arcs self_domains
    | Some ((_ :: _) as arcs) => arcs
    end in
  ac3_loop (ac3_fuel arcs self_domains) arcs self_domains.

(** *** [assignment_complete] *)

Definition assignment_complete (assignment : Assignment)
           (self_domains : Domains) : bool :=
  Nat.eqb (List.length (keys assignment)) (List.length (keys self_domains)).

(** *** [consistent] *)

(** The loop [for neighbor in neighbors(variable)]; [Ok false] is the
    early [return False]. *)
Fixpoint consistent_neighbors (assignment : Assignment) (variable : Var)
         (value : word) (ns : list Var) : result bool :=
  match ns with
  | [] => Ok true
  | neighbor :: rest =>
      if contains assignment neighbor then
        neighbor_value <- getitem assignment neighbor ;;
        match overlaps crossword variable neighbor with
        | None => Raise TypeError
        | Some overlap =>
            c1 <- str_index neighbor_value (snd overlap) ;;
            c2 <- str_index value (fst overlap) ;;
            if negb (Ascii.eqb c1 c2) then Ok false
            else consistent_neighbors assignment variable value rest
        end
      else consistent_neighbors assignment variable value rest
  end.

(** The loop [for variable, value in assignment.items()]. *)
Fixpoint consistent_items (assignment : Assignment)
         (items : list (Var * word)) (used_values : list word)
  : result bool :=
  match items with
  | [] => Ok true
  | (variable, value) :: rest =>
      if word_in value used_values then Ok false
      else
        let used_values := value :: used_values in
        if negb (Nat.eqb (String.length value) (var_length variable))
        then Ok false
        else
          ok <- consistent_neighbors assignment variable value
                                     (neighbors crossword variable) ;;
          if ok then consistent_items assignment rest used_values
          else Ok false
  end.

Definition consistent (assignment : Assignment) : result bool :=
  consistent_items assignment assignment [].

(** *** [order_domain_values] *)

(** [value2 == key] for a word and a slot: a [str] is never equal to a
    [Variable]. *)
Definition word_eq_var (value2 : word) (key : Var) : bool := false.

(** [value2 in assignment.keys()] *)
Definition word_in_keys (value2 : word) (assignment : Assignment) : bool :=
  existsb (word_eq_var value2) (keys assignment).

(** The loop [for value2 in self.domains[neighbor]]. *)
Fixpoint count_conflicts (intersection : option (nat * nat)) (value : word)
         (assignment : Assignment) (dom : list word) (counter : nat)
  : result nat :=
  match dom with
  | [] => Ok counter
  | value2 :: rest =>
      match intersection with
      | None => Raise TypeError
      | Some ov =>
          c1 <- str_index value (fst ov) ;;
          c2 <- str_index value2 (snd ov) ;;
          if negb (Ascii.eqb c1 c2) && negb (word_in_keys value2 assignment)
          then count_conflicts intersection value assignment rest
                               (S counter)
          else count_conflicts intersection value assignment rest counter
      end
  end.

(** The loop [for neighbor in neighbors(var)]. *)
Fixpoint count_neighbors (var : Var) (value : word)
         (assignment : Assignment) (self_domains : Domains)
         (ns : list Var) (counter : nat) : result nat :=
  match ns with
  | [] => Ok counter
  | neighbor :: rest =>
      let intersection := overlaps crossword var neighbor in
      dom <- getitem self_domains neighbor ;;
      counter' <- count_conflicts intersection value assignment dom
                                  counter ;;
      count_neighbors var value assignment self_domains rest counter'
  end.

(** The loop [for value in self.domains[var]], building
    [ordered_values]. *)
Fixpoint rank_values (var : Var) (assignment : Assignment)
         (self_domains : Domains) (values : list word)
  : result (list (word * nat)) :=
  match values with
  | [] => Ok []
  | value :: rest =>
      counter <- count_neighbors var value assignment self_domains
                                 (neighbors crossword var) 0 ;;
      ordered_values <- rank_values var assignment self_domains rest ;;
      Ok ((value, counter) :: ordered_values)
  end.

Definition order_domain_values (var : Var) (assignment : Assignment)
           (self_domains : Domains) : result (list word) :=
  dom <- getitem self_domains var ;;
  ordered_values <- rank_values var assignment self_domains dom ;;
  Ok (map fst (sort_by snd Nat.leb ordered_values)).

(** *** [select_unassigned_variable] *)

(** The sort keys [(len(self.domains[var]), -len(neighbors(var)))]; the
    second component is kept positive and the order reverses it. *)
Fixpoint mrv_keys (self_domains : Domains) (vars : list Var)
  : result (list (Var * (nat * nat))) :=
  match vars with
  | [] => Ok []
  | var :: rest =>
      d <- getitem self_domains var ;;
      keyed <- mrv_keys self_domains rest ;;
      Ok ((var, (List.length d, List.length (neighbors crossword var)))
            :: keyed)
  end.

Definition select_unassigned_variable (assignment : Assignment)
           (self_domains : Domains) : result (option Var) :=
  let unassigned_variables :=
    filter (fun var => negb (contains assignment var))
           (keys self_domains) in
  match unassigned_variables with
  | [] => Ok None
  | _ :: _ =>
      keyed <- mrv_keys self_domains unassigned_variables ;;
      match sort_by snd mrv_key_leb keyed with
      | [] => Raise IndexError
      | (var, _) :: _ => Ok (Some var)
      end
  end.

(** *** [backtrack] *)

(** What a call leaves behind: the returned value ([None], or the
    dictionary it was given), the contents of that dictionary on return,
    and the domain store. *)
Definition outcome : Type := (option Assignment * Assignment * Domains)%type.

(** The loop [for value in order_domain_values(variable, assignment)];
    [rec] is the recursive call [self.backtrack]. *)
Fixpoint backtrack_values (rec : Assignment -> Domains -> result outcome)
         (variable : Var) (values : list word) (assignment : Assignment)
         (self_domains : Domains) : result outcome :=
  match values with
  | [] => Ok (None, assignment, self_domains)
  | value :: rest =>
      let assignment := setitem assignment variable value in
      ok <- consistent assignment ;;
      if ok then
        let arcs := map (fun var => (var, variable))
                        (neighbors crossword variable) in
        '(inference_result, self_domains) <- ac3 (Some arcs) self_domains ;;
        if inference_result then
          '(result, assignment, self_domains)
            <- rec assignment self_domains ;;
          match result with
          | Some r => Ok (Some r, assignment, self_domains)
          | None =>
              backtrack_values rec variable rest assignment self_domains
          end
        else backtrack_values rec variable rest assignment self_domains
      else
        assignment <- delitem assignment variable ;;
        backtrack_values rec variable rest assignment self_domains
  end.

Fixpoint backtrack (fuel : nat) (assignment : Assignment)
         (self_domains : Domains) : result outcome :=
  match fuel with
  | 0 => OutOfFuel
  | S fuel' =>
      if assignment_complete assignment self_domains
      then Ok (Some assignment, assignment, self_domains)
      else
        variable <- select_unassigned_variable assignment self_domains ;;
        match variable with
        | None => Ok (Some assignment, assignment, self_domains)
        | Some variable =>
            values <- order_domain_values variable assignment
                                          self_domains ;;
            backtrack_values (backtrack fuel') variable values
                             assignment self_domains
        end
  end.

(** *** [solve] *)

(** The recursion of [backtrack] is at most one level per slot deep. *)
Definition backtrack_fuel (self_domains : Domains) : nat :=
  S (List.length (keys self_domains)).

Definition solve_outcome : result outcome :=
  self_domains <- enforce_node_consistency init_domains ;;
  '(_, self_domains) <- ac3 None self_domains ;;
  backtrack (backtrack_fuel self_domains) [] self_domains.

Definition solve : result (option Assignment) :=
  '(result, _, _) <- solve_outcome ;;
  Ok result.

End CrosswordCreator.

(** ** What the operations are meant to establish *)

(** Two words agree at the offsets of an overlap. *)
Definition compatible (ov : nat * nat) (wx wy : word) : bool :=
  match String.get (fst ov) wx, String.get (snd ov) wy with
  | Some c1, Some c2 => Ascii.eqb c1 c2
  | _, _ => false
  end.

(** A word of [x] has a compatible word in the domain of [y]. *)
Definition supported (ov : nat * nat) (domain_y : list word) (wx : word)
  : bool :=
  existsb (compatible ov wx) domain_y.

(** The words of a list that lack a compatible word in [domain_y]. *)
Definition unsupported (ov : nat * nat) (domain_y nodes : list word)
  : list word :=
  filter (fun n => negb (supported ov domain_y n)) nodes.

(** What [consistent] checks for one entry [(v, w)] of an assignment. *)
Definition entry_ok (cw : Crossword) (a : Assignment) (v : Var) (w : word)
  : Prop :=
  String.length w = var_length v
  /\ forall n, In n (neighbors cw v) -> contains a n = true ->
       exists wn ov, getitem a n = Ok wn /\ overlaps cw v n = Some ov
                     /\ compatible ov w wn = true.

(** The ordered pair [(x, y)] is arc-consistent in a store. *)
Definition arc_consistent (cw : Crossword) (doms : Domains) (x y : Var)
  : Prop :=
  forall ov dx dy,
    overlaps cw x y = Some ov ->
    getitem doms x = Ok dx -> getitem doms y = Ok dy ->
    forall wx, In wx dx -> supported ov dy wx = true.

(** The invariant of the loop of AC-3: every arc is either waiting in the
    worklist or already consistent, and no arc of the worklist is a loop. *)
Definition ac3_invariant (cw : Crossword) (arcs : list (Var * Var))
           (doms : Domains) : Prop :=
  (forall a b, In (a, b) arcs -> a <> b)
  /\ (forall x y, In x (keys doms) -> In y (neighbors cw x) ->
                  In (x, y) arcs \/ arc_consistent cw doms x y).

(** Assigned neighboring slots agree at their overlap. *)
Definition agree (cw : Crossword) (a : Assignment) : Prop :=
  forall x y wx wy,
    In (x, wx) a -> In (y, wy) a -> In y (neighbors cw x) ->
    exists ov, overlaps cw x y = Some ov /\ compatible ov wx wy = true.

(** No violation of the three constraints on a (partial) assignment. *)
Record violation_free (cw : Crossword) (a : Assignment) : Prop := {
  vf_distinct : NoDup (map snd a);
  vf_length : forall v w, In (v, w) a -> String.length w = var_length v;
  vf_agree : agree cw a
}.

(** A complete consistent assignment: one word for each slot and for
    nothing else, and no violation. *)
Record solution (cw : Crossword) (a : Assignment) : Prop := {
  sol_functional : NoDup (keys a);
  sol_total : forall v, In v (variables cw) -> In v (keys a);
  sol_slots : forall v, In v (keys a) -> In v (variables cw);
  sol_consistent : violation_free cw a
}.

(** Symmetry of the overlaps of a Constraint Model. *)
Definition symmetric_overlaps (cw : Crossword) : Prop :=
  forall x y ox oy,
    In x (variables cw) -> In y (variables cw) ->
    overlaps cw x y = Some (ox, oy) -> overlaps cw y x = Some (oy, ox).

(** Following the words of the spec (4.5): the number of candidates of the
    neighbors of [var] that are not yet assigned which the word [w] would
    eliminate.  To be compared with the counter of
    [order_domain_values]. *)
Definition spec_eliminated (cw : Crossword) (doms : Domains)
           (a : Assignment) (var : Var) (w : word) : nat :=
  list_sum
    (map (fun n =>
            match overlaps cw var n, getitem doms n with
            | Some ov, Ok d =>
                List.length (filter (fun w2 => negb (compatible ov w w2)) d)
            | _, _ => 0
            end)
         (filter (fun n => negb (contains a n)) (neighbors cw var))).

(** The keys of the loop of [backtrack] that are still to be assigned. *)
Definition unassigned (a : Assignment) (doms : Domains) : list Var :=
  filter (fun var => negb (contains a var)) (keys doms).

(** The assignment is a dictionary (no key twice) over slots of the
    store. *)
Definition assignment_ok (a : Assignment) (doms : Domains) : Prop :=
  NoDup (keys a) /\ incl (keys a) (keys doms).

(** Every slot of the store has an entry. *)
Definition complete (a : Assignment) (doms : Domains) : Prop :=
  forall v, In v (keys doms) -> In v (keys a).

(** What a call of [backtrack] on [a] and [doms] guarantees about its
    outcome: the dictionary is still one over the same slots and has lost
    no key, and a returned assignment is the dictionary itself, passes
    [consistent] and is complete (given that [a] passed [consistent]). *)
Definition backtrack_post (cw : Crossword) (a : Assignment) (doms : Domains)
           (o : option Assignment * Assignment * Domains) : Prop :=
  let '(res, a', doms') := o in
  assignment_ok a' doms'
  /\ keys doms' = keys doms
  /\ incl (keys a) (keys a')
  /\ (forall r, res = Some r -> consistent cw a = Ok true ->
                r = a' /\ consistent cw r = Ok true /\ complete r doms').

(** The offsets of every overlap lie inside the two slots. *)
Definition overlaps_in_range (cw : Crossword) : Prop :=
  forall x y ox oy,
    In x (variables cw) -> In y (variables cw) ->
    overlaps cw x y = Some (ox, oy) ->
    ox < var_length x /\ oy < var_length y.

(** What the structure provider guarantees about a Constraint Model, and
    the vocabulary being a set. *)
Record well_formed (cw : Crossword) : Prop := {
  wf_words : NoDup (words cw);
  wf_symmetric : symmetric_overlaps cw;
  wf_in_range : overlaps_in_range cw
}.

(** Every domain of the store is a set of words of the length of its
    slot. *)
Definition node_consistent (doms : Domains) : Prop :=
  forall v d, getitem doms v = Ok d ->
              NoDup d /\ forall w, In w d -> String.length w = var_length v.

(** The store of a creator after node consistency. *)
Definition store_ok (cw : Crossword) (doms : Domains) : Prop :=
  keys doms = variables cw /\ node_consistent doms.

(** Every assigned word has the length of its slot. *)
Definition fits (a : Assignment) : Prop :=
  forall v w, In (v, w) a -> String.length w = var_length v.

(** The state on which the search runs. *)
Definition search_state (cw : Crossword) (a : Assignment) (doms : Domains)
  : Prop :=
  store_ok cw doms /\ assignment_ok a doms /\ fits a.

(** A call that raises nothing. *)
Definition safe {A : Type} (r : result A) : Prop := forall e, r <> Raise e.

(** A call that does not run out of fuel. *)
Definition terminates {A : Type} (r : result A) : Prop := r <> OutOfFuel.

(** ** Grids *)

(** Modelled from the spec: the structure provider ([crossword.py]) is
    missing; the overlap of two different slots is the pair of offsets of
    the cell they share, and "none" when they share no cell. *)
Definition cell (v : Var) (k : nat) : nat * nat :=
  match var_direction v with
  | DOWN => (var_i v + k, var_j v)
  | ACROSS => (var_i v, var_j v + k)
  end.

Definition cell_eqb (c1 c2 : nat * nat) : bool :=
  Nat.eqb (fst c1) (fst c2) && Nat.eqb (snd c1) (snd c2).

Definition grid_overlaps (v1 v2 : Var) : option (nat * nat) :=
  if Var_eqb v1 v2 then None
  else find (fun p => cell_eqb (cell v1 (fst p)) (cell v2 (snd p)))
            (list_prod (seq 0 (var_length v1)) (seq 0 (var_length v2))).

Definition grid_crossword (slots : list Var) (vocabulary : list word)
  : Crossword :=
  mkCrossword slots vocabulary grid_overlaps.

(** ** Sample puzzles *)

Module Samples.
Open Scope string_scope.

(** A five-letter row with three columns hanging from its first, third
    and fifth cells:
<<
    T T T T T
    M # L # N
    M # L # N
    M # L # #
>> *)
Definition T : Var := mkVar 0 0 ACROSS 5.
Definition M : Var := mkVar 0 0 DOWN 4.
Definition L : Var := mkVar 0 2 DOWN 4.
Definition N : Var := mkVar 0 4 DOWN 3.

Definition comb_words : list word :=
  ["AXAXP"; "CXDXQ"; "CYDYQ";
   "AAAA"; "CAAA"; "CBBB"; "DAAA"; "DBBB";
   "PAA"; "PBB"; "PCC"; "PDD"; "QAA"].

Definition comb : Crossword := grid_crossword [T; M; L; N] comb_words.

(** The same puzzle with slots and vocabulary enumerated backwards. *)
Definition comb_rev : Crossword :=
  grid_crossword (rev [T; M; L; N]) (rev comb_words).

Definition comb_solution : Assignment :=
  [(T, "CXDXQ"); (M, "CAAA"); (L, "DAAA"); (N, "QAA")].

(** The store of [comb] after node and arc consistency. *)
Definition comb_domains : Domains :=
  [(T, ["AXAXP"; "CXDXQ"; "CYDYQ"]);
   (M, ["AAAA"; "CAAA"; "CBBB"]);
   (L, ["AAAA"; "DAAA"; "DBBB"]);
   (N, ["PAA"; "PBB"; "PCC"; "PDD"; "QAA"])].

(** Two rows of two cells that do not touch, and a single word. *)
Definition R1 : Var := mkVar 0 0 ACROSS 2.
Definition R2 : Var := mkVar 2 0 ACROSS 2.
Definition rows : Crossword := grid_crossword [R1; R2] ["AB"].

(** One slot and an empty vocabulary. *)
Definition lonely : Crossword := grid_crossword [R1] [].

(** A row and a column of two cells sharing their first cell. *)
Definition X : Var := mkVar 0 0 ACROSS 2.
Definition Y : Var := mkVar 0 0 DOWN 2.
Definition corner : Crossword :=
  grid_crossword [X; Y] ["AB"; "AC"; "BC"].
Definition corner_domains : Domains :=
  [(X, ["AB"]); (Y, ["AC"; "BC"])].

(** A two-letter row with a column of three under its first cell and a
    column of four under its second. *)
Definition H : Var := mkVar 0 0 ACROSS 2.
Definition V3 : Var := mkVar 0 0 DOWN 3.
Definition V4 : Var := mkVar 0 1 DOWN 4.
Definition fork : Crossword :=
  grid_crossword [H; V3; V4]
    ["AB"; "CD"; "AAA"; "ABB"; "ACC"; "CAA"; "DAAA"; "DBBB"; "BAAA"].
Definition fork_domains : Domains :=
  [(H, ["AB"; "CD"]);
   (V3, ["AAA"; "ABB"; "ACC"; "CAA"]);
   (V4, ["DAAA"; "DBBB"; "BAAA"])].
Definition fork_assignment : Assignment := [(V3, "AAA")].

(** A row of three cells and a column of three under its last cell. *)
Definition P : Var := mkVar 0 0 ACROSS 3.
Definition Q : Var := mkVar 0 2 DOWN 3.
Definition hook : Crossword := grid_crossword [P; Q] ["CAT"; "TAR"; "A"].
Definition hook_short : Assignment := [(Q, "CAT"); (P, "A")].
Definition hook_empty : Assignment := [(Q, "TAR"); (P, EmptyString)].

(** The same grid with two words neither of which starts with the last
    letter of the other or of itself. *)
Definition deadlock : Crossword := grid_crossword [P; Q] ["CAT"; "DOG"].
End Samples.

(** ** [letter_grid] *)

(** The 2D array of [letter_grid]: a cell is [None] or a letter. *)
Definition Grid : Type := list (list (option ascii)).

(** [l[i]] on a list *)
Definition list_get {A : Type} (l : list A) (i : nat) : result A :=
  match nth_error l i with
  | Some x => Ok x
  | None => Raise IndexError
  end.

(** [l[i] = x] on a list *)
Definition list_set {A : Type} (l : list A) (i : nat) (x : A)
  : result (list A) :=
  if Nat.ltb i (List.length l)
  then Ok (firstn i l ++ x :: skipn (S i) l)
  else Raise IndexError.

(** [letters[i][j] = c]: the row is fetched, then written in place. *)
Definition grid_set (letters : Grid) (i j : nat) (c : ascii) : result Grid :=
  row <- list_get letters i ;;
  row' <- list_set row j (Some c) ;;
  list_set letters i row'.

(** The loop [for k in range(len(word))] for one entry. *)
Fixpoint letter_grid_word (variable : Var) (word : word) (ks : list nat)
         (letters : Grid) : result Grid :=
  match ks with
  | [] => Ok letters
  | k :: ks' =>
      let direction := var_direction variable in
      let i := var_i variable
               + (match direction with DOWN => k | ACROSS => 0 end) in
      let j := var_j variable
               + (match direction with ACROSS => k | DOWN => 0 end) in
      c <- str_index word k ;;
      letters' <- grid_set letters i j c ;;
      letter_grid_word variable word ks' letters'
  end.

(** The loop [for variable, word in assignment.items()]. *)
Fixpoint letter_grid_items (items : list (Var * word)) (letters : Grid)
  : result Grid :=
  match items with
  | [] => Ok letters
  | (variable, word) :: rest =>
      letters' <- letter_grid_word variable word
                                   (seq 0 (String.length word)) letters ;;
      letter_grid_items rest letters'
  end.

(** [letter_grid]; [height] and [width] are [self.crossword.height] and
    [self.crossword.width], which the structure provider sets. *)
Definition letter_grid (height width : nat) (assignment : Assignment)
  : result Grid :=
  letter_grid_items assignment (repeat (repeat None width) height).

(** ** What the further properties speak of *)

(** The cell [(i, j)] of a grid; [None] also outside the grid. *)
Definition grid_at (g : Grid) (i j : nat) : option ascii :=
  match nth_error g i with
  | Some row => match nth_error row j with Some x => x | None => None end
  | None => None
  end.

(** The letters of a word that its slot puts on the grid for the offsets
    [ks], cell by cell, in order. *)
Definition letter_writes (v : Var) (w : word) (ks : list nat)
  : list (nat * nat * ascii) :=
  flat_map (fun k => match String.get k w with
                     | Some c => [(cell v k, c)]
                     | None => []
                     end)
           ks.

(** The letters one entry puts on the grid. *)
Definition entry_writes (e : Var * word) : list (nat * nat * ascii) :=
  letter_writes (fst e) (snd e) (seq 0 (String.length (snd e))).

(** All the letters an assignment puts on the grid, in the order of its
    entries. *)
Definition writes (a : Assignment) : list (nat * nat * ascii) :=
  flat_map entry_writes a.

(** The last letter a sequence of writes leaves on the cell [(i, j)]. *)
Definition last_write (ws : list (nat * nat * ascii)) (i j : nat)
  : option ascii :=
  option_map snd (find (fun w => cell_eqb (fst w) (i, j)) (rev ws)).

(** A grid of [height] rows of [width] cells each. *)
Definition rectangular (height width : nat) (g : Grid) : Prop :=
  List.length g = height /\ Forall (fun row => List.length row = width) g.

(** Every letter of every entry falls inside a grid of the given size. *)
Definition within_grid (height width : nat) (a : Assignment) : Prop :=
  forall v w k, In (v, w) a -> k < String.length w ->
                fst (cell v k) < height /\ snd (cell v k) < width.

(** Entries that share a cell carry the same letter there. *)
Definition cells_agree (a : Assignment) : Prop :=
  forall v1 w1 v2 w2 k1 k2,
    In (v1, w1) a -> In (v2, w2) a ->
    k1 < String.length w1 -> k2 < String.length w2 ->
    cell v1 k1 = cell v2 k2 -> String.get k1 w1 = String.get k2 w2.

(** Every assigned word is still in the domain of its slot. *)
Definition inhabits (a : Assignment) (doms : Domains) : Prop :=
  forall v w, In (v, w) a -> exists d, getitem doms v = Ok d /\ In w d.

(** One store is drawn from another: same slots, and each domain is what a
    filter leaves of the former one. *)
Definition shrinks (doms doms' : Domains) : Prop :=
  keys doms' = keys doms
  /\ forall v d', getitem doms' v = Ok d' ->
                  exists d f, getitem doms v = Ok d /\ d' = filter f d.

(** The sort key of the variable heuristic for a slot: the size of its
    domain and its number of neighbors. *)
Definition mrv_before (cw : Crossword) (doms : Domains) (v u : Var) : Prop :=
  forall dv du,
    getitem doms v = Ok dv -> getitem doms u = Ok du ->
    List.length dv < List.length du
    \/ (List.length dv = List.length du
        /\ List.length (neighbors cw u) <= List.length (neighbors cw v)).

(** A dictionary still has, unchanged, every entry of an earlier one whose
    key is not in [except]. *)
Definition same_entries (except : list Var) (a a' : Assignment) : Prop :=
  forall v, ~ In v except -> In v (keys a) -> getitem a' v = getitem a v.

(** Every entry of [a'] is an entry of [a] or holds a word of the domain
    the store has for its slot. *)
Definition drawn_from (doms : Domains) (a a' : Assignment) : Prop :=
  forall v w, In (v, w) a' ->
              In (v, w) a \/ exists d, getitem doms v = Ok d /\ In w d.

(** The counter [order_domain_values] computes for one word of [var]. *)
Definition ruled_out (cw : Crossword) (var : Var) (a : Assignment)
           (doms : Domains) (value : word) : result nat :=
  count_neighbors cw var value a doms (neighbors cw var) 0.

(** * Properties of the embedding *)

(** ** Equality of slots *)

Lemma Direction_eqb_eq (d1 d2 : Direction) :
  Direction_eqb d1 d2 = true <-> d1 = d2.
Proof. destruct d1, d2; simpl; split; congruence. Qed.

Lemma Var_eqb_eq (x y : Var) : Var_eqb x y = true <-> x = y.
Proof.
  unfold Var_eqb. destruct x as [i1 j1 d1 l1], y as [i2 j2 d2 l2]; simpl.
  rewrite !andb_true_iff, !Nat.eqb_eq, Direction_eqb_eq.
  split.
  - intros [[[-> ->] ->] ->]. reflexivity.
  - intros E. injection E as -> -> -> ->. auto.
Qed.

Lemma Var_eqb_refl (x : Var) : Var_eqb x x = true.
Proof. apply Var_eqb_eq. reflexivity. Qed.

Lemma Var_eqb_neq (x y : Var) : Var_eqb x y = false <-> x <> y.
Proof.
  split.
  - intros E H. apply Var_eqb_eq in H. congruence.
  - intros H. destruct (Var_eqb x y) eqn:E; [|reflexivity].
    apply Var_eqb_eq in E. contradiction.
Qed.

Lemma Var_eqb_sym (x y : Var) : Var_eqb x y = Var_eqb y x.
Proof.
  destruct (Var_eqb x y) eqn:E1, (Var_eqb y x) eqn:E2; try reflexivity.
  - apply Var_eqb_eq in E1. subst. rewrite Var_eqb_refl in E2. discriminate.
  - apply Var_eqb_eq in E2. subst. rewrite Var_eqb_refl in E1. discriminate.
Qed.

(** Case analysis on a comparison of slots, turning it into (dis)equality. *)
Tactic Notation "case_var" constr(x) constr(y) :=
  let E := fresh "E" in
  destruct (Var_eqb x y) eqn:E;
  [apply Var_eqb_eq in E | apply Var_eqb_neq in E].

(** ** The outcome monad *)

Lemma bind_Ok {A B : Type} (r : result A) (k : A -> result B) (b : B) :
  bind r k = Ok b -> exists a, r = Ok a /\ k a = Ok b.
Proof. destruct r; simpl; intros H; try discriminate. eauto. Qed.

Lemma bind_terminates {A B : Type} (r : result A) (k : A -> result B) :
  terminates r -> (forall a, r = Ok a -> terminates (k a)) ->
  terminates (bind r k).
Proof.
  unfold terminates. destruct r; simpl; intros Hr Hk; auto. discriminate.
Qed.

(** Splits a hypothesis [bind e k = Ok r] into its two halves. *)
Tactic Notation "bind_inv" hyp(H) "as" ident(a) ident(Ha) :=
  apply bind_Ok in H; destruct H as [a [Ha H]].

(** ** Dictionaries *)

Section DictFacts.
Variable V : Type.
Implicit Types (d : dict V) (k : Var) (v : V).

Lemma contains_In d k : contains d k = true <-> In k (keys d).
Proof.
  induction d as [|[k' v'] d IH]; simpl.
  - split; [discriminate | tauto].
  - case_var k' k.
    + split; auto.
    + rewrite IH. split; [auto | intros [H|H]; [contradiction | auto]].
Qed.

Lemma contains_false d k : contains d k = false <-> ~ In k (keys d).
Proof.
  rewrite <- contains_In. destruct (contains d k); split; congruence.
Qed.

Lemma getitem_In d k v : getitem d k = Ok v -> In (k, v) d.
Proof.
  induction d as [|[k' v'] d IH]; simpl; [discriminate|].
  case_var k' k.
  - intros H. injection H as ->. subst. auto.
  - auto.
Qed.

Lemma getitem_contains d k v : getitem d k = Ok v -> contains d k = true.
Proof.
  intros H. apply contains_In. apply getitem_In in H.
  unfold keys. apply (in_map fst) in H. exact H.
Qed.

Lemma contains_getitem d k :
  contains d k = true -> exists v, getitem d k = Ok v.
Proof.
  induction d as [|[k' v'] d IH]; simpl; [discriminate|].
  destruct (Var_eqb k' k); eauto.
Qed.

Lemma In_getitem d k v :
  NoDup (keys d) -> In (k, v) d -> getitem d k = Ok v.
Proof.
  induction d as [|[k' v'] d IH]; simpl; [tauto|].
  intros ND [H|H].
  - injection H as -> ->. rewrite Var_eqb_refl. reflexivity.
  - inversion ND as [|? ? Hn ND']; subst.
    case_var k' k.
    + subst. exfalso. apply Hn. apply (in_map fst) in H. exact H.
    + auto.
Qed.

Lemma getitem_terminates d k : terminates (getitem d k).
Proof.
  unfold terminates.
  induction d as [|[k' v'] d IH]; simpl; [discriminate|].
  destruct (Var_eqb k' k); [discriminate | exact IH].
Qed.

Lemma getitem_setitem_same d k v : getitem (setitem d k v) k = Ok v.
Proof.
  induction d as [|[k' v'] d IH]; simpl.
  - rewrite Var_eqb_refl. reflexivity.
  - destruct (Var_eqb k' k) eqn:E; simpl; rewrite E; auto.
Qed.

Lemma getitem_setitem_other d k k' v :
  k' <> k -> getitem (setitem d k v) k' = getitem d k'.
Proof.
  intros Hne.
  induction d as [|[k0 v0] d IH]; simpl.
  - apply Var_eqb_neq in Hne. rewrite Var_eqb_sym, Hne. reflexivity.
  - case_var k0 k; simpl.
    + subst k0. apply Var_eqb_neq in Hne. rewrite Var_eqb_sym, Hne.
      reflexivity.
    + destruct (Var_eqb k0 k'); auto.
Qed.

Lemma contains_setitem d k k' v :
  contains (setitem d k v) k' = Var_eqb k k' || contains d k'.
Proof.
  induction d as [|[k0 v0] d IH]; simpl.
  - destruct (Var_eqb k k'); reflexivity.
  - case_var k0 k; simpl.
    + subst. destruct (Var_eqb k k'); reflexivity.
    + rewrite IH. destruct (Var_eqb k0 k'), (Var_eqb k k'); reflexivity.
Qed.

Lemma keys_setitem_present d k v :
  contains d k = true -> keys (setitem d k v) = keys d.
Proof.
  induction d as [|[k0 v0] d IH]; simpl; [discriminate|].
  destruct (Var_eqb k0 k); simpl; intros H; [reflexivity|].
  f_equal. auto.
Qed.

Lemma keys_setitem_absent d k v :
  contains d k = false -> keys (setitem d k v) = keys d ++ [k].
Proof.
  induction d as [|[k0 v0] d IH]; simpl; [reflexivity|].
  destruct (Var_eqb k0 k); simpl; intros H; [discriminate|].
  f_equal. auto.
Qed.

Lemma In_keys_setitem d k k' v :
  In k' (keys (setitem d k v)) <-> k' = k \/ In k' (keys d).
Proof.
  rewrite <- !contains_In, contains_setitem, orb_true_iff, Var_eqb_eq.
  intuition auto.
Qed.

Lemma NoDup_keys_setitem d k v :
  NoDup (keys d) -> NoDup (keys (setitem d k v)).
Proof.
  intros ND. destruct (contains d k) eqn:E.
  - rewrite keys_setitem_present; assumption.
  - rewrite keys_setitem_absent by assumption.
    apply NoDup_app; [assumption| repeat constructor; simpl; tauto |].
    intros x Hx [<-|[]]. apply contains_false in E. contradiction.
Qed.

Lemma delitem_keys d k d' :
  delitem d k = Ok d' ->
  (forall k', In k' (keys d') -> In k' (keys d))
  /\ (forall k', k' <> k -> In k' (keys d) -> In k' (keys d'))
  /\ (NoDup (keys d) -> NoDup (keys d') /\ ~ In k (keys d')).
Proof.
  revert d'.
  induction d as [|[k0 v0] d IH]; simpl; intros d' H; [discriminate|].
  case_var k0 k.
  - injection H as <-. subst k0. repeat split.
    + auto.
    + intros k' Hne [H|H]; [congruence | assumption].
    + inversion H; assumption.
    + inversion H; assumption.
  - bind_inv H as d2 Ha. injection H as <-.
    destruct (IH _ Ha) as [I1 [I2 I3]]. simpl. repeat split.
    + intros k' [H|H]; auto.
    + intros k' Hne [H|H]; auto.
    + inversion H as [|? ? Hn ND]; subst.
      constructor; [| apply I3; assumption].
      intros Hin. apply Hn. auto.
    + inversion H as [|? ? Hn ND]; subst.
      intros [Hk|Hk]; [congruence|]. apply I3 in ND. tauto.
Qed.

Lemma delitem_terminates d k : terminates (delitem d k).
Proof.
  unfold terminates.
  induction d as [|[k0 v0] d IH]; simpl; [discriminate|].
  destruct (Var_eqb k0 k); [discriminate|].
  destruct (delitem d k); simpl; congruence.
Qed.

Lemma delitem_setitem_keys d k v d' :
  contains d k = false -> delitem (setitem d k v) k = Ok d' ->
  keys d' = keys d.
Proof.
  revert d'.
  induction d as [|[k0 v0] d IH]; simpl; intros d' Hc H.
  - rewrite Var_eqb_refl in H. injection H as <-. reflexivity.
  - destruct (Var_eqb k0 k) eqn:E; [discriminate|].
    simpl in H. rewrite E in H. bind_inv H as d2 Ha. injection H as <-.
    simpl. f_equal. eauto.
Qed.
End DictFacts.

(** ** Words and sets of words *)

Lemma get_in_range (s : string) :
  forall k, k < String.length s -> exists c, String.get k s = Some c.
Proof.
  induction s as [|a s IH]; simpl; intros k Hk; [lia|].
  destruct k as [|k]; [eauto|]. apply IH. lia.
Qed.

Lemma str_index_Ok (s : word) (k : nat) (c : ascii) :
  str_index s k = Ok c <-> String.get k s = Some c.
Proof.
  unfold str_index. destruct (String.get k s); split; congruence.
Qed.

Lemma str_index_terminates (s : word) (k : nat) : terminates (str_index s k).
Proof. unfold terminates, str_index. destruct (String.get k s); congruence. Qed.

Lemma word_in_In (w : word) (s : list word) : word_in w s = true <-> In w s.
Proof.
  unfold word_in. rewrite existsb_exists. split.
  - intros [w' [Hin E]]. apply String.eqb_eq in E. subst. exact Hin.
  - intros Hin. exists w. split; [exact Hin | apply String.eqb_refl].
Qed.

Lemma word_in_false (w : word) (s : list word) :
  word_in w s = false <-> ~ In w s.
Proof.
  rewrite <- word_in_In. destruct (word_in w s); split; congruence.
Qed.

Lemma set_remove_Ok (s s' : list word) (w : word) :
  set_remove s w = Ok s' ->
  In w s /\ s' = filter (fun w' => negb (String.eqb w w')) s.
Proof.
  unfold set_remove. destruct (word_in w s) eqn:E; [|discriminate].
  intros H. injection H as <-. apply word_in_In in E. auto.
Qed.

Lemma set_remove_terminates (s : list word) (w : word) :
  terminates (set_remove s w).
Proof. unfold terminates, set_remove. destruct (word_in w s); congruence. Qed.

Lemma filter_filter {A : Type} (f g : A -> bool) (l : list A) :
  filter f (filter g l) = filter (fun a => g a && f a) l.
Proof.
  induction l as [|a l IH]; simpl; [reflexivity|].
  destruct (g a); simpl; [destruct (f a)|]; rewrite IH; reflexivity.
Qed.

Lemma filter_length_lt {A : Type} (f : A -> bool) (l : list A) (a : A) :
  In a l -> f a = false -> List.length (filter f l) < List.length l.
Proof.
  induction l as [|b l IH]; simpl; [tauto|].
  intros [->|Hin] Hf.
  - rewrite Hf. pose proof (filter_length_le f l). lia.
  - specialize (IH Hin Hf). destruct (f b); simpl; lia.
Qed.

Lemma supported_iff (ov : nat * nat) (dy : list word) (wx : word) :
  supported ov dy wx = true <->
  exists wy, In wy dy /\ compatible ov wx wy = true.
Proof. unfold supported. apply existsb_exists. Qed.

Lemma compatible_iff (ov : nat * nat) (wx wy : word) :
  compatible ov wx wy = true <->
  exists c, String.get (fst ov) wx = Some c /\ String.get (snd ov) wy = Some c.
Proof.
  unfold compatible.
  destruct (String.get (fst ov) wx) as [c1|], (String.get (snd ov) wy) as [c2|];
    split; try discriminate; try (intros [c [H1 H2]]; discriminate).
  - intros E. apply Ascii.eqb_eq in E. subst. eauto.
  - intros [c [H1 H2]]. injection H1 as ->. injection H2 as ->.
    apply Ascii.eqb_refl.
Qed.

Lemma compatible_swap (ox oy : nat) (wx wy : word) :
  compatible (ox, oy) wx wy = compatible (oy, ox) wy wx.
Proof.
  unfold compatible; simpl.
  destruct (String.get ox wx), (String.get oy wy); try reflexivity.
  apply Ascii.eqb_sym.
Qed.

(** ** Arc revision *)

Section ReviseFacts.
Variable cw : Crossword.
Variables (ov : nat * nat) (x : Var) (dy : list word).

Lemma revise_found_Ok (node : word) (l : list word) (found b : bool) :
  revise_found ov node l found = Ok b -> b = found || supported ov l node.
Proof.
  revert found. induction l as [|node2 l IH]; simpl; intros found H.
  - injection H as <-. rewrite orb_false_r. reflexivity.
  - bind_inv H as c1 H1. bind_inv H as c2 H2.
    apply str_index_Ok in H1. apply str_index_Ok in H2.
    apply IH in H. subst b. unfold compatible. rewrite H1, H2.
    destruct (Ascii.eqb c1 c2), found; reflexivity.
Qed.

Lemma revise_found_total (node : word) (l : list word) (found : bool) :
  fst ov < String.length node ->
  (forall w, In w l -> snd ov < String.length w) ->
  exists b, revise_found ov node l found = Ok b.
Proof.
  intros Hn. revert found.
  induction l as [|node2 l IH]; simpl; intros found Hl; [eauto|].
  destruct (get_in_range node Hn) as [c1 H1].
  destruct (get_in_range node2 (Hl node2 (or_introl eq_refl))) as [c2 H2].
  apply str_index_Ok in H1. apply str_index_Ok in H2.
  rewrite H1, H2. simpl. apply IH. auto.
Qed.

Lemma revise_found_terminates (node : word) (l : list word) (found : bool) :
  terminates (revise_found ov node l found).
Proof.
  revert found. induction l as [|node2 l IH]; simpl; intros found.
  - discriminate.
  - apply bind_terminates; [apply str_index_terminates|]. intros c1 _.
    apply bind_terminates; [apply str_index_terminates|]. intros c2 _.
    apply IH.
Qed.

(** What the loop of [revise] has done when it returns normally. *)
Lemma revise_loop_Ok (nodes : list word) :
  forall (rev : bool) (doms : Domains) (rev' : bool) (doms' : Domains),
    revise_loop ov x dy nodes rev doms = Ok (rev', doms') ->
    rev' = rev || negb (forallb (supported ov dy) nodes)
    /\ keys doms' = keys doms
    /\ (forall z, z <> x -> getitem doms' z = getitem doms z)
    /\ (forall d, getitem doms x = Ok d ->
                  getitem doms' x
                  = Ok (filter (fun w => negb (word_in w (unsupported ov dy nodes)))
                               d))
    /\ (forallb (supported ov dy) nodes = true -> doms' = doms).
Proof.
  induction nodes as [|node rest IH]; simpl; intros rev doms rev' doms' H.
  - injection H as <- <-. rewrite orb_false_r. repeat split; auto.
    intros d Hd. rewrite Hd. f_equal.
    clear. induction d as [|w d IHd]; simpl; congruence.
  - bind_inv H as found Hf. apply revise_found_Ok in Hf. simpl in Hf.
    subst found. unfold unsupported in *. simpl.
    destruct (supported ov dy node) eqn:Es; simpl in *.
    + apply IH in H. exact H.
    + bind_inv H as s Hs. bind_inv H as s' Hs'.
      apply set_remove_Ok in Hs'. destruct Hs' as [Hin ->].
      apply IH in H. destruct H as [-> [Hk [Ho [Hx _]]]].
      rewrite orb_true_r. repeat split.
      * rewrite Hk. apply keys_setitem_present.
        eapply getitem_contains; eassumption.
      * intros z Hz. rewrite Ho by assumption.
        apply getitem_setitem_other. assumption.
      * intros d Hd. rewrite Hs in Hd. injection Hd as <-.
        rewrite (Hx _ (getitem_setitem_same _ _ _)). f_equal.
        rewrite filter_filter. apply filter_ext. intros w. simpl.
        rewrite (String.eqb_sym w node). rewrite negb_orb. reflexivity.
      * discriminate.
Qed.

(** The loop of [revise] raises nothing on a duplicate-free list of
    words of the domain whose letters at the overlap exist. *)
Lemma revise_loop_total (nodes : list word) :
  (forall w, In w nodes -> fst ov < String.length w) ->
  (forall w, In w dy -> snd ov < String.length w) ->
  NoDup nodes ->
  forall (rev : bool) (doms : Domains) (s : list word),
    getitem doms x = Ok s -> incl nodes s ->
    exists r, revise_loop ov x dy nodes rev doms = Ok r.
Proof.
  intros Hx Hy. induction nodes as [|node rest IH]; simpl;
    intros ND rev doms s Hs Hincl; [eauto|].
  inversion ND as [|? ? Hnot ND']; subst.
  destruct (@revise_found_total node dy false) as [found Hf];
    [apply Hx; left; reflexivity | exact Hy |].
  rewrite Hf. simpl. destruct found; simpl.
  - eapply IH; eauto.
    + intros w Hw. apply Hx. right. exact Hw.
    + intros w Hw. apply Hincl. right. exact Hw.
  - rewrite Hs. simpl. unfold set_remove.
    assert (Hin : In node s) by (apply Hincl; left; reflexivity).
    apply word_in_In in Hin. rewrite Hin. simpl.
    eapply IH; auto.
    + intros w Hw. apply Hx. right. exact Hw.
    + apply getitem_setitem_same.
    + intros w Hw. apply filter_In. split.
      * apply Hincl. right. exact Hw.
      * apply negb_true_iff. apply String.eqb_neq. intros ->. contradiction.
Qed.

Lemma revise_loop_terminates (nodes : list word) :
  forall (rev : bool) (doms : Domains),
    terminates (revise_loop ov x dy nodes rev doms).
Proof.
  induction nodes as [|node rest IH]; simpl; intros rev doms.
  - discriminate.
  - apply bind_terminates; [apply revise_found_terminates|].
    intros found _. destruct found; simpl; [apply IH|].
    apply bind_terminates; [apply getitem_terminates|]. intros s _.
    apply bind_terminates; [apply set_remove_terminates|]. intros s' _.
    apply IH.
Qed.

Lemma minus_unsupported (d : list word) :
  filter (fun w => negb (word_in w (unsupported ov dy d))) d
  = filter (supported ov dy) d.
Proof.
  apply filter_ext_in. intros w Hw. unfold unsupported.
  destruct (supported ov dy w) eqn:E.
  - apply negb_true_iff. apply word_in_false. intros Hin.
    apply filter_In in Hin. rewrite E in Hin. destruct Hin; discriminate.
  - apply negb_false_iff. apply word_in_In. apply filter_In.
    rewrite E. auto.
Qed.
End ReviseFacts.

(** What [revise] has done when it returns normally. *)
Lemma revise_Ok (cw : Crossword) (x y : Var) (doms doms' : Domains)
      (rev : bool) :
  revise cw x y doms = Ok (rev, doms') ->
  keys doms' = keys doms
  /\ (forall z, z <> x -> getitem doms' z = getitem doms z)
  /\ (rev = false -> doms' = doms)
  /\ match overlaps cw x y with
     | None => rev = false /\ doms' = doms
     | Some ov =>
         exists dx dy,
           getitem doms x = Ok dx /\ getitem doms y = Ok dy
           /\ rev = negb (forallb (supported ov dy) dx)
           /\ getitem doms' x = Ok (filter (supported ov dy) dx)
     end.
Proof.
  unfold revise. destruct (overlaps cw x y) as [ov|].
  - intros H. bind_inv H as dx Hx. bind_inv H as dy Hy.
    apply revise_loop_Ok in H. destruct H as [Hr [Hk [Ho [Hd Hs]]]].
    simpl in Hr. repeat split; auto.
    + intros E. apply Hs. rewrite E in Hr. symmetry in Hr.
      apply negb_false_iff in Hr. exact Hr.
    + exists dx, dy. repeat split; auto.
      rewrite (Hd _ Hx). f_equal. apply minus_unsupported.
  - intros H. injection H as <- <-. auto.
Qed.

Lemma revise_terminates (cw : Crossword) (x y : Var) (doms : Domains) :
  terminates (revise cw x y doms).
Proof.
  unfold revise. destruct (overlaps cw x y) as [ov|]; [|discriminate].
  apply bind_terminates; [apply getitem_terminates|]. intros dx _.
  apply bind_terminates; [apply getitem_terminates|]. intros dy _.
  apply revise_loop_terminates.
Qed.

(** C7. [revise(x, y)] on two different slots whose domains are sets
    present in the store: with no overlap between them it changes nothing
    and returns [False]; with an overlap [(ox, oy)] whose offsets exist in
    the words of the two domains, it leaves in the domain of [x] exactly
    the words [wx] for which some [wy] of the domain of [y] has
    [wx[ox] == wy[oy]], changes no other domain (that of [y] included) and
    returns [True] exactly when a word was removed. *)
Theorem revise_correct (cw : Crossword) (doms : Domains) (x y : Var)
        (dx dy : list word) :
  x <> y ->
  getitem doms x = Ok dx -> getitem doms y = Ok dy -> NoDup dx ->
  match overlaps cw x y with
  | None => revise cw x y doms = Ok (false, doms)
  | Some (ox, oy) =>
      (forall w, In w dx -> ox < String.length w) ->
      (forall w, In w dy -> oy < String.length w) ->
      exists doms',
        revise cw x y doms
        = Ok (negb (forallb (supported (ox, oy) dy) dx), doms')
        /\ getitem doms' x = Ok (filter (supported (ox, oy) dy) dx)
        /\ (forall w,
               In w (filter (supported (ox, oy) dy) dx) <->
               In w dx /\
               exists wy c, In wy dy /\ String.get ox w = Some c
                            /\ String.get oy wy = Some c)
        /\ getitem doms' y = Ok dy
        /\ (forall z, z <> x -> getitem doms' z = getitem doms z)
        /\ keys doms' = keys doms
  end.
Proof.
  intros Hxy Hx Hy ND.
  destruct (overlaps cw x y) as [[ox oy]|] eqn:Eo.
  - intros Rx Ry.
    assert (Hr : exists r, revise cw x y doms = Ok r).
    { unfold revise. rewrite Eo, Hx, Hy. simpl.
      eapply revise_loop_total; eauto. apply incl_refl. }
    destruct Hr as [[rev doms'] Hr]. exists doms'.
    pose proof (revise_Ok _ _ _ _ Hr) as [Hk [Ho [_ Hov]]].
    rewrite Eo in Hov. destruct Hov as [dx' [dy' [Hx' [Hy' [-> Hd]]]]].
    rewrite Hx in Hx'. rewrite Hy in Hy'.
    injection Hx' as <-. injection Hy' as <-.
    repeat split; auto.
    + apply filter_In in H. tauto.
    + apply filter_In in H. destruct H as [_ H].
      apply supported_iff in H. destruct H as [wy [Hin Hc]].
      apply compatible_iff in Hc. destruct Hc as [c [H1 H2]]. eauto.
    + intros [Hin [wy [c [Hwy [H1 H2]]]]]. apply filter_In. split; auto.
      apply supported_iff. exists wy. split; auto.
      apply compatible_iff. eauto.
    + rewrite Ho by congruence. exact Hy.
  - unfold revise. rewrite Eo. reflexivity.
Qed.

Lemma revise_correct_witness :
  exists doms',
    revise Samples.corner Samples.Y Samples.X Samples.corner_domains
    = Ok (true, doms')
    /\ getitem doms' Samples.Y = Ok ["AC"%string]
    /\ getitem doms' Samples.X = Ok ["AB"%string].
Proof.
  pose proof (@revise_correct Samples.corner Samples.corner_domains
                Samples.Y Samples.X
                ["AC"%string; "BC"%string] ["AB"%string]) as H.
  simpl in H.
  destruct H as [doms' [H1 [H2 [_ [H4 _]]]]].
  - discriminate.
  - reflexivity.
  - reflexivity.
  - repeat constructor; simpl; intuition discriminate.
  - intros w [<-|[<-|[]]]; simpl; lia.
  - intros w [<-|[]]; simpl; lia.
  - exists doms'. repeat split; assumption.
Defined.

(** ** Neighbors *)

Lemma neighbors_In (cw : Crossword) (x y : Var) :
  In y (neighbors cw x) <->
  In y (variables cw) /\ y <> x /\ overlaps cw y x <> None.
Proof.
  unfold neighbors. rewrite filter_In, andb_true_iff, negb_true_iff.
  rewrite Var_eqb_neq. unfold is_some.
  destruct (overlaps cw y x); intuition congruence.
Qed.

Lemma neighbors_sym (cw : Crossword) (x y : Var) :
  symmetric_overlaps cw ->
  In x (variables cw) -> In y (neighbors cw x) -> In x (neighbors cw y).
Proof.
  intros Hsym Hx Hy. apply neighbors_In in Hy. destruct Hy as [Hyv [Hne Ho]].
  apply neighbors_In. repeat split; auto.
  destruct (overlaps cw y x) as [[a b]|] eqn:E; [|congruence].
  rewrite (Hsym _ _ _ _ Hyv Hx E). discriminate.
Qed.

Lemma neighbors_overlap (cw : Crossword) (x y : Var) :
  symmetric_overlaps cw ->
  In x (variables cw) -> In y (neighbors cw x) ->
  exists ov, overlaps cw x y = Some ov.
Proof.
  intros Hsym Hx Hy. apply neighbors_In in Hy. destruct Hy as [Hyv [_ Ho]].
  destruct (overlaps cw y x) as [[a b]|] eqn:E; [|congruence].
  rewrite (Hsym _ _ _ _ Hyv Hx E). eauto.
Qed.

Lemma In_requeue (cw : Crossword) (var1 var2 n v : Var) :
  In (n, v) (requeue cw var1 var2) <->
  v = var1 /\ n <> var2 /\ In n (neighbors cw var1).
Proof.
  unfold requeue. rewrite in_map_iff. split.
  - intros [n' [E H]]. injection E as -> ->.
    apply filter_In in H. destruct H as [H1 H2].
    apply negb_true_iff, Var_eqb_neq in H2. auto.
  - intros [-> [Hne Hin]]. exists n. split; [reflexivity|].
    apply filter_In. split; [assumption|].
    apply negb_true_iff, Var_eqb_neq. assumption.
Qed.

Lemma In_all_arcs (cw : Crossword) (doms : Domains) (x y : Var) :
  In (x, y) (all_arcs cw doms) <->
  In x (keys doms) /\ In y (neighbors cw x).
Proof.
  unfold all_arcs. rewrite in_flat_map. split.
  - intros [v [Hv H]]. apply in_map_iff in H.
    destruct H as [n [E Hn]]. injection E as -> ->. auto.
  - intros [Hx Hy]. exists x. split; [assumption|].
    apply in_map_iff. eauto.
Qed.

(** ** AC-3 *)

Section AC3Facts.
Variable cw : Crossword.

Lemma arc_consistent_shrink (doms doms1 : Domains) (x y : Var) :
  arc_consistent cw doms x y ->
  getitem doms1 y = getitem doms y ->
  (forall dx1, getitem doms1 x = Ok dx1 ->
               exists dx, getitem doms x = Ok dx /\ incl dx1 dx) ->
  arc_consistent cw doms1 x y.
Proof.
  intros Hc Hy Hx ov dx1 dy Ho Hx1 Hy1 wx Hin.
  destruct (Hx _ Hx1) as [dx [Hdx Hincl]].
  rewrite Hy in Hy1. eapply Hc; eauto.
Qed.

Lemma ac3_loop_keys (fuel : nat) :
  forall arcs doms b doms',
    ac3_loop cw fuel arcs doms = Ok (b, doms') -> keys doms' = keys doms.
Proof.
  induction fuel as [|fuel IH]; simpl; intros arcs doms b doms' H;
    [discriminate|].
  destruct arcs as [|[var1 var2] arcs'].
  - injection H as _ <-. reflexivity.
  - bind_inv H as r Hr. destruct r as [revised doms1].
    apply revise_Ok in Hr. destruct Hr as [Hk _].
    destruct revised.
    + bind_inv H as d Hd. destruct d.
      * injection H as _ <-. exact Hk.
      * apply IH in H. congruence.
    + apply IH in H. congruence.
Qed.

Lemma ac3_keys (arcs : option (list (Var * Var))) (doms doms' : Domains)
      (b : bool) :
  ac3 cw arcs doms = Ok (b, doms') -> keys doms' = keys doms.
Proof. unfold ac3. apply ac3_loop_keys. Qed.

(** Domains that are not empty when the loop starts are not empty when
    it reports success. *)
Lemma ac3_loop_nonempty (fuel : nat) :
  forall arcs doms doms',
    ac3_loop cw fuel arcs doms = Ok (true, doms') ->
    forall x d, getitem doms x = Ok d -> d <> [] ->
                exists d', getitem doms' x = Ok d' /\ d' <> [].
Proof.
  induction fuel as [|fuel IH]; simpl; intros arcs doms doms' H x d Hd Hne;
    [discriminate|].
  destruct arcs as [|[var1 var2] arcs'].
  - injection H as <-. eauto.
  - bind_inv H as r Hr. destruct r as [revised doms1].
    apply revise_Ok in Hr. destruct Hr as [_ [Ho [Hsame _]]].
    destruct revised.
    + bind_inv H as d1 Hd1. destruct d1 as [|w d1]; [discriminate|].
      case_var x var1.
      * subst x. eapply IH; [exact H | exact Hd1 | discriminate].
      * eapply IH; [exact H | | exact Hne]. rewrite Ho; assumption.
    + rewrite (Hsame eq_refl) in H. eapply IH; eauto.
Qed.

Hypothesis Hsym : symmetric_overlaps cw.

(** One turn of the loop that revised [var1] against [var2] keeps the
    invariant for the extended worklist. *)
Lemma ac3_invariant_step (var1 var2 : Var) (arcs : list (Var * Var))
      (doms doms1 : Domains) (revised : bool) :
  incl (keys doms) (variables cw) ->
  ac3_invariant cw ((var1, var2) :: arcs) doms ->
  revise cw var1 var2 doms = Ok (revised, doms1) ->
  ac3_invariant cw
                (if revised then arcs ++ requeue cw var1 var2 else arcs)
                doms1.
Proof.
  intros Hvars [Hloop Hinv] Hr.
  assert (Hne : var1 <> var2) by (apply Hloop; left; reflexivity).
  apply revise_Ok in Hr. destruct Hr as [Hk [Ho [Hsame Hov]]].
  (* the arc just revised is consistent afterwards *)
  assert (Hdone : arc_consistent cw doms1 var1 var2).
  { intros ov dx1 dy1 Eo Hx1 Hy1 wx Hin. rewrite Eo in Hov.
    destruct Hov as [dx [dy [Hx [Hy [_ Hf]]]]].
    rewrite Ho in Hy1 by congruence.
    rewrite Hf in Hx1. injection Hx1 as <-.
    rewrite Hy in Hy1. injection Hy1 as <-.
    apply filter_In in Hin. tauto. }
  split.
  - intros a b Hin. destruct revised; [|apply Hloop; right; assumption].
    apply in_app_or in Hin. destruct Hin as [Hin|Hin].
    + apply Hloop. right. assumption.
    + apply In_requeue in Hin. destruct Hin as [-> [_ Hn]].
      apply neighbors_In in Hn. tauto.
  - intros x y Hx Hy. rewrite Hk in Hx.
    destruct (Hinv _ _ Hx Hy) as [[Heq|Hin]|Hc].
    + injection Heq as <- <-. right. exact Hdone.
    + left. destruct revised; [apply in_or_app|]; auto.
    + case_var x var1.
      * (* an arc leaving [var1]: its domain only shrank *)
        subst x. right.
        apply arc_consistent_shrink with (doms := doms); auto.
        -- apply Ho. apply neighbors_In in Hy. tauto.
        -- intros dx1 Hx1. destruct (overlaps cw var1 var2) as [ov|].
           ++ destruct Hov as [dx [dy [Hdx [_ [_ Hf]]]]].
              exists dx. split; [assumption|].
              rewrite Hf in Hx1. injection Hx1 as <-.
              intros w Hw. apply filter_In in Hw. tauto.
           ++ destruct Hov as [_ ->]. exists dx1. split; [assumption|].
              apply incl_refl.
      * case_var y var1.
        -- subst y. case_var x var2.
           ++ (* the arc back from [var2]: the words removed from
                 [var1] supported nothing *)
              subst x. right.
              intros ov' dy1 dx1 Eo' Hy1 Hx1 wy Hin.
              destruct ov' as [oy ox].
              assert (Eo : overlaps cw var1 var2 = Some (ox, oy)).
              { apply Hsym; auto. apply neighbors_In in Hy. tauto. }
              rewrite Eo in Hov.
              destruct Hov as [dx [dy [Hdx [Hdy [_ Hf]]]]].
              rewrite Ho in Hy1 by congruence.
              rewrite Hdy in Hy1. injection Hy1 as <-.
              rewrite Hf in Hx1. injection Hx1 as <-.
              pose proof (Hc _ _ _ Eo' Hdy Hdx _ Hin) as Hs.
              apply supported_iff in Hs. destruct Hs as [wx [Hwx Hcomp]].
              apply supported_iff. exists wx. split; [|assumption].
              apply filter_In. split; [assumption|].
              apply supported_iff. exists wy. split; [assumption|].
              rewrite compatible_swap. exact Hcomp.
           ++ (* another arc into [var1]: queued again *)
              destruct revised.
              ** left. apply in_or_app. right. apply In_requeue.
                 repeat split; auto. apply neighbors_sym; auto.
              ** right. rewrite (Hsame eq_refl). exact Hc.
        -- (* an arc that does not touch [var1] *)
           right. apply arc_consistent_shrink with (doms := doms); auto.
           intros dx1 Hx1. exists dx1. rewrite <- (Ho x) by assumption.
           split; [assumption | apply incl_refl].
Qed.

Lemma ac3_loop_sound (fuel : nat) :
  forall arcs doms doms',
    incl (keys doms) (variables cw) ->
    ac3_invariant cw arcs doms ->
    ac3_loop cw fuel arcs doms = Ok (true, doms') ->
    forall x y, In x (keys doms') -> In y (neighbors cw x) ->
                arc_consistent cw doms' x y.
Proof.
  induction fuel as [|fuel IH]; simpl; intros arcs doms doms' Hvars Hinv H;
    [discriminate|].
  destruct arcs as [|[var1 var2] arcs'].
  - injection H as <-. intros x y Hx Hy.
    destruct Hinv as [_ Hinv]. destruct (Hinv _ _ Hx Hy) as [[]|Hc].
    exact Hc.
  - bind_inv H as r Hr. destruct r as [revised doms1].
    pose proof (ac3_invariant_step Hvars Hinv Hr) as Hstep.
    apply revise_Ok in Hr. destruct Hr as [Hk _].
    assert (Hvars1 : incl (keys doms1) (variables cw))
      by (rewrite Hk; exact Hvars).
    destruct revised.
    + bind_inv H as d Hd. destruct d; [discriminate|].
      eapply IH; eauto.
    + eapply IH; eauto.
Qed.
End AC3Facts.

Lemma all_arcs_invariant (cw : Crossword) (doms : Domains) :
  ac3_invariant cw (all_arcs cw doms) doms.
Proof.
  split.
  - intros a b H. apply In_all_arcs in H. destruct H as [_ H].
    apply neighbors_In in H. intros ->. tauto.
  - intros x y Hx Hy. left. apply In_all_arcs. auto.
Qed.

(** C4 (as stated) fails: a seeded run of AC-3 succeeds and leaves an arc
    that it was not given inconsistent. *)
Lemma ac3_success_counterexample :
  ~ (forall (cw : Crossword) (arcs : option (list (Var * Var)))
            (doms doms' : Domains),
        ac3 cw arcs doms = Ok (true, doms') ->
        (forall x y, In x (keys doms') -> In y (neighbors cw x) ->
                     arc_consistent cw doms' x y)
        /\ (forall x d, getitem doms' x = Ok d -> d <> [])).
Proof.
  intros H.
  pose proof (H Samples.corner (Some [(Samples.X, Samples.Y)])
                Samples.corner_domains Samples.corner_domains eq_refl)
    as [Harc _].
  assert (Hx : In Samples.Y (keys Samples.corner_domains))
    by (simpl; auto).
  assert (Hy : In Samples.X (neighbors Samples.corner Samples.Y))
    by (simpl; auto).
  specialize (Harc _ _ Hx Hy (0, 0) ["AC"; "BC"]%string ["AB"%string]
                   eq_refl eq_refl eq_refl "BC"%string).
  simpl in Harc. assert (false = true) by (apply Harc; auto). discriminate.
Qed.

(** A run over all arcs succeeds although a domain is empty on entry. *)
Lemma ac3_empty_domain_success :
  ac3 Samples.lonely None [(Samples.R1, [])] = Ok (true, [(Samples.R1, [])]).
Proof. reflexivity. Qed.

(** C4 (amended). On a Constraint Model with symmetric overlaps, [ac3]
    started from the list of all ordered neighbor pairs (no seed list)
    returns success only if, on return, every ordered pair of neighboring
    slots is arc-consistent and every domain that was not empty on entry is
    still not empty. *)
Theorem ac3_fixed_point (cw : Crossword) (doms doms' : Domains) :
  symmetric_overlaps cw ->
  keys doms = variables cw ->
  ac3 cw None doms = Ok (true, doms') ->
  (forall x y, In x (variables cw) -> In y (neighbors cw x) ->
     exists ov dx dy,
       overlaps cw x y = Some ov
       /\ getitem doms' x = Ok dx /\ getitem doms' y = Ok dy
       /\ forall wx, In wx dx ->
                     exists wy, In wy dy /\ compatible ov wx wy = true)
  /\ (forall x d, getitem doms x = Ok d -> d <> [] ->
                  exists d', getitem doms' x = Ok d' /\ d' <> []).
Proof.
  intros Hsym Hkeys H. unfold ac3 in H. split.
  - intros x y Hx Hy.
    pose proof (ac3_loop_keys _ _ _ _ H) as Hk.
    assert (Hc : arc_consistent cw doms' x y).
    { eapply ac3_loop_sound; eauto.
      - rewrite Hkeys. apply incl_refl.
      - apply all_arcs_invariant.
      - congruence. }
    destruct (@neighbors_overlap cw x y Hsym Hx Hy) as [ov Ho].
    assert (Hyv : In y (variables cw)) by (apply neighbors_In in Hy; tauto).
    rewrite <- Hkeys, <- Hk in Hx, Hyv.
    apply contains_In, contains_getitem in Hx, Hyv.
    destruct Hx as [dx Hdx]. destruct Hyv as [dy Hdy].
    exists ov, dx, dy. repeat split; auto.
    intros wx Hin. apply supported_iff. eapply Hc; eauto.
  - eapply ac3_loop_nonempty; eauto.
Qed.

Lemma corner_symmetric : symmetric_overlaps Samples.corner.
Proof.
  intros x y ox oy Hx Hy. simpl in Hx, Hy.
  destruct Hx as [<-|[<-|[]]], Hy as [<-|[<-|[]]]; vm_compute;
    intros H; try discriminate; injection H as <- <-; reflexivity.
Qed.

Lemma ac3_fixed_point_witness :
  (forall x y, In x (variables Samples.corner) ->
               In y (neighbors Samples.corner x) ->
     exists ov dx dy,
       overlaps Samples.corner x y = Some ov
       /\ getitem [(Samples.X, ["AB"%string]); (Samples.Y, ["AC"%string])] x
          = Ok dx
       /\ getitem [(Samples.X, ["AB"%string]); (Samples.Y, ["AC"%string])] y
          = Ok dy
       /\ forall wx, In wx dx ->
                     exists wy, In wy dy /\ compatible ov wx wy = true)
  /\ (forall x d, getitem Samples.corner_domains x = Ok d -> d <> [] ->
        exists d',
          getitem [(Samples.X, ["AB"%string]); (Samples.Y, ["AC"%string])] x
          = Ok d' /\ d' <> []).
Proof.
  apply (@ac3_fixed_point Samples.corner Samples.corner_domains).
  - exact corner_symmetric.
  - reflexivity.
  - reflexivity.
Defined.

(** ** The assignment check *)

Section ConsistentFacts.
Variable cw : Crossword.

Lemma consistent_neighbors_true (a : Assignment) (v : Var) (w : word)
      (ns : list Var) :
  consistent_neighbors cw a v w ns = Ok true ->
  forall n, In n ns -> contains a n = true ->
    exists wn ov, getitem a n = Ok wn /\ overlaps cw v n = Some ov
                  /\ compatible ov w wn = true.
Proof.
  induction ns as [|n0 ns IH]; simpl; intros H n Hin Hc; [tauto|].
  destruct (contains a n0) eqn:Ec.
  - bind_inv H as wn Hwn.
    destruct (overlaps cw v n0) as [ov|] eqn:Eo; [|discriminate].
    bind_inv H as c1 H1. bind_inv H as c2 H2.
    apply str_index_Ok in H1. apply str_index_Ok in H2.
    destruct (Ascii.eqb c1 c2) eqn:Ee; simpl in H; [|discriminate].
    destruct Hin as [<-|Hin]; [|auto].
    exists wn, ov. repeat split; auto.
    unfold compatible. rewrite H1, H2, Ascii.eqb_sym. exact Ee.
  - destruct Hin as [<-|Hin]; [congruence | auto].
Qed.

Lemma consistent_neighbors_complete (a : Assignment) (v : Var) (w : word)
      (ns : list Var) :
  (forall n, In n ns -> contains a n = true ->
     exists wn ov, getitem a n = Ok wn /\ overlaps cw v n = Some ov
                   /\ compatible ov w wn = true) ->
  consistent_neighbors cw a v w ns = Ok true.
Proof.
  induction ns as [|n0 ns IH]; simpl; intros H; [reflexivity|].
  destruct (contains a n0) eqn:Ec.
  - destruct (H n0 (or_introl eq_refl) Ec) as [wn [ov [Hwn [Ho Hcomp]]]].
    rewrite Hwn, Ho. simpl.
    apply compatible_iff in Hcomp. destruct Hcomp as [c [H1 H2]].
    apply str_index_Ok in H1. apply str_index_Ok in H2.
    rewrite H1, H2. simpl. rewrite Ascii.eqb_refl. simpl.
    apply IH. intros n Hn. apply H. right. exact Hn.
  - apply IH. intros n Hn. apply H. right. exact Hn.
Qed.

Lemma consistent_neighbors_terminates (a : Assignment) (v : Var) (w : word)
      (ns : list Var) :
  terminates (consistent_neighbors cw a v w ns).
Proof.
  induction ns as [|n0 ns IH]; simpl; [discriminate|].
  destruct (contains a n0); [|exact IH].
  apply bind_terminates; [apply getitem_terminates|]. intros wn _.
  destruct (overlaps cw v n0); [|discriminate].
  apply bind_terminates; [apply str_index_terminates|]. intros c1 _.
  apply bind_terminates; [apply str_index_terminates|]. intros c2 _.
  destruct (negb (Ascii.eqb c1 c2)); [discriminate | exact IH].
Qed.

Lemma consistent_items_true (a : Assignment) (items : list (Var * word)) :
  forall used,
    consistent_items cw a items used = Ok true ->
    NoDup (map snd items)
    /\ (forall w, In w (map snd items) -> ~ In w used)
    /\ (forall v w, In (v, w) items -> entry_ok cw a v w).
Proof.
  induction items as [|[v w] items IH]; simpl; intros used H.
  - split; [constructor | split; [tauto | intros v w []]].
  - destruct (word_in w used) eqn:Eu; [discriminate|].
    apply word_in_false in Eu.
    destruct (Nat.eqb (String.length w) (var_length v)) eqn:El;
      simpl in H; [|discriminate].
    apply Nat.eqb_eq in El.
    bind_inv H as ok Hn. destruct ok; [|discriminate].
    apply IH in H. destruct H as [ND [Hused Hent]].
    repeat split.
    + constructor; [|exact ND]. intros Hin. apply (Hused _ Hin).
      left. reflexivity.
    + intros w' [<-|Hin]; [exact Eu|].
      intros Hu. apply (Hused _ Hin). right. exact Hu.
    + destruct H as [E|Hin]; [injection E as <- <-; exact El|].
      apply (Hent _ _ Hin).
    + destruct H as [E|Hin].
      * injection E as <- <-. apply consistent_neighbors_true. exact Hn.
      * apply (Hent _ _ Hin).
Qed.

Lemma consistent_items_complete (a : Assignment)
      (items : list (Var * word)) :
  forall used,
    NoDup (map snd items) ->
    (forall w, In w (map snd items) -> ~ In w used) ->
    (forall v w, In (v, w) items -> entry_ok cw a v w) ->
    consistent_items cw a items used = Ok true.
Proof.
  induction items as [|[v w] items IH]; simpl; intros used ND Hused Hent;
    [reflexivity|].
  inversion ND as [|? ? Hnot ND']; subst.
  assert (Eu : word_in w used = false).
  { apply word_in_false. apply Hused. left. reflexivity. }
  rewrite Eu.
  destruct (Hent v w (or_introl eq_refl)) as [El Hn].
  apply Nat.eqb_eq in El. rewrite El. simpl.
  rewrite (consistent_neighbors_complete _ _ _ _ Hn). simpl.
  apply IH; auto.
  intros w' Hin [<-|Hu]; [contradiction|].
  apply (Hused w'); auto.
Qed.

Lemma consistent_items_terminates (a : Assignment)
      (items : list (Var * word)) :
  forall used, terminates (consistent_items cw a items used).
Proof.
  induction items as [|[v w] items IH]; simpl; intros used;
    [discriminate|].
  destruct (word_in w used); [discriminate|].
  destruct (negb (Nat.eqb (String.length w) (var_length v)));
    [discriminate|].
  apply bind_terminates; [apply consistent_neighbors_terminates|].
  intros ok _. destruct ok; [apply IH | discriminate].
Qed.

(** [consistent] answers [True] exactly on the dictionaries without a
    violation. *)
Lemma consistent_true_iff (a : Assignment) :
  NoDup (keys a) ->
  (consistent cw a = Ok true <-> violation_free cw a).
Proof.
  intros NDk. unfold consistent. split.
  - intros H. apply consistent_items_true in H.
    destruct H as [ND [_ Hent]]. split.
    + exact ND.
    + intros v w Hin. apply (Hent _ _ Hin).
    + intros x y wx wy Hx Hy Hn.
      destruct (Hent _ _ Hx) as [_ Hnb].
      destruct (Hnb y Hn) as [wn [ov [Hwn [Ho Hc]]]].
      * apply contains_In. apply (in_map fst) in Hy. exact Hy.
      * rewrite (@In_getitem _ a y wy NDk Hy) in Hwn. injection Hwn as <-.
        eauto.
  - intros [ND Hlen Hagree]. apply consistent_items_complete.
    + exact ND.
    + tauto.
    + intros v w Hin. split; [apply Hlen; exact Hin|].
      intros n Hn Hc. apply contains_getitem in Hc.
      destruct Hc as [wn Hwn]. pose proof (getitem_In _ _ Hwn) as Hin'.
      destruct (Hagree _ _ _ _ Hin Hin' Hn) as [ov [Ho Hcomp]].
      eauto.
Qed.

Lemma consistent_terminates (a : Assignment) : terminates (consistent cw a).
Proof. apply consistent_items_terminates. Qed.
End ConsistentFacts.

(** ** Sorting and the two heuristics *)

Section SortFacts.
Variables (A K : Type) (key : A -> K) (leb : K -> K -> bool).

Lemma In_insert_sorted (x y : A) (l : list A) :
  In y (insert_sorted key leb x l) <-> y = x \/ In y l.
Proof.
  induction l as [|z l IH]; simpl.
  - intuition auto.
  - destruct (leb (key x) (key z)); simpl.
    + intuition auto.
    + rewrite IH. intuition auto.
Qed.

Lemma In_sort_by (y : A) (l : list A) :
  In y (sort_by key leb l) <-> In y l.
Proof.
  induction l as [|x l IH]; simpl; [tauto|].
  rewrite In_insert_sorted, IH. intuition auto.
Qed.

Lemma insert_sorted_length (x : A) (l : list A) :
  List.length (insert_sorted key leb x l) = S (List.length l).
Proof.
  induction l as [|z l IH]; simpl; [reflexivity|].
  destruct (leb (key x) (key z)); simpl; congruence.
Qed.

Lemma sort_by_length (l : list A) :
  List.length (sort_by key leb l) = List.length l.
Proof.
  induction l as [|x l IH]; simpl; [reflexivity|].
  rewrite insert_sorted_length. congruence.
Qed.
End SortFacts.

Section HeuristicFacts.
Variable cw : Crossword.

Lemma mrv_keys_fst (doms : Domains) (vars : list Var) :
  forall keyed, mrv_keys cw doms vars = Ok keyed -> map fst keyed = vars.
Proof.
  induction vars as [|var rest IH]; simpl; intros keyed H.
  - injection H as <-. reflexivity.
  - bind_inv H as d Hd. bind_inv H as keyed' Hk. injection H as <-.
    simpl. f_equal. auto.
Qed.

Lemma mrv_keys_terminates (doms : Domains) (vars : list Var) :
  terminates (mrv_keys cw doms vars).
Proof.
  induction vars as [|var rest IH]; simpl; [discriminate|].
  apply bind_terminates; [apply getitem_terminates|]. intros d _.
  apply bind_terminates; [exact IH|]. intros keyed _. discriminate.
Qed.

Lemma In_unassigned (a : Assignment) (doms : Domains) (v : Var) :
  In v (unassigned a doms) <-> In v (keys doms) /\ contains a v = false.
Proof.
  unfold unassigned. rewrite filter_In, negb_true_iff. tauto.
Qed.

(** The selected slot is one of the store that the assignment lacks. *)
Lemma select_unassigned_variable_Some (a : Assignment) (doms : Domains)
      (v : Var) :
  select_unassigned_variable cw a doms = Ok (Some v) ->
  In v (keys doms) /\ contains a v = false.
Proof.
  unfold select_unassigned_variable. fold (unassigned a doms).
  destruct (unassigned a doms) as [|u us] eqn:Eu; [discriminate|].
  intros H. bind_inv H as keyed Hk.
  destruct (sort_by snd mrv_key_leb keyed) as [|[var k] sorted] eqn:Es;
    [discriminate|].
  injection H as ->.
  apply In_unassigned. rewrite Eu.
  rewrite <- (mrv_keys_fst _ _ Hk).
  apply (in_map fst) with (x := (v, k)).
  apply (In_sort_by snd mrv_key_leb). rewrite Es. left. reflexivity.
Qed.

(** No slot is selected only when every slot has an entry. *)
Lemma select_unassigned_variable_None (a : Assignment) (doms : Domains) :
  select_unassigned_variable cw a doms = Ok None -> complete a doms.
Proof.
  unfold select_unassigned_variable. fold (unassigned a doms).
  destruct (unassigned a doms) as [|u us] eqn:Eu.
  - intros _ v Hv. apply contains_In.
    destruct (contains a v) eqn:Ec; [reflexivity|].
    assert (Hin : In v (unassigned a doms)) by (apply In_unassigned; auto).
    rewrite Eu in Hin. destruct Hin.
  - intros H. bind_inv H as keyed Hk.
    destruct (sort_by snd mrv_key_leb keyed) as [|[var k] sorted];
      discriminate.
Qed.

Lemma select_unassigned_variable_terminates (a : Assignment)
      (doms : Domains) :
  terminates (select_unassigned_variable cw a doms).
Proof.
  unfold select_unassigned_variable.
  destruct (filter _ _); [discriminate|].
  apply bind_terminates; [apply mrv_keys_terminates|]. intros keyed _.
  destruct (sort_by snd mrv_key_leb keyed) as [|[var k] sorted];
    discriminate.
Qed.

Lemma count_conflicts_terminates (intersection : option (nat * nat))
      (value : word) (a : Assignment) (dom : list word) :
  forall counter,
    terminates (count_conflicts intersection value a dom counter).
Proof.
  induction dom as [|value2 rest IH]; simpl; intros counter;
    [discriminate|].
  destruct intersection as [ov|]; [|discriminate].
  apply bind_terminates; [apply str_index_terminates|]. intros c1 _.
  apply bind_terminates; [apply str_index_terminates|]. intros c2 _.
  destruct (_ && _); apply IH.
Qed.

Lemma count_neighbors_terminates (var : Var) (value : word)
      (a : Assignment) (doms : Domains) (ns : list Var) :
  forall counter,
    terminates (count_neighbors cw var value a doms ns counter).
Proof.
  induction ns as [|n ns IH]; simpl; intros counter; [discriminate|].
  apply bind_terminates; [apply getitem_terminates|]. intros dom _.
  apply bind_terminates; [apply count_conflicts_terminates|].
  intros counter' _. apply IH.
Qed.

Lemma rank_values_terminates (var : Var) (a : Assignment) (doms : Domains)
      (values : list word) :
  terminates (rank_values cw var a doms values).
Proof.
  induction values as [|value rest IH]; simpl; [discriminate|].
  apply bind_terminates; [apply count_neighbors_terminates|].
  intros counter _.
  apply bind_terminates; [exact IH|]. intros ordered _. discriminate.
Qed.

Lemma order_domain_values_terminates (var : Var) (a : Assignment)
      (doms : Domains) :
  terminates (order_domain_values cw var a doms).
Proof.
  unfold order_domain_values.
  apply bind_terminates; [apply getitem_terminates|]. intros dom _.
  apply bind_terminates; [apply rank_values_terminates|].
  intros ordered _. discriminate.
Qed.
End HeuristicFacts.

(** ** Node consistency *)

Lemma enforce_nodes_keys (domain : Var) (dom : list word) :
  forall doms doms',
    enforce_nodes domain dom doms = Ok doms' -> keys doms' = keys doms.
Proof.
  induction dom as [|node dom IH]; simpl; intros doms doms' H.
  - injection H as <-. reflexivity.
  - destruct (negb (Nat.eqb (String.length node) (var_length domain))).
    + bind_inv H as s Hs. bind_inv H as s' Hs'.
      apply IH in H. rewrite H. apply keys_setitem_present.
      eapply getitem_contains; eassumption.
    + auto.
Qed.

Lemma enforce_loop_keys (domains : list Var) :
  forall doms doms',
    enforce_loop domains doms = Ok doms' -> keys doms' = keys doms.
Proof.
  induction domains as [|domain rest IH]; simpl; intros doms doms' H.
  - injection H as <-. reflexivity.
  - bind_inv H as dom Hd. bind_inv H as doms1 H1.
    apply enforce_nodes_keys in H1. apply IH in H. congruence.
Qed.

Lemma enforce_node_consistency_keys (doms doms' : Domains) :
  enforce_node_consistency doms = Ok doms' -> keys doms' = keys doms.
Proof. apply enforce_loop_keys. Qed.

Lemma enforce_nodes_terminates (domain : Var) (dom : list word) :
  forall doms, terminates (enforce_nodes domain dom doms).
Proof.
  induction dom as [|node dom IH]; simpl; intros doms; [discriminate|].
  destruct (negb _); [|apply IH].
  apply bind_terminates; [apply getitem_terminates|]. intros s _.
  apply bind_terminates; [apply set_remove_terminates|]. intros s' _.
  apply IH.
Qed.

Lemma enforce_node_consistency_terminates (doms : Domains) :
  terminates (enforce_node_consistency doms).
Proof.
  unfold enforce_node_consistency. generalize (keys doms) as domains.
  intros domains. revert doms.
  induction domains as [|domain rest IH]; simpl; intros doms;
    [discriminate|].
  apply bind_terminates; [apply getitem_terminates|]. intros dom _.
  apply bind_terminates; [apply enforce_nodes_terminates|]. intros doms1 _.
  apply IH.
Qed.

Lemma keys_init_domains (cw : Crossword) :
  keys (init_domains cw) = variables cw.
Proof.
  unfold keys, init_domains. rewrite map_map. simpl. apply map_id.
Qed.

(** ** Backtracking search: what a returned assignment is *)

Section BacktrackFacts.
Variable cw : Crossword.

Lemma assignment_ok_setitem (a : Assignment) (doms : Domains) (v : Var)
      (w : word) :
  assignment_ok a doms -> In v (keys doms) ->
  assignment_ok (setitem a v w) doms.
Proof.
  intros [ND Hincl] Hv. split.
  - apply NoDup_keys_setitem. exact ND.
  - intros k Hk. apply In_keys_setitem in Hk.
    destruct Hk as [->|Hk]; auto.
Qed.

Lemma assignment_ok_delitem (a a' : Assignment) (doms : Domains) (v : Var) :
  assignment_ok a doms -> delitem a v = Ok a' -> assignment_ok a' doms.
Proof.
  intros [ND Hincl] H. apply delitem_keys in H. destruct H as [H1 [_ H3]].
  split; [apply H3; exact ND|]. intros k Hk. auto.
Qed.

Lemma assignment_ok_keys (a : Assignment) (doms doms' : Domains) :
  keys doms' = keys doms -> assignment_ok a doms -> assignment_ok a doms'.
Proof. unfold assignment_ok. intros ->. tauto. Qed.

Section Loop.
Variable rec : Assignment -> Domains -> result outcome.
Hypothesis rec_post :
  forall a doms o,
    rec a doms = Ok o -> assignment_ok a doms -> backtrack_post cw a doms o.
Variable variable : Var.

(** The loop over the candidate words keeps every key but possibly
    that of the selected slot, and returns only what the recursive
    call returned. *)
Lemma backtrack_values_post (values : list word) :
  forall a doms res a' doms',
    In variable (keys doms) -> assignment_ok a doms ->
    backtrack_values cw rec variable values a doms = Ok (res, a', doms') ->
    assignment_ok a' doms'
    /\ keys doms' = keys doms
    /\ (forall k, In k (keys a) -> k <> variable -> In k (keys a'))
    /\ (forall r, res = Some r ->
                  r = a' /\ consistent cw r = Ok true /\ complete r doms').
Proof.
  induction values as [|value rest IH]; simpl;
    intros a doms res a' doms' Hv Hok H.
  - injection H as <- <- <-.
    repeat split; try tauto; try apply Hok; discriminate.
  - pose proof (@assignment_ok_setitem a doms variable value Hok Hv)
      as Hok1.
    assert (Hkeep : forall k, In k (keys a) ->
                              In k (keys (setitem a variable value))).
    { intros k Hk. apply In_keys_setitem. auto. }
    bind_inv H as ok Hc. destruct ok.
    + bind_inv H as inf Hac3. destruct inf as [inference doms1].
      pose proof Hac3 as Hk1. apply ac3_keys in Hk1.
      pose proof (@assignment_ok_keys _ doms doms1 Hk1 Hok1) as Hok1'.
      destruct inference.
      * bind_inv H as o Hrec. destruct o as [[result a2] doms2].
        pose proof (rec_post Hrec Hok1') as Hpost.
        simpl in Hpost. destruct Hpost as [Hok2 [Hk2 [Hincl Hres]]].
        destruct result as [r|].
        -- injection H as <- <- <-.
           split; [exact Hok2|]. split; [congruence|]. split.
           ++ intros k Hk _. apply Hincl. apply Hkeep. exact Hk.
           ++ intros r' Hr'. injection Hr' as <-.
              apply (Hres r eq_refl Hc).
        -- apply IH in H; [| congruence | exact Hok2].
           destruct H as [Hok' [Hk' [Hkeys' Hres']]].
           split; [exact Hok'|]. split; [congruence|].
           split; [|exact Hres'].
           intros k Hk Hne. apply Hkeys'; [|exact Hne].
           apply Hincl. apply Hkeep. exact Hk.
      * apply IH in H; [| congruence | exact Hok1'].
        destruct H as [Hok' [Hk' [Hkeys' Hres']]].
        split; [exact Hok'|]. split; [congruence|].
        split; [|exact Hres'].
        intros k Hk Hne. apply Hkeys'; [|exact Hne].
        apply Hkeep. exact Hk.
    + bind_inv H as a2 Hdel.
      pose proof (@assignment_ok_delitem _ a2 doms variable Hok1 Hdel)
        as Hok2.
      apply delitem_keys in Hdel. destruct Hdel as [_ [Hd2 _]].
      apply IH in H; [| exact Hv | exact Hok2].
      destruct H as [Hok' [Hk' [Hkeys' Hres']]].
      split; [exact Hok'|]. split; [congruence|].
      split; [|exact Hres'].
      intros k Hk Hne. apply Hkeys'; [|exact Hne].
      apply Hd2; [exact Hne|]. apply Hkeep. exact Hk.
Qed.
End Loop.

Lemma backtrack_post_holds (fuel : nat) :
  forall a doms o,
    backtrack cw fuel a doms = Ok o -> assignment_ok a doms ->
    backtrack_post cw a doms o.
Proof.
  induction fuel as [|fuel IH]; simpl; intros a doms o H Hok;
    [discriminate|].
  destruct (assignment_complete a doms) eqn:Ec.
  - injection H as <-. simpl.
    split; [exact Hok|]. split; [reflexivity|].
    split; [apply incl_refl|].
    intros r Hr Hc. injection Hr as <-.
    split; [reflexivity|]. split; [exact Hc|].
    destruct Hok as [ND Hincl].
    unfold assignment_complete in Ec. apply Nat.eqb_eq in Ec.
    intros v Hv.
    apply (@NoDup_length_incl _ (keys a) (keys doms) ND); [lia | exact Hincl |].
    exact Hv.
  - bind_inv H as sel Hsel. destruct sel as [variable|].
    + bind_inv H as values Hvalues. destruct o as [[res a'] doms'].
      apply select_unassigned_variable_Some in Hsel.
      destruct Hsel as [Hv Hnot].
      eapply backtrack_values_post in H;
        [| exact IH | exact Hv | exact Hok].
      destruct H as [Hok' [Hk' [Hkeys' Hres']]]. simpl.
      split; [exact Hok'|]. split; [exact Hk'|]. split.
      * intros k Hk. apply Hkeys'; [exact Hk|]. intros ->.
        apply contains_false in Hnot. contradiction.
      * intros r Hr _. apply (Hres' r Hr).
    + injection H as <-. simpl.
      split; [exact Hok|]. split; [reflexivity|].
      split; [apply incl_refl|].
      intros r Hr Hc. injection Hr as <-.
      split; [reflexivity|]. split; [exact Hc|].
      apply select_unassigned_variable_None in Hsel. exact Hsel.
Qed.
End BacktrackFacts.

(** What [solve] leaves behind when it returns normally. *)
Lemma solve_outcome_post (cw : Crossword) (res : option Assignment)
      (a' : Assignment) (doms' : Domains) :
  solve_outcome cw = Ok (res, a', doms') ->
  keys doms' = variables cw
  /\ assignment_ok a' doms'
  /\ (forall r, res = Some r ->
                r = a' /\ consistent cw r = Ok true /\ complete r doms').
Proof.
  unfold solve_outcome. intros H.
  bind_inv H as doms1 H1. apply enforce_node_consistency_keys in H1.
  bind_inv H as r2 H2. destruct r2 as [b doms2].
  apply ac3_keys in H2.
  apply backtrack_post_holds in H.
  - simpl in H. destruct H as [Hok [Hk [_ Hres]]].
    split; [|split; [exact Hok|]].
    + rewrite Hk, H2, H1. apply keys_init_domains.
    + intros r Hr. apply (Hres r Hr eq_refl).
  - split; [constructor | intros k []].
Qed.

Lemma solve_outcome_solution (cw : Crossword) (a a' : Assignment)
      (doms' : Domains) :
  solve_outcome cw = Ok (Some a, a', doms') -> solution cw a.
Proof.
  intros Ho.
  apply solve_outcome_post in Ho. destruct Ho as [Hk [[ND Hincl] Hres]].
  destruct (Hres a eq_refl) as [-> [Hc Hcomp]].
  split.
  - exact ND.
  - intros v Hv. apply Hcomp. rewrite Hk. exact Hv.
  - intros v Hv. rewrite <- Hk. apply Hincl. exact Hv.
  - apply consistent_true_iff; assumption.
Qed.

(** C2. Whenever [solve] returns an assignment, it gives exactly one word
    to every slot of the Constraint Model (and to nothing else), the
    words are pairwise distinct, each has the length of its slot, and every
    pair of neighboring slots agrees at the offsets of its overlap. *)
Theorem solve_sound (cw : Crossword) (a : Assignment) :
  solve cw = Ok (Some a) -> solution cw a.
Proof.
  unfold solve. intros H. bind_inv H as o Ho. destruct o as [[res a'] doms'].
  injection H as ->. eapply solve_outcome_solution. exact Ho.
Qed.

Lemma solve_sound_witness :
  solution Samples.corner
           [(Samples.X, "AB"%string); (Samples.Y, "AC"%string)].
Proof. apply solve_sound. reflexivity. Defined.

(** ** Termination: the fuel supplied is never exhausted *)

Lemma total_size_setitem (doms : Domains) (x : Var) (s s' : list word) :
  getitem doms x = Ok s ->
  total_size (setitem doms x s') + List.length s
  = total_size doms + List.length s'.
Proof.
  unfold total_size.
  induction doms as [|[k d] doms IH]; simpl; [discriminate|].
  destruct (Var_eqb k x); simpl; intros H.
  - injection H as ->. lia.
  - specialize (IH H). lia.
Qed.

Lemma revise_loop_size (ov : nat * nat) (x : Var) (dy nodes : list word) :
  forall rev doms rev' doms',
    revise_loop ov x dy nodes rev doms = Ok (rev', doms') ->
    total_size doms' <= total_size doms
    /\ (rev = false -> rev' = true -> total_size doms' < total_size doms).
Proof.
  induction nodes as [|node rest IH]; simpl; intros rev doms rev' doms' H.
  - injection H as <- <-. split; [lia | congruence].
  - bind_inv H as found Hf. destruct found; simpl in H.
    + apply IH in H. exact H.
    + bind_inv H as s Hs. bind_inv H as s' Hs'.
      apply set_remove_Ok in Hs'. destruct Hs' as [Hin Es'].
      apply IH in H. destruct H as [Hle _].
      pose proof (total_size_setitem _ _ s' Hs) as Hsz.
      assert (Hlt : List.length s' < List.length s).
      { rewrite Es'. apply filter_length_lt with (a := node); [exact Hin|].
        rewrite String.eqb_refl. reflexivity. }
      split; intros; lia.
Qed.

Lemma revise_size (cw : Crossword) (x y : Var) (doms doms' : Domains) :
  revise cw x y doms = Ok (true, doms') ->
  total_size doms' < total_size doms.
Proof.
  unfold revise. destruct (overlaps cw x y) as [ov|]; [|discriminate].
  intros H. bind_inv H as dx Hx. bind_inv H as dy Hy.
  apply revise_loop_size in H. apply H; reflexivity.
Qed.

Lemma requeue_length (cw : Crossword) (var1 var2 : Var) :
  List.length (requeue cw var1 var2) <= List.length (variables cw).
Proof.
  unfold requeue, neighbors. rewrite length_map.
  etransitivity; [apply filter_length_le|]. apply filter_length_le.
Qed.

Lemma ac3_loop_terminates (cw : Crossword) (fuel : nat) :
  forall arcs doms,
    List.length arcs + List.length (variables cw) * total_size doms < fuel ->
    terminates (ac3_loop cw fuel arcs doms).
Proof.
  induction fuel as [|fuel IH]; simpl; intros arcs doms Hfuel; [lia|].
  destruct arcs as [|[var1 var2] arcs']; [discriminate|].
  apply bind_terminates; [apply revise_terminates|].
  intros [revised doms1] Hr. destruct revised.
  - apply bind_terminates; [apply getitem_terminates|]. intros d _.
    destruct d; [discriminate|].
    apply IH. apply revise_size in Hr.
    rewrite length_app. pose proof (requeue_length cw var1 var2).
    simpl in Hfuel. nia.
  - apply revise_Ok in Hr. destruct Hr as [_ [_ [Hsame _]]].
    rewrite (Hsame eq_refl). apply IH. simpl in Hfuel. lia.
Qed.

Lemma ac3_terminates (cw : Crossword) (arcs : option (list (Var * Var)))
      (doms : Domains) :
  terminates (ac3 cw arcs doms).
Proof. unfold ac3, ac3_fuel. apply ac3_loop_terminates. lia. Qed.

Lemma filter_length_mono {A : Type} (f g : A -> bool) (l : list A) :
  (forall a, In a l -> f a = true -> g a = true) ->
  List.length (filter f l) <= List.length (filter g l).
Proof.
  induction l as [|a l IH]; simpl; intros H; [lia|].
  assert (IH' : List.length (filter f l) <= List.length (filter g l))
    by (apply IH; intros b Hb; apply H; right; exact Hb).
  destruct (f a) eqn:Ef.
  - rewrite (H a (or_introl eq_refl) Ef). simpl. lia.
  - destruct (g a); simpl; lia.
Qed.

Lemma filter_length_mono_lt {A : Type} (f g : A -> bool) (l : list A)
      (x : A) :
  (forall a, In a l -> f a = true -> g a = true) ->
  In x l -> f x = false -> g x = true ->
  List.length (filter f l) < List.length (filter g l).
Proof.
  induction l as [|a l IH]; simpl; intros H Hin Hf Hg; [tauto|].
  assert (Hmono : List.length (filter f l) <= List.length (filter g l))
    by (apply filter_length_mono; intros b Hb; apply H; right; exact Hb).
  destruct Hin as [->|Hin].
  - rewrite Hf, Hg. simpl. lia.
  - assert (IH' : List.length (filter f l) < List.length (filter g l))
      by (apply IH; auto).
    destruct (f a) eqn:Ef.
    + rewrite (H a (or_introl eq_refl) Ef). simpl. lia.
    + destruct (g a); simpl; lia.
Qed.

Lemma unassigned_mono (a a' : Assignment) (doms doms' : Domains) :
  keys doms' = keys doms -> incl (keys a) (keys a') ->
  List.length (unassigned a' doms') <= List.length (unassigned a doms).
Proof.
  intros Hk Hincl. unfold unassigned. rewrite Hk.
  apply filter_length_mono. intros v _ Hv.
  apply negb_true_iff in Hv. apply negb_true_iff.
  apply contains_false. apply contains_false in Hv.
  intros Hin. apply Hv. apply Hincl. exact Hin.
Qed.

Lemma unassigned_setitem_lt (a : Assignment) (doms : Domains) (v : Var)
      (w : word) :
  In v (keys doms) -> contains a v = false ->
  List.length (unassigned (setitem a v w) doms)
  < List.length (unassigned a doms).
Proof.
  intros Hv Hc. unfold unassigned.
  apply filter_length_mono_lt with (x := v); auto.
  - intros k _. rewrite contains_setitem.
    destruct (Var_eqb v k); simpl; [discriminate | auto].
  - rewrite contains_setitem, Var_eqb_refl. reflexivity.
  - rewrite Hc. reflexivity.
Qed.

Section BacktrackTermination.
Variable cw : Crossword.

Section Loop.
Variables (rec : Assignment -> Domains -> result outcome) (m : nat).
Hypothesis rec_post :
  forall a doms o,
    rec a doms = Ok o -> assignment_ok a doms -> backtrack_post cw a doms o.
Hypothesis rec_terminates :
  forall a doms,
    assignment_ok a doms -> List.length (unassigned a doms) < m ->
    terminates (rec a doms).
Variable variable : Var.

Lemma backtrack_values_terminates (values : list word) :
  forall a doms,
    In variable (keys doms) -> assignment_ok a doms ->
    (forall w, List.length (unassigned (setitem a variable w) doms) < m) ->
    terminates (backtrack_values cw rec variable values a doms).
Proof.
  induction values as [|value rest IH]; simpl; intros a doms Hv Hok Hm;
    [discriminate|].
  pose proof (@assignment_ok_setitem a doms variable value Hok Hv)
    as Hok1.
  assert (Hself : forall w,
             incl (keys (setitem a variable value))
                  (keys (setitem (setitem a variable value) variable w))).
  { intros w k Hk. apply In_keys_setitem. auto. }
  apply bind_terminates; [apply consistent_terminates|].
  intros ok _. destruct ok.
  - apply bind_terminates; [apply ac3_terminates|].
    intros [inference doms1] Hac3. apply ac3_keys in Hac3.
    pose proof (@assignment_ok_keys _ doms doms1 Hac3 Hok1) as Hok1'.
    assert (Hm1 : List.length (unassigned (setitem a variable value) doms1)
                  < m).
    { unfold unassigned. rewrite Hac3. apply Hm. }
    destruct inference.
    + apply bind_terminates; [apply rec_terminates; assumption|].
      intros [[result a2] doms2] Hrec.
      pose proof (rec_post Hrec Hok1') as Hpost. simpl in Hpost.
      destruct Hpost as [Hok2 [Hk2 [Hincl _]]].
      destruct result; [discriminate|].
      apply IH; [congruence | exact Hok2 |].
      intros w. eapply Nat.le_lt_trans; [|exact Hm1].
      apply unassigned_mono; [exact Hk2|].
      intros k Hk. apply In_keys_setitem. right. apply Hincl. exact Hk.
    + apply IH; [congruence | exact Hok1' |].
      intros w. eapply Nat.le_lt_trans; [|exact Hm1].
      apply unassigned_mono; [reflexivity | apply Hself].
  - apply bind_terminates; [apply delitem_terminates|].
    intros a2 Hdel.
    pose proof (@assignment_ok_delitem _ a2 doms variable Hok1 Hdel)
      as Hok2.
    apply delitem_keys in Hdel. destruct Hdel as [_ [Hd2 _]].
    apply IH; [exact Hv | exact Hok2 |].
    intros w. eapply Nat.le_lt_trans; [|exact (Hm w)].
    apply unassigned_mono; [reflexivity|].
    intros k Hk. apply In_keys_setitem in Hk. apply In_keys_setitem.
    destruct Hk as [->|Hk]; [auto|]. case_var k variable; [auto|].
    right. apply Hd2; [exact E|]. apply In_keys_setitem. auto.
Qed.
End Loop.

Lemma backtrack_terminates (fuel : nat) :
  forall a doms,
    assignment_ok a doms -> List.length (unassigned a doms) < fuel ->
    terminates (backtrack cw fuel a doms).
Proof.
  induction fuel as [|fuel IH]; simpl; intros a doms Hok Hfuel; [lia|].
  destruct (assignment_complete a doms); [discriminate|].
  apply bind_terminates; [apply select_unassigned_variable_terminates|].
  intros sel Hsel. destruct sel as [variable|]; [|discriminate].
  apply select_unassigned_variable_Some in Hsel. destruct Hsel as [Hv Hc].
  apply bind_terminates; [apply order_domain_values_terminates|].
  intros values _.
  apply backtrack_values_terminates with (m := fuel); auto.
  - intros a1 doms1 o. apply backtrack_post_holds.
  - intros w. pose proof (@unassigned_setitem_lt a doms variable w Hv Hc).
    lia.
Qed.
End BacktrackTermination.

(** [solve] always comes to an end: the fuel of its two loops suffices. *)
Lemma solve_outcome_terminates (cw : Crossword) :
  terminates (solve_outcome cw).
Proof.
  unfold solve_outcome.
  apply bind_terminates; [apply enforce_node_consistency_terminates|].
  intros doms1 _.
  apply bind_terminates; [apply ac3_terminates|]. intros [b doms2] _.
  apply backtrack_terminates.
  - split; [constructor | intros k []].
  - unfold backtrack_fuel, unassigned.
    pose proof (filter_length_le (fun var => negb (contains ([] : Assignment) var))
                                 (keys doms2)). lia.
Qed.

Lemma solve_terminates (cw : Crossword) : terminates (solve cw).
Proof.
  unfold solve.
  apply bind_terminates; [apply solve_outcome_terminates|].
  intros [[res a] doms] _. discriminate.
Qed.

(** The worklist of [ac3]: a non-empty seed list is taken as it is, and no
    seed list (or an empty one) means all ordered neighbor pairs. *)
Lemma ac3_worklist (cw : Crossword) (doms : Domains) (arc : Var * Var)
      (arcs : list (Var * Var)) :
  ac3 cw (Some (arc :: arcs)) doms
  = ac3_loop cw (ac3_fuel cw (arc :: arcs) doms) (arc :: arcs) doms
  /\ ac3 cw None doms
     = ac3_loop cw (ac3_fuel cw (all_arcs cw doms) doms) (all_arcs cw doms)
                doms
  /\ ac3 cw (Some []) doms = ac3 cw None doms.
Proof. repeat split; reflexivity. Qed.

(** One turn of the loop of [ac3]: the first arc is taken, and after a
    revision that leaves the domain non-empty the arcs [(n, var1)], for the
    neighbors [n] of [var1] other than [var2], go to the back. *)
Lemma ac3_loop_step (cw : Crossword) (fuel : nat) (var1 var2 : Var)
      (arcs : list (Var * Var)) (doms doms1 : Domains) (w : word)
      (d : list word) :
  revise cw var1 var2 doms = Ok (true, doms1) ->
  getitem doms1 var1 = Ok (w :: d) ->
  ac3_loop cw (S fuel) ((var1, var2) :: arcs) doms
  = ac3_loop cw fuel (arcs ++ requeue cw var1 var2) doms1.
Proof. intros Hr Hd. simpl. rewrite Hr. simpl. rewrite Hd. reflexivity. Qed.

(** ** Behaviour on the sample puzzles *)

Section SampleRuns.
Open Scope string_scope.

Lemma comb_solution_is_solution :
solution Samples.comb Samples.comb_solution
/\ incl (map snd Samples.comb_solution) (words Samples.comb).
Proof.
assert (ND : NoDup (keys Samples.comb_solution)).
{ repeat constructor; simpl; intuition discriminate. }
split.
- split.
  + exact ND.
  + intros v Hv. exact Hv.
  + intros v Hv. exact Hv.
  + apply consistent_true_iff; [exact ND | reflexivity].
- intros w Hw. simpl in *. intuition auto.
Qed.

(** C1. The puzzle [comb] has a complete consistent assignment made of words
  of its vocabulary, and [solve] returns [None] on it, whichever way the
  slots and the words are enumerated. *)
Theorem solve_misses_solution :
solve Samples.comb = Ok None
/\ solve Samples.comb_rev = Ok None
/\ solution Samples.comb Samples.comb_solution
/\ incl (map snd Samples.comb_solution) (words Samples.comb).
Proof.
split; [vm_compute; reflexivity|].
split; [vm_compute; reflexivity|].
exact comb_solution_is_solution.
Qed.

(** The trace behind C1: the search on [comb] ends with the entry of the
  column [M] still in the dictionary, the one that made every later choice
  for the row [T] inconsistent. *)
Lemma solve_comb_leftover :
exists doms,
  solve_outcome Samples.comb
  = Ok (None, [(Samples.M, "AAAA"%string)], doms).
Proof. eexists. vm_compute. reflexivity. Qed.

(** C3. On the puzzle [rows], [backtrack] is entered with the empty
  dictionary, tries the only word for the first row, fails in the
  recursive call and returns [None] with the entry of that row still in
  the dictionary. *)
Theorem backtrack_failure_keeps_entry :
let doms := [(Samples.R1, ["AB"%string]); (Samples.R2, ["AB"%string])] in
backtrack Samples.rows (backtrack_fuel doms) [] doms
= Ok (None, [(Samples.R1, "AB"%string)], doms).
Proof. vm_compute. reflexivity. Qed.

(** C5. Called with the empty list as seed, [ac3] processes all the arcs of
  the puzzle: here it removes a word from the domain of [Y]. *)
Theorem ac3_empty_seed_runs_all_arcs :
ac3 Samples.corner (Some []) Samples.corner_domains
= Ok (true, [(Samples.X, ["AB"%string]); (Samples.Y, ["AC"%string])])
/\ ac3 Samples.corner (Some []) Samples.corner_domains
   = ac3 Samples.corner None Samples.corner_domains.
Proof. split; reflexivity. Qed.

(** The store of the puzzle [fork] after node and arc consistency. *)
Lemma fork_domains_reached :
(doms <- enforce_node_consistency (init_domains Samples.fork) ;;
 ac3 Samples.fork None doms)
= Ok (true, Samples.fork_domains).
Proof. vm_compute. reflexivity. Qed.

(** C6. With the column [V3] assigned, [order_domain_values] puts ["AB"]
  before ["CD"] for the row [H], although ["AB"] eliminates two words of
  the only unassigned neighbor and ["CD"] one: the counter also counts
  the words of the assigned neighbor. *)
Theorem order_domain_values_counts_assigned :
order_domain_values Samples.fork Samples.H Samples.fork_assignment
                    Samples.fork_domains
= Ok ["AB"; "CD"]%string
/\ rank_values Samples.fork Samples.H Samples.fork_assignment
               Samples.fork_domains ["AB"; "CD"]%string
   = Ok [("AB", 3); ("CD", 4)]%string
/\ spec_eliminated Samples.fork Samples.fork_domains
                   Samples.fork_assignment Samples.H "AB" = 2
/\ spec_eliminated Samples.fork Samples.fork_domains
                   Samples.fork_assignment Samples.H "CD" = 1.
Proof. repeat split; vm_compute; reflexivity. Qed.

(** C8. An assignment whose second entry is too short for its slot makes
  [consistent] raise [IndexError] while it checks the first entry against
  it; entered the other way round, the same assignment is reported
  inconsistent. *)
Theorem consistent_raises_on_short_word :
consistent Samples.hook Samples.hook_short = Raise IndexError
/\ consistent Samples.hook [(Samples.P, "A"%string); (Samples.Q, "CAT"%string)]
   = Ok false
/\ String.length "A" <> var_length Samples.P.
Proof. repeat split; try (vm_compute; reflexivity). discriminate. Qed.

End SampleRuns.

(** C10. With no slot at all, [solve] returns the empty assignment,
    whatever the vocabulary. *)
Theorem solve_no_slots (cw : Crossword) :
  variables cw = [] -> solve cw = Ok (Some []).
Proof.
  intros Hv. unfold solve, solve_outcome, init_domains. rewrite Hv.
  reflexivity.
Qed.

Lemma solve_no_slots_witness :
  solve (grid_crossword [] ["AB"; "CAT"]%string) = Ok (Some []).
Proof. apply solve_no_slots. reflexivity. Defined.

(** ** An empty vocabulary *)

Section EmptyVocabulary.
Variable cw : Crossword.
Variable doms : Domains.
Hypothesis doms_empty : Forall (fun e => snd e = []) doms.

Lemma getitem_empty (k : Var) :
  In k (keys doms) -> getitem doms k = Ok [].
Proof.
  intros Hk. apply contains_In, contains_getitem in Hk.
  destruct Hk as [d Hd]. rewrite Hd. f_equal.
  apply getitem_In in Hd. rewrite Forall_forall in doms_empty.
  apply (doms_empty _ Hd).
Qed.

Lemma enforce_loop_empty (domains : list Var) :
  incl domains (keys doms) -> enforce_loop domains doms = Ok doms.
Proof.
  induction domains as [|domain rest IH]; simpl; intros Hincl;
    [reflexivity|].
  rewrite getitem_empty by (apply Hincl; left; reflexivity). simpl.
  apply IH. intros k Hk. apply Hincl. right. exact Hk.
Qed.

Lemma revise_empty (x y : Var) :
  In x (keys doms) -> In y (keys doms) ->
  revise cw x y doms = Ok (false, doms).
Proof.
  intros Hx Hy. unfold revise.
  destruct (overlaps cw x y); [|reflexivity].
  rewrite !getitem_empty by assumption. reflexivity.
Qed.

Lemma ac3_loop_empty (fuel : nat) :
  forall arcs,
    List.length arcs < fuel ->
    (forall x y, In (x, y) arcs -> In x (keys doms) /\ In y (keys doms)) ->
    ac3_loop cw fuel arcs doms = Ok (true, doms).
Proof.
  induction fuel as [|fuel IH]; simpl; intros arcs Hfuel Harcs; [lia|].
  destruct arcs as [|[var1 var2] arcs']; [reflexivity|].
  destruct (Harcs var1 var2 (or_introl eq_refl)) as [H1 H2].
  rewrite revise_empty by assumption. simpl.
  apply IH; [simpl in Hfuel; lia|].
  intros x y Hin. apply Harcs. right. exact Hin.
Qed.

Lemma order_domain_values_empty (var : Var) (a : Assignment) :
  In var (keys doms) -> order_domain_values cw var a doms = Ok [].
Proof.
  intros Hv. unfold order_domain_values.
  rewrite getitem_empty by assumption. reflexivity.
Qed.
End EmptyVocabulary.

Lemma mrv_keys_total (cw : Crossword) (doms : Domains) (vars : list Var) :
  incl vars (keys doms) -> exists keyed, mrv_keys cw doms vars = Ok keyed.
Proof.
  induction vars as [|var rest IH]; simpl; intros Hincl; [eauto|].
  assert (Hv : In var (keys doms)) by (apply Hincl; left; reflexivity).
  apply contains_In, contains_getitem in Hv. destruct Hv as [d Hd].
  rewrite Hd. simpl.
  destruct IH as [keyed Hk]; [intros k Hk; apply Hincl; right; exact Hk|].
  rewrite Hk. simpl. eauto.
Qed.

(** The variable heuristic raises nothing. *)
Lemma select_unassigned_variable_total (cw : Crossword) (a : Assignment)
      (doms : Domains) :
  exists r, select_unassigned_variable cw a doms = Ok r.
Proof.
  unfold select_unassigned_variable. fold (unassigned a doms).
  destruct (unassigned a doms) as [|u us] eqn:Eu; [eauto|].
  destruct (@mrv_keys_total cw doms (u :: us)) as [keyed Hk].
  { rewrite <- Eu. intros k Hk. apply In_unassigned in Hk. tauto. }
  rewrite Hk. simpl.
  destruct (sort_by snd mrv_key_leb keyed) as [|[var k] sorted] eqn:Es;
    [|eauto].
  apply (f_equal (@List.length _)) in Es. rewrite sort_by_length in Es.
  apply mrv_keys_fst in Hk. apply (f_equal (@List.length _)) in Hk.
  rewrite length_map in Hk. simpl in *. lia.
Qed.

(** X25. With an empty vocabulary and at least one slot, every domain is
    empty after node consistency and [solve] returns [None]. *)
Lemma solve_empty_vocabulary (cw : Crossword) :
  words cw = [] -> variables cw <> [] ->
  enforce_node_consistency (init_domains cw)
  = Ok (map (fun var => (var, [])) (variables cw))
  /\ solve cw = Ok None.
Proof.
  intros Hw Hv.
  set (doms := map (fun var => (var, @nil word)) (variables cw)).
  assert (Hinit : init_domains cw = doms).
  { unfold init_domains, doms. rewrite Hw. reflexivity. }
  assert (Hempty : Forall (fun e => snd e = []) doms).
  { apply Forall_forall. intros e He. apply in_map_iff in He.
    destruct He as [v [<- _]]. reflexivity. }
  assert (Hkeys : keys doms = variables cw).
  { rewrite <- Hinit. apply keys_init_domains. }
  assert (Henforce : enforce_node_consistency doms = Ok doms).
  { apply enforce_loop_empty; [exact Hempty | apply incl_refl]. }
  split; [rewrite Hinit; exact Henforce|].
  unfold solve, solve_outcome. rewrite Hinit, Henforce. simpl.
  assert (Hac3 : ac3 cw None doms = Ok (true, doms)).
  { unfold ac3, ac3_fuel. apply ac3_loop_empty; [exact Hempty | lia |].
    intros x y Hin. apply In_all_arcs in Hin. destruct Hin as [Hx Hy].
    split; [exact Hx|]. rewrite Hkeys. apply neighbors_In in Hy. tauto. }
  rewrite Hac3. simpl.
  assert (Hc : assignment_complete [] doms = false).
  { unfold assignment_complete. rewrite Hkeys. simpl.
    destruct (variables cw); [congruence | reflexivity]. }
  rewrite Hc.
  destruct (select_unassigned_variable_total cw [] doms) as [sel Hsel].
  rewrite Hsel. simpl. destruct sel as [variable|].
  - apply select_unassigned_variable_Some in Hsel. destruct Hsel as [Hin _].
    rewrite (@order_domain_values_empty cw doms Hempty variable [] Hin).
    reflexivity.
  - apply select_unassigned_variable_None in Hsel. exfalso.
    destruct (variables cw) as [|v vs] eqn:Ev; [congruence|].
    apply (Hsel v). rewrite Hkeys. left. reflexivity.
Qed.

(** C9. [consistent] lets an [IndexError] escape on an assignment that
    holds a word shorter than its slot (here the empty word), entered after
    the entry of a neighbor that overlaps it beyond its end. *)
Theorem consistent_lets_fault_escape :
  exists e : exn, consistent Samples.hook Samples.hook_empty = Raise e.
Proof. exists IndexError. vm_compute. reflexivity. Qed.

(** ** No fault on a well-formed model *)

Lemma bind_safe {A B : Type} (r : result A) (k : A -> result B) :
  safe r -> (forall a, r = Ok a -> safe (k a)) -> safe (bind r k).
Proof.
  unfold safe. destruct r; simpl; intros Hr Hk; auto.
  - intros e' _. apply (Hr e). reflexivity.
  - discriminate.
Qed.

Lemma safe_terminates_Ok {A : Type} (r : result A) :
  safe r -> terminates r -> exists a, r = Ok a.
Proof.
  unfold safe, terminates. destruct r; intros Hs Ht.
  - eauto.
  - exfalso. apply (Hs e). reflexivity.
  - congruence.
Qed.

Lemma Ok_safe {A : Type} (a : A) : safe (Ok a).
Proof. intros e. discriminate. Qed.

Lemma contains_getitem_safe {V : Type} (d : dict V) (k : Var) :
  In k (keys d) -> safe (getitem d k).
Proof.
  intros Hk. apply contains_In, contains_getitem in Hk.
  destruct Hk as [v ->]. apply Ok_safe.
Qed.

Lemma str_index_safe (s : word) (k : nat) :
  k < String.length s -> safe (str_index s k).
Proof.
  intros Hk. destruct (get_in_range s Hk) as [c Hc].
  apply str_index_Ok in Hc. rewrite Hc. apply Ok_safe.
Qed.

Lemma node_consistent_shrink (doms doms' : Domains) :
  node_consistent doms ->
  (forall v d', getitem doms' v = Ok d' ->
                exists d f, getitem doms v = Ok d /\ d' = filter f d) ->
  node_consistent doms'.
Proof.
  intros Hn Hs v d' Hd'. destruct (Hs _ _ Hd') as [d [f [Hd ->]]].
  destruct (Hn _ _ Hd) as [ND Hlen]. split.
  - apply NoDup_filter. exact ND.
  - intros w Hw. apply filter_In in Hw. apply Hlen. tauto.
Qed.

(** *** Node consistency *)

(** The inner loop of [enforce_node_consistency] on words of the current
    set: it raises nothing and leaves the words of the slot's length. *)
Lemma enforce_nodes_total (domain : Var) (dom : list word) :
  NoDup dom ->
  forall doms s,
    getitem doms domain = Ok s -> incl dom s ->
    exists doms',
      enforce_nodes domain dom doms = Ok doms'
      /\ getitem doms' domain
         = Ok (filter (fun w => negb (word_in w
                 (filter (fun n => negb (Nat.eqb (String.length n)
                                                 (var_length domain))) dom)))
                      s)
      /\ forall z, z <> domain -> getitem doms' z = getitem doms z.
Proof.
  induction dom as [|node dom IH]; simpl; intros ND doms s Hs Hincl.
  - exists doms. repeat split; auto. rewrite Hs. f_equal.
    clear. induction s as [|w s IHs]; simpl; congruence.
  - inversion ND as [|? ? Hnot ND']; subst.
    assert (Hin : In node s) by (apply Hincl; left; reflexivity).
    assert (Hrest : incl dom s) by (intros w Hw; apply Hincl; right; exact Hw).
    destruct (Nat.eqb (String.length node) (var_length domain)) eqn:El; simpl.
    + apply IH; auto.
    + rewrite Hs. simpl. unfold set_remove.
      apply word_in_In in Hin. rewrite Hin. simpl.
      set (s' := filter (fun w' => negb (String.eqb node w')) s).
      destruct (IH ND' (setitem doms domain s') s') as [doms' [H1 [H2 H3]]].
      * apply getitem_setitem_same.
      * intros w Hw. apply filter_In. split; [apply Hrest; exact Hw|].
        apply negb_true_iff, String.eqb_neq. intros ->. contradiction.
      * exists doms'. split; [exact H1|]. split.
        -- rewrite H2. f_equal. unfold s'. rewrite filter_filter.
           apply filter_ext. intros w. simpl.
           rewrite (String.eqb_sym w node), negb_orb. reflexivity.
        -- intros z Hz. rewrite H3 by exact Hz.
           apply getitem_setitem_other. exact Hz.
Qed.

Lemma enforce_nodes_full (domain : Var) (s : list word) (doms : Domains) :
  NoDup s -> getitem doms domain = Ok s ->
  exists doms',
    enforce_nodes domain s doms = Ok doms'
    /\ getitem doms' domain
       = Ok (filter (fun w => Nat.eqb (String.length w) (var_length domain)) s)
    /\ forall z, z <> domain -> getitem doms' z = getitem doms z.
Proof.
  intros ND Hs.
  destruct (enforce_nodes_total domain ND doms Hs (incl_refl s))
    as [doms' [H1 [H2 H3]]].
  exists doms'. split; [exact H1|]. split; [|exact H3].
  rewrite H2. f_equal. apply filter_ext_in. intros w Hw.
  destruct (Nat.eqb (String.length w) (var_length domain)) eqn:El.
  - apply negb_true_iff, word_in_false. intros Hin.
    apply filter_In in Hin. rewrite El in Hin. destruct Hin; discriminate.
  - apply negb_false_iff, word_in_In, filter_In. rewrite El. auto.
Qed.

(** The outer loop: the slots already visited hold words of their length
    only, and every domain is a set drawn from the one it started as. *)
Lemma enforce_loop_total (domains : list Var) :
  forall doms,
    incl domains (keys doms) ->
    (forall v d, getitem doms v = Ok d -> NoDup d) ->
    exists doms',
      enforce_loop domains doms = Ok doms'
      /\ (forall v d', getitem doms' v = Ok d' ->
            exists d f, getitem doms v = Ok d /\ d' = filter f d)
      /\ (forall v d', In v domains -> getitem doms' v = Ok d' ->
            forall w, In w d' -> String.length w = var_length v).
Proof.
  induction domains as [|domain rest IH]; simpl; intros doms Hincl HND.
  - exists doms. split; [reflexivity|]. split; [|tauto].
    intros v d' Hd'. exists d', (fun _ => true). split; [exact Hd'|].
    clear. induction d' as [|w d IHd]; simpl; congruence.
  - assert (Hk : In domain (keys doms)) by (apply Hincl; left; reflexivity).
    apply contains_In, contains_getitem in Hk. destruct Hk as [s Hs].
    rewrite Hs. simpl.
    destruct (enforce_nodes_full domain doms (HND _ _ Hs) Hs)
      as [doms1 [H1 [H2 H3]]].
    rewrite H1. simpl.
    assert (Hk1 : keys doms1 = keys doms)
      by (apply enforce_nodes_keys in H1; exact H1).
    assert (Hshrink1 : forall v d1, getitem doms1 v = Ok d1 ->
               exists d f, getitem doms v = Ok d /\ d1 = filter f d).
    { intros v d1 Hd1. case_var v domain.
      - subst v. rewrite H2 in Hd1. injection Hd1 as <-. eauto.
      - rewrite H3 in Hd1 by exact E. exists d1, (fun _ => true).
        split; [exact Hd1|].
        clear. induction d1 as [|w d IHd]; simpl; congruence. }
    destruct (IH doms1) as [doms' [Hrun [Hshrink Hlen]]].
    + rewrite Hk1. intros k Hk. apply Hincl. right. exact Hk.
    + intros v d1 Hd1. destruct (Hshrink1 _ _ Hd1) as [d [f [Hd ->]]].
      apply NoDup_filter. eapply HND. exact Hd.
    + exists doms'. split; [exact Hrun|]. split.
      * intros v d' Hd'. destruct (Hshrink _ _ Hd') as [d1 [f1 [Hd1 ->]]].
        destruct (Hshrink1 _ _ Hd1) as [d [f [Hd ->]]].
        exists d, (fun a => f a && f1 a). split; [exact Hd|].
        apply filter_filter.
      * intros v d' [<-|Hin] Hd' w Hw.
        -- destruct (Hshrink _ _ Hd') as [d1 [f1 [Hd1 ->]]].
           rewrite H2 in Hd1. injection Hd1 as <-.
           apply filter_In in Hw. destruct Hw as [Hw _].
           apply filter_In in Hw. destruct Hw as [_ Hw].
           apply Nat.eqb_eq. exact Hw.
        -- eapply Hlen; eauto.
Qed.

(** Node consistency on the initial store of a creator. *)
Lemma enforce_node_consistency_total (cw : Crossword) :
  NoDup (words cw) ->
  exists doms,
    enforce_node_consistency (init_domains cw) = Ok doms /\ store_ok cw doms.
Proof.
  intros ND.
  assert (Hinit : forall v d, getitem (init_domains cw) v = Ok d ->
                              d = words cw).
  { intros v d Hd. apply getitem_In in Hd. unfold init_domains in Hd.
    apply in_map_iff in Hd. destruct Hd as [v' [E _]]. congruence. }
  destruct (@enforce_loop_total (keys (init_domains cw)) (init_domains cw))
    as [doms [Hrun [Hshrink Hlen]]].
  - apply incl_refl.
  - intros v d Hd. rewrite (Hinit _ _ Hd). exact ND.
  - exists doms. split; [exact Hrun|].
    assert (Hk : keys doms = keys (init_domains cw))
      by (apply enforce_loop_keys in Hrun; exact Hrun).
    split; [rewrite Hk; apply keys_init_domains|].
    intros v d' Hd'. split.
    + destruct (Hshrink _ _ Hd') as [d [f [Hd ->]]].
      apply NoDup_filter. rewrite (Hinit _ _ Hd). exact ND.
    + apply Hlen with (v := v); [|exact Hd'].
      rewrite <- Hk. apply contains_In. eapply getitem_contains. exact Hd'.
Qed.

(** *** Revision and AC-3 *)

Section PropagationSafety.
Variable cw : Crossword.
Hypothesis Hwf : well_formed cw.

Lemma revise_total (x y : Var) (doms : Domains) :
  store_ok cw doms -> In x (variables cw) -> In y (variables cw) ->
  exists r, revise cw x y doms = Ok r.
Proof.
  intros [Hk Hn] Hx Hy. unfold revise.
  destruct (overlaps cw x y) as [[ox oy]|] eqn:Eo; [|eauto].
  destruct (wf_in_range Hwf _ _ Hx Hy Eo) as [Rx Ry].
  pose proof Hx as Hx'. pose proof Hy as Hy'.
  rewrite <- Hk in Hx', Hy'.
  apply contains_In, contains_getitem in Hx', Hy'.
  destruct Hx' as [dx Hdx]. destruct Hy' as [dy Hdy].
  rewrite Hdx, Hdy. simpl.
  destruct (Hn _ _ Hdx) as [ND Lx]. destruct (Hn _ _ Hdy) as [_ Ly].
  eapply revise_loop_total; eauto.
  - simpl. intros w Hw. rewrite (Lx _ Hw). exact Rx.
  - simpl. intros w Hw. rewrite (Ly _ Hw). exact Ry.
  - apply incl_refl.
Qed.

Lemma revise_store_ok (x y : Var) (doms doms' : Domains) (rev : bool) :
  store_ok cw doms -> revise cw x y doms = Ok (rev, doms') ->
  store_ok cw doms'.
Proof.
  intros [Hk Hn] H. apply revise_Ok in H. destruct H as [Hk' [Ho [_ Hov]]].
  split; [congruence|].
  apply node_consistent_shrink with (doms := doms); [exact Hn|].
  intros v d' Hd'.
  assert (Hid : forall d : list word, d = filter (fun _ => true) d).
  { clear. induction d as [|w d IHd]; simpl; congruence. }
  case_var v x.
  - subst v. destruct (overlaps cw x y) as [ov|].
    + destruct Hov as [dx [dy [Hdx [_ [_ Hf]]]]].
      rewrite Hf in Hd'. injection Hd' as <-. eauto.
    + destruct Hov as [_ ->]. eauto.
  - rewrite Ho in Hd' by exact E. eauto.
Qed.

Lemma ac3_loop_store_ok (fuel : nat) :
  forall arcs doms b doms',
    store_ok cw doms -> ac3_loop cw fuel arcs doms = Ok (b, doms') ->
    store_ok cw doms'.
Proof.
  induction fuel as [|fuel IH]; simpl; intros arcs doms b doms' Hs H;
    [discriminate|].
  destruct arcs as [|[var1 var2] arcs'].
  - injection H as _ <-. exact Hs.
  - bind_inv H as r Hr. destruct r as [revised doms1].
    eapply revise_store_ok in Hr; [|exact Hs].
    destruct revised.
    + bind_inv H as d Hd. destruct d.
      * injection H as _ <-. exact Hr.
      * eapply IH; eauto.
    + eapply IH; eauto.
Qed.

Lemma ac3_store_ok (arcs : option (list (Var * Var))) (doms doms' : Domains)
      (b : bool) :
  store_ok cw doms -> ac3 cw arcs doms = Ok (b, doms') -> store_ok cw doms'.
Proof. unfold ac3. apply ac3_loop_store_ok. Qed.

Lemma ac3_loop_safe (fuel : nat) :
  forall arcs doms,
    store_ok cw doms ->
    (forall x y, In (x, y) arcs ->
                 In x (variables cw) /\ In y (variables cw)) ->
    safe (ac3_loop cw fuel arcs doms).
Proof.
  induction fuel as [|fuel IH]; simpl; intros arcs doms Hs Harcs;
    [discriminate|].
  destruct arcs as [|[var1 var2] arcs']; [apply Ok_safe|].
  destruct (Harcs var1 var2 (or_introl eq_refl)) as [H1 H2].
  destruct (@revise_total var1 var2 doms Hs H1 H2) as [[revised doms1] Hr].
  rewrite Hr. simpl.
  pose proof (@revise_store_ok _ _ _ _ _ Hs Hr) as Hs1.
  assert (Hrest : forall x y, In (x, y) arcs' ->
                              In x (variables cw) /\ In y (variables cw)).
  { intros x y Hin. apply Harcs. right. exact Hin. }
  destruct revised; [|apply IH; assumption].
  apply bind_safe.
  - apply contains_getitem_safe. destruct Hs1 as [-> _]. exact H1.
  - intros d _. destruct d; [apply Ok_safe|].
    apply IH; [exact Hs1|].
    intros x y Hin. apply in_app_or in Hin. destruct Hin as [Hin|Hin];
      [apply Hrest; exact Hin|].
    apply In_requeue in Hin. destruct Hin as [-> [_ Hn]].
    apply neighbors_In in Hn. tauto.
Qed.

Lemma ac3_safe (arcs : option (list (Var * Var))) (doms : Domains) :
  store_ok cw doms ->
  (forall l x y, arcs = Some l -> In (x, y) l ->
                 In x (variables cw) /\ In y (variables cw)) ->
  safe (ac3 cw arcs doms).
Proof.
  intros Hs Harcs. unfold ac3. apply ac3_loop_safe; [exact Hs|].
  assert (Hall : forall x y, In (x, y) (all_arcs cw doms) ->
                             In x (variables cw) /\ In y (variables cw)).
  { intros x y Hin. apply In_all_arcs in Hin. destruct Hin as [Hx Hy].
    destruct Hs as [Hk _]. rewrite Hk in Hx. split; [exact Hx|].
    apply neighbors_In in Hy. tauto. }
  destruct arcs as [[|arc l]|]; try exact Hall.
  intros x y Hin. eapply Harcs; [reflexivity | exact Hin].
Qed.
End PropagationSafety.

(** *** The assignment check and the value heuristic *)

Section SearchSafety.
Variable cw : Crossword.
Hypothesis Hwf : well_formed cw.

Lemma neighbor_overlap_in_range (v n : Var) :
  In v (variables cw) -> In n (neighbors cw v) ->
  exists ox oy, overlaps cw v n = Some (ox, oy)
                /\ ox < var_length v /\ oy < var_length n.
Proof.
  intros Hv Hn.
  destruct (@neighbors_overlap cw v n (wf_symmetric Hwf) Hv Hn)
    as [[ox oy] Ho].
  assert (Hnv : In n (variables cw)) by (apply neighbors_In in Hn; tauto).
  destruct (wf_in_range Hwf _ _ Hv Hnv Ho). eauto.
Qed.

Lemma consistent_neighbors_safe (a : Assignment) (v : Var) (w : word)
      (ns : list Var) :
  fits a -> In v (variables cw) -> String.length w = var_length v ->
  incl ns (neighbors cw v) ->
  safe (consistent_neighbors cw a v w ns).
Proof.
  intros Hfits Hv Hw.
  induction ns as [|n ns IH]; simpl; intros Hincl; [apply Ok_safe|].
  assert (Hrest : incl ns (neighbors cw v))
    by (intros k Hk; apply Hincl; right; exact Hk).
  destruct (contains a n) eqn:Ec; [|apply IH; exact Hrest].
  apply contains_getitem in Ec. destruct Ec as [wn Hwn]. rewrite Hwn. simpl.
  destruct (@neighbor_overlap_in_range v n Hv (Hincl n (or_introl eq_refl)))
    as [ox [oy [Ho [Rx Ry]]]].
  rewrite Ho. simpl.
  apply getitem_In, Hfits in Hwn.
  apply bind_safe; [apply str_index_safe; lia|]. intros c1 _.
  apply bind_safe; [apply str_index_safe; lia|]. intros c2 _.
  destruct (negb (Ascii.eqb c1 c2)); [apply Ok_safe | apply IH; exact Hrest].
Qed.

Lemma consistent_items_safe (a : Assignment) (items : list (Var * word)) :
  fits a -> incl (map fst items) (variables cw) ->
  forall used, safe (consistent_items cw a items used).
Proof.
  intros Hfits.
  induction items as [|[v w] items IH]; simpl; intros Hincl used;
    [apply Ok_safe|].
  destruct (word_in w used); [apply Ok_safe|].
  destruct (Nat.eqb (String.length w) (var_length v)) eqn:El; simpl;
    [|apply Ok_safe].
  apply Nat.eqb_eq in El.
  apply bind_safe.
  - apply consistent_neighbors_safe; auto.
    + apply Hincl. left. reflexivity.
    + apply incl_refl.
  - intros ok _. destruct ok; [|apply Ok_safe].
    apply IH. intros k Hk. apply Hincl. right. exact Hk.
Qed.

(** [consistent] raises nothing on an assignment of words of the right
    lengths to slots of the model. *)
Lemma consistent_safe (a : Assignment) :
  fits a -> incl (keys a) (variables cw) -> safe (consistent cw a).
Proof. intros Hfits Hincl. apply consistent_items_safe; assumption. Qed.

Lemma count_conflicts_safe (ox oy : nat) (value : word) (a : Assignment)
      (dom : list word) :
  ox < String.length value ->
  (forall w, In w dom -> oy < String.length w) ->
  forall counter,
    safe (count_conflicts (Some (ox, oy)) value a dom counter).
Proof.
  intros Rx.
  induction dom as [|value2 rest IH]; simpl; intros Ry counter;
    [apply Ok_safe|].
  apply bind_safe; [apply str_index_safe; exact Rx|]. intros c1 _.
  apply bind_safe;
    [apply str_index_safe; apply Ry; left; reflexivity|]. intros c2 _.
  destruct (_ && _); apply IH; intros w Hw; apply Ry; right; exact Hw.
Qed.

Lemma count_neighbors_safe (var : Var) (value : word) (a : Assignment)
      (doms : Domains) (ns : list Var) :
  store_ok cw doms -> In var (variables cw) ->
  String.length value = var_length var ->
  incl ns (neighbors cw var) ->
  forall counter, safe (count_neighbors cw var value a doms ns counter).
Proof.
  intros [Hk Hn] Hv Hlen.
  induction ns as [|n ns IH]; simpl; intros Hincl counter; [apply Ok_safe|].
  assert (Hin : In n (neighbors cw var)) by (apply Hincl; left; reflexivity).
  destruct (@neighbor_overlap_in_range var n Hv Hin)
    as [ox [oy [Ho [Rx Ry]]]].
  assert (Hnk : In n (keys doms)).
  { rewrite Hk. apply neighbors_In in Hin. tauto. }
  apply contains_In, contains_getitem in Hnk. destruct Hnk as [d Hd].
  rewrite Hd, Ho. simpl.
  apply bind_safe.
  - apply count_conflicts_safe; [lia|].
    intros w Hw. destruct (Hn _ _ Hd) as [_ Hl]. rewrite (Hl _ Hw). exact Ry.
  - intros counter' _. apply IH. intros k Hk'. apply Hincl. right. exact Hk'.
Qed.

Lemma rank_values_safe (var : Var) (a : Assignment) (doms : Domains)
      (values : list word) :
  store_ok cw doms -> In var (variables cw) ->
  (forall w, In w values -> String.length w = var_length var) ->
  safe (rank_values cw var a doms values).
Proof.
  intros Hs Hv.
  induction values as [|value rest IH]; simpl; intros Hlen; [apply Ok_safe|].
  apply bind_safe.
  - apply count_neighbors_safe; auto. apply incl_refl.
  - intros counter _. apply bind_safe; [apply IH; auto|].
    intros ordered _. apply Ok_safe.
Qed.

Lemma rank_values_fst (var : Var) (a : Assignment) (doms : Domains)
      (values : list word) :
  forall ordered,
    rank_values cw var a doms values = Ok ordered ->
    map fst ordered = values.
Proof.
  induction values as [|value rest IH]; simpl; intros ordered H.
  - injection H as <-. reflexivity.
  - bind_inv H as counter Hc. bind_inv H as tl Ht. injection H as <-.
    simpl. f_equal. auto.
Qed.

(** The words [order_domain_values] returns are those of the domain. *)
Lemma order_domain_values_In (var : Var) (a : Assignment) (doms : Domains)
      (values : list word) :
  order_domain_values cw var a doms = Ok values ->
  exists d, getitem doms var = Ok d /\ forall w, In w values <-> In w d.
Proof.
  unfold order_domain_values. intros H.
  bind_inv H as d Hd. bind_inv H as ordered Hr. injection H as <-.
  exists d. split; [exact Hd|]. intros w.
  apply rank_values_fst in Hr. rewrite <- Hr. rewrite !in_map_iff.
  split; intros [p [E Hp]]; exists p; (split; [exact E|]).
  - exact (proj1 (In_sort_by snd Nat.leb p ordered) Hp).
  - exact (proj2 (In_sort_by snd Nat.leb p ordered) Hp).
Qed.

Lemma order_domain_values_safe (var : Var) (a : Assignment)
      (doms : Domains) :
  store_ok cw doms -> In var (variables cw) ->
  safe (order_domain_values cw var a doms).
Proof.
  intros Hs Hv. unfold order_domain_values.
  pose proof Hs as [Hk Hn].
  assert (Hvk : In var (keys doms)) by (rewrite Hk; exact Hv).
  apply contains_In, contains_getitem in Hvk. destruct Hvk as [d Hd].
  rewrite Hd. simpl.
  apply bind_safe.
  - apply rank_values_safe; auto. apply (Hn _ _ Hd).
  - intros ordered _. apply Ok_safe.
Qed.

(** *** The search *)

Lemma fits_setitem (a : Assignment) (v : Var) (w : word) :
  fits a -> String.length w = var_length v -> fits (setitem a v w).
Proof.
  intros Hfits Hw.
  induction a as [|[k0 w0] a IH]; simpl.
  - intros k w' [E|[]]. injection E as <- <-. exact Hw.
  - assert (Hrest : fits a) by (intros k w' Hin; apply (Hfits k w'); right; exact Hin).
    case_var k0 v.
    + subst k0. intros k w' [Heq|Hin].
      * injection Heq as <- <-. exact Hw.
      * apply Hrest. exact Hin.
    + intros k w' [Heq|Hin].
      * apply (Hfits k w'). left. exact Heq.
      * apply (IH Hrest). exact Hin.
Qed.

Lemma delitem_In {V : Type} (d d' : dict V) (k : Var) :
  delitem d k = Ok d' -> incl d' d.
Proof.
  revert d'. induction d as [|[k0 v0] d IH]; simpl; intros d' H;
    [discriminate|].
  destruct (Var_eqb k0 k).
  - injection H as <-. intros e He. right. exact He.
  - bind_inv H as d2 Hd. injection H as <-.
    intros e [<-|He]; [left; reflexivity | right; eapply IH; eauto].
Qed.

Lemma delitem_total {V : Type} (d : dict V) (k : Var) :
  contains d k = true -> exists d', delitem d k = Ok d'.
Proof.
  induction d as [|[k0 v0] d IH]; simpl; [discriminate|].
  destruct (Var_eqb k0 k); [eauto|].
  intros H. destruct (IH H) as [d' ->]. simpl. eauto.
Qed.

Section Loop.
Variable rec : Assignment -> Domains -> result outcome.
Hypothesis rec_safe :
  forall a doms, search_state cw a doms -> safe (rec a doms).
Hypothesis rec_state :
  forall a doms res a' doms',
    rec a doms = Ok (res, a', doms') -> search_state cw a doms ->
    search_state cw a' doms'.
Variable variable : Var.
Hypothesis variable_slot : In variable (variables cw).

Lemma backtrack_values_safe (values : list word) :
  (forall w, In w values -> String.length w = var_length variable) ->
  forall a doms,
    search_state cw a doms ->
    safe (backtrack_values cw rec variable values a doms)
    /\ forall res a' doms',
        backtrack_values cw rec variable values a doms = Ok (res, a', doms') ->
        search_state cw a' doms'.
Proof.
  induction values as [|value rest IH]; simpl; intros Hlen a doms Hst.
  - split; [apply Ok_safe|]. intros res a' doms' H.
    injection H as _ <- <-. exact Hst.
  - assert (Hrest : forall w, In w rest ->
                              String.length w = var_length variable)
      by (intros w Hw; apply Hlen; right; exact Hw).
    specialize (IH Hrest).
    destruct Hst as [Hs [Hok Hfits]].
    pose proof Hs as [Hk _].
    assert (Hvk : In variable (keys doms)) by (rewrite Hk; exact variable_slot).
    pose proof (@assignment_ok_setitem a doms variable value Hok Hvk) as Hok1.
    assert (Hfits1 : fits (setitem a variable value)).
    { apply fits_setitem; [exact Hfits|]. apply Hlen. left. reflexivity. }
    (* the state after the inference step, whatever it answers *)
    assert (Hac3 : forall inference doms1,
               ac3 cw (Some (map (fun var => (var, variable))
                                 (neighbors cw variable))) doms
               = Ok (inference, doms1) ->
               search_state cw (setitem a variable value) doms1).
    { intros inference doms1 H. split; [eapply ac3_store_ok; eauto|].
      split; [|exact Hfits1].
      apply ac3_keys in H.
      apply (@assignment_ok_keys _ doms doms1 H Hok1). }
    split.
    + apply bind_safe.
      { apply consistent_safe; [exact Hfits1|].
        rewrite <- Hk. apply Hok1. }
      intros ok _. destruct ok.
      * apply bind_safe.
        { apply ac3_safe; [exact Hwf | exact Hs |].
          intros l x y E Hin. injection E as <-.
          apply in_map_iff in Hin. destruct Hin as [n [E Hn]].
          injection E as <- <-. split; [|exact variable_slot].
          apply neighbors_In in Hn. tauto. }
        intros [inference doms1] H1. pose proof (Hac3 _ _ H1) as Hst1.
        destruct inference; [|apply IH; exact Hst1].
        apply bind_safe; [apply rec_safe; exact Hst1|].
        intros [[result a2] doms2] H2.
        destruct result; [apply Ok_safe|].
        apply IH. eapply rec_state; eauto.
      * destruct (@delitem_total _ (setitem a variable value) variable)
          as [a2 Hdel].
        { rewrite contains_setitem, Var_eqb_refl. reflexivity. }
        rewrite Hdel. simpl. apply IH.
        split; [exact Hs|]. split.
        -- eapply assignment_ok_delitem; eauto.
        -- intros k w Hin. apply (Hfits1 k w).
           eapply delitem_In; eauto.
    + intros res a' doms' H.
      bind_inv H as ok Hc. destruct ok.
      * bind_inv H as r1 H1. destruct r1 as [inference doms1].
        pose proof (Hac3 _ _ H1) as Hst1.
        destruct inference; [|eapply IH; eauto].
        bind_inv H as o H2. destruct o as [[result a2] doms2].
        pose proof (rec_state H2 Hst1) as Hst2.
        destruct result.
        -- injection H as _ <- <-. exact Hst2.
        -- eapply IH; eauto.
      * bind_inv H as a2 Hdel. eapply IH; [|exact H].
        split; [exact Hs|]. split.
        -- eapply assignment_ok_delitem; eauto.
        -- intros k w Hin. apply (Hfits1 k w).
           eapply delitem_In; eauto.
Qed.
End Loop.

Lemma backtrack_safe (fuel : nat) :
  forall a doms,
    search_state cw a doms ->
    safe (backtrack cw fuel a doms)
    /\ forall res a' doms',
        backtrack cw fuel a doms = Ok (res, a', doms') ->
        search_state cw a' doms'.
Proof.
  induction fuel as [|fuel IH]; simpl; intros a doms Hst.
  - split; discriminate.
  - destruct (assignment_complete a doms).
    { split; [apply Ok_safe|]. intros res a' doms' H.
      injection H as _ <- <-. exact Hst. }
    destruct (select_unassigned_variable_total cw a doms) as [sel Hsel].
    rewrite Hsel. simpl. destruct sel as [variable|].
    + apply select_unassigned_variable_Some in Hsel.
      destruct Hsel as [Hvk _].
      pose proof Hst as [Hs _]. pose proof Hs as [Hk Hn].
      assert (Hv : In variable (variables cw)) by (rewrite <- Hk; exact Hvk).
      destruct (@safe_terminates_Ok _ (order_domain_values cw variable a doms))
        as [values Hvalues].
      { apply order_domain_values_safe; assumption. }
      { apply order_domain_values_terminates. }
      rewrite Hvalues. simpl.
      apply backtrack_values_safe; auto.
      * intros a1 doms1 Hst1. apply (IH a1 doms1 Hst1).
      * intros a1 doms1 res a' doms' H Hst1.
        apply (proj2 (IH a1 doms1 Hst1) _ _ _ H).
      * intros w Hw. apply order_domain_values_In in Hvalues.
        destruct Hvalues as [d [Hd Hiff]].
        apply (Hn _ _ Hd). apply Hiff. exact Hw.
    + split; [apply Ok_safe|]. intros res a' doms' H.
      injection H as _ <- <-. exact Hst.
Qed.
End SearchSafety.

(** On a well-formed model [solve] raises nothing and comes to an end. *)
Lemma solve_total (cw : Crossword) :
  well_formed cw -> exists r, solve cw = Ok r.
Proof.
  intros Hwf. apply safe_terminates_Ok; [|apply solve_terminates].
  unfold solve, solve_outcome.
  destruct (enforce_node_consistency_total cw (wf_words Hwf))
    as [doms1 [H1 Hs1]].
  rewrite H1. cbn [bind].
  destruct (@safe_terminates_Ok _ (ac3 cw None doms1)) as [[b doms2] H2].
  { apply ac3_safe; [exact Hwf | exact Hs1 | discriminate]. }
  { apply ac3_terminates. }
  rewrite H2. cbn [bind].
  assert (Hst : search_state cw [] doms2).
  { split; [eapply ac3_store_ok; eauto|].
    split; [split; [constructor | intros k []]|].
    intros v w []. }
  apply bind_safe.
  - apply backtrack_safe; assumption.
  - intros [[res a] doms] _. apply Ok_safe.
Qed.

(** X24. Total correctness of what [solve] answers on a well-formed
    model: it raises nothing and returns [None] or a complete consistent
    assignment. *)
Lemma solve_answers (cw : Crossword) :
  well_formed cw ->
  solve cw = Ok None \/ exists a, solve cw = Ok (Some a) /\ solution cw a.
Proof.
  intros Hwf. destruct (solve_total Hwf) as [[a|] H].
  - right. exists a. split; [exact H|].
    unfold solve in H. bind_inv H as o Ho. destruct o as [[res a'] doms'].
    injection H as ->. eapply solve_outcome_solution. exact Ho.
  - left. exact H.
Qed.

(** ** The value heuristic: what it sorts by *)

Section SortedFacts.
Variables (A K : Type) (key : A -> K) (leb : K -> K -> bool).
Hypothesis leb_total : forall a b, leb a b = false -> leb b a = true.
Hypothesis leb_trans :
  forall a b c, leb a b = true -> leb b c = true -> leb a c = true.

Lemma sort_by_Permutation (l : list A) : Permutation (sort_by key leb l) l.
Proof.
  induction l as [|x l IH]; simpl; [constructor|].
  transitivity (x :: sort_by key leb l); [|constructor; exact IH].
  generalize (sort_by key leb l) as s. clear IH.
  induction s as [|y s IHs]; simpl; [reflexivity|].
  destruct (leb (key x) (key y)); [reflexivity|].
  transitivity (y :: x :: s); [constructor; exact IHs | constructor].
Qed.

Lemma insert_sorted_StronglySorted (x : A) (l : list A) :
  StronglySorted (fun a b => leb (key a) (key b) = true) l ->
  StronglySorted (fun a b => leb (key a) (key b) = true)
                 (insert_sorted key leb x l).
Proof.
  induction l as [|y l IH]; simpl; intros Hs.
  - repeat constructor.
  - inversion Hs as [|? ? Hl Hall]; subst.
    destruct (leb (key x) (key y)) eqn:E.
    + constructor; [exact Hs|]. constructor; [exact E|].
      rewrite Forall_forall in *. intros z Hz.
      eapply leb_trans; [exact E | apply Hall; exact Hz].
    + constructor; [apply IH; exact Hl|].
      rewrite Forall_forall in *. intros z Hz.
      apply In_insert_sorted in Hz. destruct Hz as [->|Hz].
      * apply leb_total. exact E.
      * apply Hall. exact Hz.
Qed.

Lemma sort_by_StronglySorted (l : list A) :
  StronglySorted (fun a b => leb (key a) (key b) = true) (sort_by key leb l).
Proof.
  induction l as [|x l IH]; simpl; [constructor|].
  apply insert_sorted_StronglySorted. exact IH.
Qed.
End SortedFacts.

Lemma StronglySorted_weaken {A : Type} (R R' : A -> A -> Prop) (l : list A) :
  (forall x y, R x y -> R' x y) -> StronglySorted R l -> StronglySorted R' l.
Proof.
  intros HR. induction 1 as [|x l Hs IH Hall]; constructor; auto.
  rewrite Forall_forall in *. auto.
Qed.

Lemma word_in_keys_false (value2 : word) (a : Assignment) :
  word_in_keys value2 a = false.
Proof.
  unfold word_in_keys. induction (keys a) as [|k l IH]; simpl; auto.
Qed.

Lemma count_conflicts_ignores_assignment (intersection : option (nat * nat))
      (value : word) (a a' : Assignment) (dom : list word) :
  forall counter,
    count_conflicts intersection value a dom counter
    = count_conflicts intersection value a' dom counter.
Proof.
  induction dom as [|value2 rest IH]; simpl; intros counter; [reflexivity|].
  destruct intersection as [ov|]; [|reflexivity].
  destruct (str_index value (fst ov)) as [c1| |]; simpl; try reflexivity.
  destruct (str_index value2 (snd ov)) as [c2| |]; simpl; try reflexivity.
  rewrite !word_in_keys_false. simpl. destruct (negb _ && true); apply IH.
Qed.

Lemma count_neighbors_ignores_assignment (cw : Crossword) (var : Var)
      (value : word) (a a' : Assignment) (doms : Domains) (ns : list Var) :
  forall counter,
    count_neighbors cw var value a doms ns counter
    = count_neighbors cw var value a' doms ns counter.
Proof.
  induction ns as [|n ns IH]; simpl; intros counter; [reflexivity|].
  destruct (getitem doms n) as [d| |]; simpl; try reflexivity.
  rewrite (count_conflicts_ignores_assignment _ _ a a').
  destruct (count_conflicts _ _ a' d counter); simpl; auto.
Qed.

Lemma rank_values_ignores_assignment (cw : Crossword) (var : Var)
      (a a' : Assignment) (doms : Domains) (values : list word) :
  rank_values cw var a doms values = rank_values cw var a' doms values.
Proof.
  induction values as [|value rest IH]; simpl; [reflexivity|].
  rewrite (count_neighbors_ignores_assignment _ _ _ a a'), IH. reflexivity.
Qed.

(** X23. The order [order_domain_values] returns does not depend on the
    assignment at all: the guard on [assignment.keys()] never fires. *)
Lemma order_domain_values_ignores_assignment (cw : Crossword) (var : Var)
      (a a' : Assignment) (doms : Domains) :
  order_domain_values cw var a doms = order_domain_values cw var a' doms.
Proof.
  unfold order_domain_values.
  destruct (getitem doms var) as [d| |]; simpl; try reflexivity.
  rewrite (rank_values_ignores_assignment _ _ a a'). reflexivity.
Qed.

(** What [order_domain_values] does return: the words of the domain,
    sorted ascending by the counter the code computes for each. *)
Lemma order_domain_values_sorted (cw : Crossword) (var : Var)
      (a : Assignment) (doms : Domains) (values : list word) :
  order_domain_values cw var a doms = Ok values ->
  exists d ranked,
    getitem doms var = Ok d
    /\ rank_values cw var a doms d = Ok ranked
    /\ map fst ranked = d
    /\ values = map fst (sort_by snd Nat.leb ranked)
    /\ Permutation values d
    /\ StronglySorted (fun p q => snd p <= snd q)
                      (sort_by snd Nat.leb ranked).
Proof.
  unfold order_domain_values. intros H.
  bind_inv H as d Hd. bind_inv H as ranked Hr. injection H as <-.
  exists d, ranked. pose proof (rank_values_fst _ _ _ _ _ Hr) as Hfst.
  repeat split; auto.
  - rewrite <- Hfst. apply Permutation_map. apply sort_by_Permutation.
  - eapply StronglySorted_weaken; [| apply sort_by_StronglySorted ].
    + intros p q Hle. apply Nat.leb_le. exact Hle.
    + intros x y Hf. apply Nat.leb_gt in Hf. apply Nat.leb_le. lia.
    + intros x y z H1 H2. apply Nat.leb_le in H1, H2. apply Nat.leb_le. lia.
Qed.

(** ** The sample puzzles are well-formed *)

(** Decides the three conditions of [well_formed] on an explicit puzzle. *)
Ltac solve_well_formed :=
  split;
  [ simpl; repeat (constructor; [simpl; intuition discriminate|]); constructor
  | intros x y ox oy Hx Hy; simpl in Hx, Hy;
    repeat (destruct Hx as [<-|Hx]); try contradiction;
    repeat (destruct Hy as [<-|Hy]); try contradiction;
    vm_compute; intros H; try discriminate; injection H as <- <-; reflexivity
  | intros x y ox oy Hx Hy; simpl in Hx, Hy;
    repeat (destruct Hx as [<-|Hx]); try contradiction;
    repeat (destruct Hy as [<-|Hy]); try contradiction;
    vm_compute; intros H; try discriminate; injection H as <- <-;
    split; repeat constructor ].

Lemma comb_well_formed : well_formed Samples.comb.
Proof. solve_well_formed. Qed.

Lemma rows_well_formed : well_formed Samples.rows.
Proof. solve_well_formed. Qed.

Lemma corner_well_formed : well_formed Samples.corner.
Proof. solve_well_formed. Qed.

Lemma fork_well_formed : well_formed Samples.fork.
Proof. solve_well_formed. Qed.

Lemma hook_well_formed : well_formed Samples.hook.
Proof. solve_well_formed. Qed.

Lemma fork_store_ok : store_ok Samples.fork Samples.fork_domains.
Proof.
  pose proof fork_domains_reached as H.
  destruct (enforce_node_consistency_total Samples.fork
              (wf_words fork_well_formed)) as [doms1 [H1 Hs1]].
  rewrite H1 in H. cbn [bind] in H.
  eapply ac3_store_ok; eauto.
Qed.

(** * Further properties of the code *)

(** ** Node consistency, exactly *)

Lemma filter_true {A : Type} (l : list A) : filter (fun _ => true) l = l.
Proof. induction l as [|a l IH]; simpl; congruence. Qed.

Lemma filter_idempotent {A : Type} (f : A -> bool) (l : list A) :
  filter f (filter f l) = filter f l.
Proof.
  rewrite filter_filter. apply filter_ext. intros a. destruct (f a); reflexivity.
Qed.

Lemma In_keys_existsb (v : Var) (l : list Var) :
  In v l -> existsb (Var_eqb v) l = true.
Proof.
  intros H. apply existsb_exists. exists v. split; [exact H|].
  apply Var_eqb_refl.
Qed.

(** The outer loop of [enforce_node_consistency]: the slots it visits keep
    the words of their length, the others keep everything. *)
Lemma enforce_loop_exact (domains : list Var) :
  forall doms,
    incl domains (keys doms) ->
    (forall v d, getitem doms v = Ok d -> NoDup d) ->
    exists doms',
      enforce_loop domains doms = Ok doms'
      /\ forall v d, getitem doms v = Ok d ->
           getitem doms' v
           = Ok (if existsb (Var_eqb v) domains
                 then filter (fun w => Nat.eqb (String.length w) (var_length v))
                             d
                 else d).
Proof.
  induction domains as [|domain rest IH]; simpl; intros doms Hincl HND.
  - exists doms. split; [reflexivity|]. intros v d Hd. exact Hd.
  - assert (Hk : In domain (keys doms)) by (apply Hincl; left; reflexivity).
    apply contains_In, contains_getitem in Hk. destruct Hk as [s Hs].
    rewrite Hs. cbn [bind].
    destruct (enforce_nodes_full domain doms (HND _ _ Hs) Hs)
      as [doms1 [H1 [H2 H3]]].
    rewrite H1. cbn [bind].
    assert (Hk1 : keys doms1 = keys doms)
      by (apply enforce_nodes_keys in H1; exact H1).
    destruct (IH doms1) as [doms' [Hrun Hget]].
    + rewrite Hk1. intros k Hk. apply Hincl. right. exact Hk.
    + intros v d1 Hd1. case_var v domain.
      * subst v. rewrite H2 in Hd1. injection Hd1 as <-.
        apply NoDup_filter. eapply HND. exact Hs.
      * rewrite H3 in Hd1 by exact E. eapply HND. exact Hd1.
    + exists doms'. split; [exact Hrun|]. intros v d Hd.
      case_var v domain.
      * subst v. rewrite Hs in Hd. injection Hd as <-.
        rewrite (Hget _ _ H2). simpl.
        destruct (existsb (Var_eqb domain) rest);
          [rewrite filter_idempotent|]; reflexivity.
      * assert (Hd1 : getitem doms1 v = Ok d) by (rewrite H3; assumption).
        rewrite (Hget _ _ Hd1). reflexivity.
Qed.

Lemma enforce_nodes_fixed (domain : Var) (dom : list word) (doms : Domains) :
  (forall w, In w dom -> String.length w = var_length domain) ->
  enforce_nodes domain dom doms = Ok doms.
Proof.
  induction dom as [|node dom IH]; simpl; intros H; [reflexivity|].
  rewrite (H node (or_introl eq_refl)), Nat.eqb_refl. simpl.
  apply IH. intros w Hw. apply H. right. exact Hw.
Qed.

Lemma enforce_loop_fixed (domains : list Var) (doms : Domains) :
  incl domains (keys doms) ->
  (forall v d w, getitem doms v = Ok d -> In w d ->
                 String.length w = var_length v) ->
  enforce_loop domains doms = Ok doms.
Proof.
  induction domains as [|domain rest IH]; simpl; intros Hincl Hlen;
    [reflexivity|].
  assert (Hk : In domain (keys doms)) by (apply Hincl; left; reflexivity).
  apply contains_In, contains_getitem in Hk. destruct Hk as [s Hs].
  rewrite Hs. cbn [bind].
  rewrite enforce_nodes_fixed by (intros w Hw; eapply Hlen; eauto).
  cbn [bind]. apply IH; [|exact Hlen].
  intros k Hk. apply Hincl. right. exact Hk.
Qed.

Lemma init_domains_getitem (cw : Crossword) (v : Var) (d : list word) :
  getitem (init_domains cw) v = Ok d -> d = words cw.
Proof.
  intros Hd. apply getitem_In in Hd. unfold init_domains in Hd.
  apply in_map_iff in Hd. destruct Hd as [v' [E _]]. congruence.
Qed.

(** X1. On a store whose domains are sets, [enforce_node_consistency]
    raises nothing, keeps the slots, and leaves in each domain exactly the
    words whose length is the slot's, in their order. *)
Theorem enforce_node_consistency_exact (doms : Domains) :
  (forall v d, getitem doms v = Ok d -> NoDup d) ->
  exists doms',
    enforce_node_consistency doms = Ok doms'
    /\ keys doms' = keys doms
    /\ forall v d, getitem doms v = Ok d ->
         getitem doms' v
         = Ok (filter (fun w => Nat.eqb (String.length w) (var_length v)) d).
Proof.
  intros HND. unfold enforce_node_consistency.
  destruct (@enforce_loop_exact (keys doms) doms (incl_refl _) HND)
    as [doms' [Hrun Hget]].
  exists doms'. split; [exact Hrun|]. split.
  - apply enforce_loop_keys in Hrun. exact Hrun.
  - intros v d Hd. rewrite (Hget _ _ Hd).
    rewrite In_keys_existsb; [reflexivity|].
    apply contains_In. eapply getitem_contains. exact Hd.
Qed.

Lemma enforce_node_consistency_exact_witness :
  exists doms',
    enforce_node_consistency (init_domains Samples.fork) = Ok doms'
    /\ keys doms' = keys (init_domains Samples.fork)
    /\ getitem doms' Samples.H = Ok ["AB"; "CD"]%string.
Proof.
  destruct (@enforce_node_consistency_exact (init_domains Samples.fork))
    as [doms' [H1 [H2 H3]]].
  - intros v d Hd. rewrite (init_domains_getitem _ _ Hd).
    apply (wf_words fork_well_formed).
  - exists doms'. split; [exact H1|]. split; [exact H2|].
    apply (H3 Samples.H (words Samples.fork)). reflexivity.
Defined.

(** X2. Node consistency is idempotent: once it has run, a second run
    changes nothing (the store is returned as it is). *)
Theorem enforce_node_consistency_idempotent (doms doms' : Domains) :
  (forall v d, getitem doms v = Ok d -> NoDup d) ->
  enforce_node_consistency doms = Ok doms' ->
  enforce_node_consistency doms' = Ok doms'.
Proof.
  intros HND Hrun.
  destruct (@enforce_loop_exact (keys doms) doms (incl_refl _) HND)
    as [doms1 [Hrun1 Hget]].
  unfold enforce_node_consistency in Hrun. rewrite Hrun in Hrun1.
  injection Hrun1 as <-.
  assert (Hk : keys doms' = keys doms)
    by (apply enforce_loop_keys in Hrun; exact Hrun).
  apply enforce_loop_fixed; [apply incl_refl|].
  intros v d' w Hd' Hw.
  assert (Hv : In v (keys doms)).
  { rewrite <- Hk. apply contains_In. eapply getitem_contains. exact Hd'. }
  pose proof Hv as Hc. apply contains_In, contains_getitem in Hc.
  destruct Hc as [d Hd]. rewrite (Hget _ _ Hd) in Hd'.
  rewrite (In_keys_existsb _ _ Hv) in Hd'. injection Hd' as <-.
  apply filter_In in Hw. apply Nat.eqb_eq. tauto.
Qed.

Lemma enforce_node_consistency_idempotent_witness :
  enforce_node_consistency
    [(Samples.H, ["AB"; "CD"]%string);
     (Samples.V3, ["AAA"; "ABB"; "ACC"; "CAA"]%string);
     (Samples.V4, ["DAAA"; "DBBB"; "BAAA"]%string)]
  = Ok [(Samples.H, ["AB"; "CD"]%string);
        (Samples.V3, ["AAA"; "ABB"; "ACC"; "CAA"]%string);
        (Samples.V4, ["DAAA"; "DBBB"; "BAAA"]%string)].
Proof.
  apply (@enforce_node_consistency_idempotent (init_domains Samples.fork)).
  - intros v d Hd. rewrite (init_domains_getitem _ _ Hd).
    apply (wf_words fork_well_formed).
  - vm_compute. reflexivity.
Defined.

(** ** Propagation only removes words, and never a word of a solution *)

Lemma shrinks_refl (doms : Domains) : shrinks doms doms.
Proof.
  split; [reflexivity|]. intros v d Hd. exists d, (fun _ => true).
  split; [exact Hd | symmetry; apply filter_true].
Qed.

Lemma shrinks_trans (doms doms1 doms2 : Domains) :
  shrinks doms doms1 -> shrinks doms1 doms2 -> shrinks doms doms2.
Proof.
  intros [Hk1 H1] [Hk2 H2]. split; [congruence|].
  intros v d2 Hd2. destruct (H2 _ _ Hd2) as [d1 [f1 [Hd1 ->]]].
  destruct (H1 _ _ Hd1) as [d [f [Hd ->]]].
  exists d, (fun w => f w && f1 w). split; [exact Hd|]. apply filter_filter.
Qed.

Lemma revise_shrinks (cw : Crossword) (x y : Var) (doms doms' : Domains)
      (rev : bool) :
  revise cw x y doms = Ok (rev, doms') -> shrinks doms doms'.
Proof.
  intros H. apply revise_Ok in H. destruct H as [Hk [Ho [_ Hov]]].
  split; [exact Hk|]. intros v d' Hd'. case_var v x.
  - subst v. destruct (overlaps cw x y) as [ov|].
    + destruct Hov as [dx [dy [Hdx [_ [_ Hf]]]]].
      rewrite Hf in Hd'. injection Hd' as <-. eauto.
    + destruct Hov as [_ ->]. apply (proj2 (shrinks_refl doms)). exact Hd'.
  - rewrite Ho in Hd' by exact E. apply (proj2 (shrinks_refl doms)).
    exact Hd'.
Qed.

Lemma ac3_loop_shrinks (cw : Crossword) (fuel : nat) :
  forall arcs doms b doms',
    ac3_loop cw fuel arcs doms = Ok (b, doms') -> shrinks doms doms'.
Proof.
  induction fuel as [|fuel IH]; simpl; intros arcs doms b doms' H;
    [discriminate|].
  destruct arcs as [|[var1 var2] arcs'].
  - injection H as _ <-. apply shrinks_refl.
  - bind_inv H as r Hr. destruct r as [revised doms1].
    apply revise_shrinks in Hr. destruct revised.
    + bind_inv H as d Hd. destruct d.
      * injection H as _ <-. exact Hr.
      * apply IH in H. eapply shrinks_trans; eauto.
    + apply IH in H. eapply shrinks_trans; eauto.
Qed.

(** X3. Whatever the seed, a run of [ac3] that returns leaves the same
    slots in the store, and each domain is what a filter leaves of the
    domain it was: no word is added, moved or duplicated. *)
Theorem ac3_only_removes (cw : Crossword)
        (arcs : option (list (Var * Var))) (doms doms' : Domains) (b : bool) :
  ac3 cw arcs doms = Ok (b, doms') ->
  keys doms' = keys doms
  /\ forall v d', getitem doms' v = Ok d' ->
       exists d f, getitem doms v = Ok d /\ d' = filter f d
                   /\ incl d' d /\ List.length d' <= List.length d.
Proof.
  intros H. unfold ac3 in H. apply ac3_loop_shrinks in H.
  destruct H as [Hk Hs]. split; [exact Hk|].
  intros v d' Hd'. destruct (Hs _ _ Hd') as [d [f [Hd ->]]].
  exists d, f. repeat split; auto.
  - intros w Hw. apply filter_In in Hw. tauto.
  - apply filter_length_le.
Qed.

Lemma ac3_only_removes_witness :
  keys [(Samples.X, ["AB"%string]); (Samples.Y, ["AC"%string])]
  = keys Samples.corner_domains
  /\ forall v d',
      getitem [(Samples.X, ["AB"%string]); (Samples.Y, ["AC"%string])] v
      = Ok d' ->
      exists d f, getitem Samples.corner_domains v = Ok d /\ d' = filter f d
                  /\ incl d' d /\ List.length d' <= List.length d.
Proof.
  apply (@ac3_only_removes Samples.corner None Samples.corner_domains _ true).
  reflexivity.
Defined.

Section KeepsSolutions.
Variables (cw : Crossword) (a : Assignment).
Hypothesis a_compatible :
  forall x y wx wy ov,
    In (x, wx) a -> In (y, wy) a -> overlaps cw x y = Some ov ->
    compatible ov wx wy = true.

Lemma In_keys_entry (v : Var) :
  In v (keys a) -> exists w, In (v, w) a.
Proof.
  intros H. apply in_map_iff in H. destruct H as [[v' w] [E Hin]].
  simpl in E. subst v'. eauto.
Qed.

Lemma revise_keeps (x y : Var) (doms doms1 : Domains) (rev : bool) :
  (forall v, In v (keys doms) -> In v (keys a)) ->
  inhabits a doms ->
  revise cw x y doms = Ok (rev, doms1) ->
  inhabits a doms1.
Proof.
  intros Hcover Hin H. apply revise_Ok in H.
  destruct H as [_ [Ho [_ Hov]]]. intros v w Hvw.
  destruct (Hin _ _ Hvw) as [d [Hd Hw]].
  case_var v x; [subst v | exists d; rewrite Ho by exact E; auto].
  destruct (overlaps cw x y) as [ov|] eqn:Eo.
  - destruct Hov as [dx [dy [Hdx [Hdy [_ Hf]]]]].
    rewrite Hd in Hdx. injection Hdx as <-.
    exists (filter (supported ov dy) d). split; [exact Hf|].
    apply filter_In. split; [exact Hw|].
    assert (Hy : In y (keys a)).
    { apply Hcover, contains_In. eapply getitem_contains. exact Hdy. }
    destruct (In_keys_entry y Hy) as [wy Hywy].
    destruct (Hin _ _ Hywy) as [dy' [Hdy' Hwy]].
    rewrite Hdy in Hdy'. injection Hdy' as <-.
    apply supported_iff. exists wy. split; [exact Hwy|].
    eapply a_compatible; eauto.
  - destruct Hov as [_ ->]. eauto.
Qed.

Lemma ac3_loop_keeps (fuel : nat) :
  forall arcs doms b doms',
    (forall v, In v (keys doms) -> In v (keys a)) ->
    inhabits a doms ->
    ac3_loop cw fuel arcs doms = Ok (b, doms') ->
    b = true /\ inhabits a doms'.
Proof.
  induction fuel as [|fuel IH]; simpl; intros arcs doms b doms' Hcover Hin H;
    [discriminate|].
  destruct arcs as [|[var1 var2] arcs'].
  - injection H as <- <-. auto.
  - bind_inv H as r Hr. destruct r as [revised doms1].
    pose proof Hr as Hin1.
    eapply revise_keeps in Hin1; [|exact Hcover|exact Hin].
    assert (Hcover1 : forall v, In v (keys doms1) -> In v (keys a)).
    { apply revise_Ok in Hr. destruct Hr as [Hk _]. rewrite Hk. exact Hcover. }
    destruct revised; [|eapply IH; eauto].
    bind_inv H as d Hd. destruct d as [|w d]; [|eapply IH; eauto].
    exfalso.
    assert (Hv : In var1 (keys a)).
    { apply Hcover1, contains_In. eapply getitem_contains. exact Hd. }
    destruct (In_keys_entry var1 Hv) as [w Hw].
    destruct (Hin1 _ _ Hw) as [d' [Hd' Hw']].
    rewrite Hd in Hd'. injection Hd' as <-. destruct Hw'.
Qed.
End KeepsSolutions.

(** X4. If an assignment gives every slot of the store a word of its
    domain, and its words agree wherever two slots overlap, then [ac3], on
    any seed, cannot report failure and leaves every one of these words in
    its domain: propagation never prunes a solution. *)
Theorem ac3_keeps_solutions (cw : Crossword) (a : Assignment)
        (arcs : option (list (Var * Var))) (doms doms' : Domains) (b : bool) :
  (forall v, In v (keys doms) -> In v (keys a)) ->
  (forall x y wx wy ov,
      In (x, wx) a -> In (y, wy) a -> overlaps cw x y = Some ov ->
      compatible ov wx wy = true) ->
  inhabits a doms ->
  ac3 cw arcs doms = Ok (b, doms') ->
  b = true /\ inhabits a doms'.
Proof.
  intros Hcover Hcomp Hin H. unfold ac3 in H.
  eapply ac3_loop_keeps; eauto.
Qed.

Lemma ac3_keeps_solutions_witness :
  true = true
  /\ inhabits [(Samples.X, "AB"%string); (Samples.Y, "AC"%string)]
              [(Samples.X, ["AB"%string]); (Samples.Y, ["AC"%string])].
Proof.
  apply (@ac3_keeps_solutions Samples.corner
           [(Samples.X, "AB"%string); (Samples.Y, "AC"%string)]
           (Some [(Samples.Y, Samples.X)]) Samples.corner_domains).
  - intros v Hv. exact Hv.
  - intros x y wx wy ov Hx Hy. simpl in Hx, Hy.
    destruct Hx as [Hx|[Hx|[]]]; injection Hx as <- <-;
      destruct Hy as [Hy|[Hy|[]]]; injection Hy as <- <-;
      vm_compute; intros H; try discriminate; injection H as <-; reflexivity.
  - intros v w Hvw. simpl in Hvw.
    destruct Hvw as [Hvw|[Hvw|[]]]; injection Hvw as <- <-;
      eexists; (split; [reflexivity|]); simpl; auto.
  - reflexivity.
Defined.

Lemma solution_pairwise_compatible (cw : Crossword) (a : Assignment) :
  symmetric_overlaps cw ->
  (forall x, In x (variables cw) -> overlaps cw x x = None) ->
  solution cw a ->
  forall x y wx wy ov,
    In (x, wx) a -> In (y, wy) a -> overlaps cw x y = Some ov ->
    compatible ov wx wy = true.
Proof.
  intros Hsym Hirr Hsol x y wx wy ov Hx Hy Ho.
  assert (Hxv : In x (variables cw)).
  { apply (sol_slots Hsol). apply (in_map fst) in Hx. exact Hx. }
  assert (Hyv : In y (variables cw)).
  { apply (sol_slots Hsol). apply (in_map fst) in Hy. exact Hy. }
  assert (Hne : y <> x).
  { intros ->. rewrite (Hirr _ Hxv) in Ho. discriminate. }
  assert (Hn : In y (neighbors cw x)).
  { apply neighbors_In. repeat split; auto.
    destruct ov as [ox oy]. rewrite (Hsym _ _ _ _ Hxv Hyv Ho). discriminate. }
  destruct (vf_agree (sol_consistent Hsol) _ _ _ _ Hx Hy Hn) as [ov' [Ho' Hc]].
  rewrite Ho in Ho'. injection Ho' as <-. exact Hc.
Qed.

Lemma grid_overlaps_irreflexive (x : Var) : grid_overlaps x x = None.
Proof. unfold grid_overlaps. rewrite Var_eqb_refl. reflexivity. Qed.

(** X5. The two propagation steps of [solve] keep every solution: after
    node consistency and a full run of [ac3] from the initial store, every
    complete consistent assignment over the vocabulary still has each of
    its words in the domain of its slot, and [ac3] has answered [True]. *)
Theorem propagation_keeps_solutions (cw : Crossword) (a : Assignment)
        (doms1 doms2 : Domains) (b : bool) :
  NoDup (words cw) ->
  symmetric_overlaps cw ->
  (forall x, In x (variables cw) -> overlaps cw x x = None) ->
  solution cw a -> incl (map snd a) (words cw) ->
  enforce_node_consistency (init_domains cw) = Ok doms1 ->
  ac3 cw None doms1 = Ok (b, doms2) ->
  b = true /\ inhabits a doms2.
Proof.
  intros ND Hsym Hirr Hsol Hvoc H1 H2.
  assert (Hk1 : keys doms1 = variables cw).
  { apply enforce_node_consistency_keys in H1. rewrite H1.
    apply keys_init_domains. }
  unfold ac3 in H2.
  eapply ac3_loop_keeps with (a := a); [| | | exact H2].
  - apply solution_pairwise_compatible; assumption.
  - intros v Hv. apply (sol_total Hsol). rewrite <- Hk1. exact Hv.
  - intros v w Hvw.
    destruct (@enforce_loop_exact (keys (init_domains cw)) (init_domains cw))
      as [doms' [Hrun Hget]].
    + apply incl_refl.
    + intros v' d Hd. rewrite (init_domains_getitem _ _ Hd). exact ND.
    + unfold enforce_node_consistency in H1. rewrite H1 in Hrun.
      injection Hrun as <-.
      assert (Hv : In v (keys (init_domains cw))).
      { rewrite keys_init_domains. apply (sol_slots Hsol).
        apply (in_map fst) in Hvw. exact Hvw. }
      pose proof Hv as Hc. apply contains_In, contains_getitem in Hc.
      destruct Hc as [d Hd]. rewrite (Hget _ _ Hd).
      rewrite (In_keys_existsb _ _ Hv).
      eexists. split; [reflexivity|]. apply filter_In. split.
      * rewrite (init_domains_getitem _ _ Hd). apply Hvoc.
        apply (in_map snd) in Hvw. exact Hvw.
      * apply Nat.eqb_eq. apply (vf_length (sol_consistent Hsol) _ _ Hvw).
Qed.

Lemma propagation_keeps_solutions_witness :
  true = true /\ inhabits Samples.comb_solution Samples.comb_domains.
Proof.
  apply (@propagation_keeps_solutions Samples.comb Samples.comb_solution
           [(Samples.T, ["AXAXP"; "CXDXQ"; "CYDYQ"]%string);
            (Samples.M, ["AAAA"; "CAAA"; "CBBB"; "DAAA"; "DBBB"]%string);
            (Samples.L, ["AAAA"; "CAAA"; "CBBB"; "DAAA"; "DBBB"]%string);
            (Samples.N, ["PAA"; "PBB"; "PCC"; "PDD"; "QAA"]%string)]
           Samples.comb_domains true).
  - apply (wf_words comb_well_formed).
  - apply (wf_symmetric comb_well_formed).
  - intros x _. apply grid_overlaps_irreflexive.
  - apply comb_solution_is_solution.
  - apply comb_solution_is_solution.
  - vm_compute. reflexivity.
  - vm_compute. reflexivity.
Defined.

(** ** The loop of AC-3 ends *)

Lemma ac3_loop_fuel_mono (cw : Crossword) (fuel : nat) :
  forall arcs doms,
    terminates (ac3_loop cw fuel arcs doms) ->
    forall extra,
      ac3_loop cw (fuel + extra) arcs doms = ac3_loop cw fuel arcs doms.
Proof.
  unfold terminates.
  induction fuel as [|fuel IH]; simpl; intros arcs doms Ht extra;
    [congruence|].
  destruct arcs as [|[var1 var2] arcs']; [reflexivity|].
  destruct (revise cw var1 var2 doms) as [[revised doms1]| |];
    simpl in *; try reflexivity.
  destruct revised; [|apply IH; exact Ht].
  destruct (getitem doms1 var1) as [d| |]; simpl in *; try reflexivity.
  destruct d; [reflexivity|]. apply IH. exact Ht.
Qed.

(** X6. The loop [while arcs] of [ac3] ends: it needs at most
    [len(arcs) + n * words + 1] turns, for [n] slots in the model and
    [words] words in the store, and with any larger budget it returns the
    same. *)
Theorem ac3_loop_bounded (cw : Crossword) (arcs : list (Var * Var))
        (doms : Domains) (fuel : nat) :
  ac3_fuel cw arcs doms <= fuel ->
  terminates (ac3_loop cw fuel arcs doms)
  /\ ac3_loop cw fuel arcs doms
     = ac3_loop cw (ac3_fuel cw arcs doms) arcs doms.
Proof.
  intros Hfuel.
  assert (Ht : terminates (ac3_loop cw (ac3_fuel cw arcs doms) arcs doms)).
  { apply ac3_loop_terminates. unfold ac3_fuel. lia. }
  replace fuel with (ac3_fuel cw arcs doms + (fuel - ac3_fuel cw arcs doms))
    by lia.
  rewrite (ac3_loop_fuel_mono _ _ _ _ Ht). split; [exact Ht | reflexivity].
Qed.

Lemma ac3_loop_bounded_witness :
  terminates (ac3_loop Samples.corner 100 [(Samples.Y, Samples.X)]
                       Samples.corner_domains)
  /\ ac3_loop Samples.corner 100 [(Samples.Y, Samples.X)]
              Samples.corner_domains
     = ac3_loop Samples.corner
                (ac3_fuel Samples.corner [(Samples.Y, Samples.X)]
                          Samples.corner_domains)
                [(Samples.Y, Samples.X)] Samples.corner_domains.
Proof. apply ac3_loop_bounded. vm_compute. lia. Defined.

(** X7. On a well-formed model and a store of sets of words of the right
    lengths, [ac3] given arcs between slots of the model (or none) raises
    nothing, and the store it leaves is again one of sets of words of the
    right lengths over the same slots. *)
Theorem ac3_total (cw : Crossword) (arcs : option (list (Var * Var)))
        (doms : Domains) :
  well_formed cw -> store_ok cw doms ->
  (forall l x y, arcs = Some l -> In (x, y) l ->
                 In x (variables cw) /\ In y (variables cw)) ->
  exists b doms', ac3 cw arcs doms = Ok (b, doms') /\ store_ok cw doms'.
Proof.
  intros Hwf Hs Harcs.
  destruct (@safe_terminates_Ok _ (ac3 cw arcs doms)) as [[b doms'] H].
  - apply ac3_safe; assumption.
  - apply ac3_terminates.
  - exists b, doms'. split; [exact H|]. eapply ac3_store_ok; eauto.
Qed.

Lemma ac3_total_witness :
  exists b doms',
    ac3 Samples.fork (Some [(Samples.V3, Samples.H)]) Samples.fork_domains
    = Ok (b, doms')
    /\ store_ok Samples.fork doms'.
Proof.
  apply ac3_total.
  - exact fork_well_formed.
  - exact fork_store_ok.
  - intros l x y E Hin. injection E as <-. simpl in Hin.
    destruct Hin as [Hin|[]]. injection Hin as <- <-. simpl. auto.
Defined.

(** ** Revision: an empty neighbor domain, and revising twice *)

Lemma revise_loop_against_empty (ov : nat * nat) (x : Var)
      (nodes : list word) :
  NoDup nodes ->
  forall rev doms s,
    getitem doms x = Ok s -> incl nodes s ->
    exists r, revise_loop ov x [] nodes rev doms = Ok r.
Proof.
  induction nodes as [|node rest IH]; simpl; intros ND rev doms s Hs Hincl;
    [eauto|].
  inversion ND as [|? ? Hnot ND']; subst.
  rewrite Hs. cbn [bind]. unfold set_remove.
  assert (Hin : In node s) by (apply Hincl; left; reflexivity).
  apply word_in_In in Hin. rewrite Hin. cbn [bind].
  eapply IH; [exact ND' | apply getitem_setitem_same |].
  intros w Hw. apply filter_In. split.
  - apply Hincl. right. exact Hw.
  - apply negb_true_iff, String.eqb_neq. intros ->. contradiction.
Qed.

(** X8. Revising [x] against a slot whose domain is empty removes every
    word of [x], reports a change exactly when there was a word to remove,
    touches no other domain, and raises nothing, however short the words
    are: no letter is read. *)
Theorem revise_against_empty_domain (cw : Crossword) (doms : Domains)
        (x y : Var) (ov : nat * nat) (dx : list word) :
  overlaps cw x y = Some ov ->
  getitem doms x = Ok dx -> getitem doms y = Ok [] -> NoDup dx ->
  exists doms',
    revise cw x y doms
    = Ok (match dx with [] => false | _ :: _ => true end, doms')
    /\ getitem doms' x = Ok []
    /\ forall z, z <> x -> getitem doms' z = getitem doms z.
Proof.
  intros Ho Hx Hy ND.
  assert (Hr : exists r, revise cw x y doms = Ok r).
  { unfold revise. rewrite Ho, Hx, Hy. cbn [bind].
    eapply revise_loop_against_empty; eauto. apply incl_refl. }
  destruct Hr as [[rev doms'] Hr]. exists doms'.
  pose proof (revise_Ok _ _ _ _ Hr) as [_ [Hother [_ Hov]]].
  rewrite Ho in Hov. destruct Hov as [dx' [dy' [Hx' [Hy' [Hrev Hd]]]]].
  rewrite Hx in Hx'. injection Hx' as <-.
  rewrite Hy in Hy'. injection Hy' as <-.
  assert (Hnone : filter (supported ov []) dx = []).
  { clear. induction dx as [|w d IHd]; simpl; auto. }
  split; [|split; [rewrite Hd, Hnone; reflexivity | exact Hother]].
  rewrite Hr, Hrev. destruct dx; reflexivity.
Qed.

Lemma revise_against_empty_domain_witness :
  exists doms',
    revise Samples.corner Samples.X Samples.Y
           [(Samples.X, ["AB"; "B"]%string); (Samples.Y, [])]
    = Ok (true, doms')
    /\ getitem doms' Samples.X = Ok []
    /\ forall z, z <> Samples.X ->
                 getitem doms' z
                 = getitem [(Samples.X, ["AB"; "B"]%string); (Samples.Y, [])] z.
Proof.
  apply (@revise_against_empty_domain Samples.corner
           [(Samples.X, ["AB"; "B"]%string); (Samples.Y, [])]
           Samples.X Samples.Y (0, 0) ["AB"; "B"]%string).
  - reflexivity.
  - reflexivity.
  - reflexivity.
  - repeat constructor; simpl; intuition discriminate.
Defined.

Lemma revise_loop_found (ov : nat * nat) (x : Var) (dy nodes : list word) :
  forall rev doms r,
    revise_loop ov x dy nodes rev doms = Ok r ->
    forall node, In node nodes ->
                 revise_found ov node dy false = Ok (supported ov dy node).
Proof.
  induction nodes as [|n rest IH]; simpl; intros rev doms r H node Hin;
    [destruct Hin|].
  bind_inv H as found Hf. pose proof Hf as Hf'.
  apply revise_found_Ok in Hf'. simpl in Hf'. subst found.
  destruct Hin as [<-|Hin]; [exact Hf|].
  destruct (supported ov dy n); simpl in H.
  - eapply IH; eauto.
  - bind_inv H as s Hs. bind_inv H as s' Hs'. eapply IH; eauto.
Qed.

Lemma revise_loop_all_supported (ov : nat * nat) (x : Var)
      (dy nodes : list word) (rev : bool) (doms : Domains) :
  (forall node, In node nodes -> revise_found ov node dy false = Ok true) ->
  revise_loop ov x dy nodes rev doms = Ok (rev, doms).
Proof.
  induction nodes as [|n rest IH]; simpl; intros H; [reflexivity|].
  rewrite (H n (or_introl eq_refl)). simpl.
  apply IH. intros node Hin. apply H. right. exact Hin.
Qed.

(** X9. Revising the same arc again right away does nothing: after
    [revise(x, y)] has returned, a second [revise(x, y)] returns [False]
    and leaves the store as it is. *)
Theorem revise_idempotent (cw : Crossword) (x y : Var)
        (doms doms1 : Domains) (rev : bool) :
  x <> y ->
  revise cw x y doms = Ok (rev, doms1) ->
  revise cw x y doms1 = Ok (false, doms1).
Proof.
  intros Hne H. pose proof (revise_Ok _ _ _ _ H) as [_ [Hother [_ Hov]]].
  unfold revise in *. destruct (overlaps cw x y) as [ov|]; [|reflexivity].
  destruct Hov as [dx [dy [Hx [Hy [_ Hd]]]]].
  rewrite Hx, Hy in H. cbn [bind] in H.
  pose proof (revise_loop_found _ _ _ _ _ _ H) as Hfound.
  rewrite Hd. rewrite Hother by congruence. rewrite Hy. cbn [bind].
  apply revise_loop_all_supported.
  intros node Hin. apply filter_In in Hin. destruct Hin as [Hin Hs].
  rewrite (Hfound _ Hin), Hs. reflexivity.
Qed.

Lemma revise_idempotent_witness :
  revise Samples.corner Samples.Y Samples.X
         [(Samples.X, ["AB"%string]); (Samples.Y, ["AC"%string])]
  = Ok (false, [(Samples.X, ["AB"%string]); (Samples.Y, ["AC"%string])]).
Proof.
  apply (@revise_idempotent Samples.corner Samples.Y Samples.X
           Samples.corner_domains _ true).
  - discriminate.
  - reflexivity.
Defined.

(** ** The assignment check, where it answers *)

(** X10. On a dictionary, [consistent] answers [True] exactly when the
    assignment has no repeated word, no word of the wrong length and no
    disagreement between assigned neighbors; so an answer [False] always
    comes with a violation. *)
Theorem consistent_answers_exactly (cw : Crossword) (a : Assignment) :
  NoDup (keys a) ->
  (consistent cw a = Ok true <-> violation_free cw a)
  /\ (consistent cw a = Ok false -> ~ violation_free cw a).
Proof.
  intros ND. pose proof (consistent_true_iff cw a ND) as Hiff. split.
  - exact Hiff.
  - intros Hf Hv. apply Hiff in Hv. rewrite Hf in Hv. discriminate.
Qed.

Lemma consistent_answers_exactly_witness :
  (consistent Samples.comb Samples.comb_solution = Ok true
   <-> violation_free Samples.comb Samples.comb_solution)
  /\ (consistent Samples.comb Samples.comb_solution = Ok false ->
      ~ violation_free Samples.comb Samples.comb_solution).
Proof.
  apply consistent_answers_exactly.
  repeat constructor; simpl; intuition discriminate.
Defined.

(** X11. On a well-formed model, [consistent] raises nothing on a
    dictionary that gives slots of the model words of their lengths, and
    its answer tells whether the assignment is free of violations. *)
Theorem consistent_decides (cw : Crossword) (a : Assignment) :
  well_formed cw ->
  NoDup (keys a) -> incl (keys a) (variables cw) -> fits a ->
  exists b, consistent cw a = Ok b /\ (b = true <-> violation_free cw a).
Proof.
  intros Hwf ND Hincl Hfits.
  destruct (@safe_terminates_Ok _ (consistent cw a)) as [b Hb].
  - apply consistent_safe; assumption.
  - apply consistent_terminates.
  - exists b. split; [exact Hb|].
    rewrite <- (consistent_true_iff cw a ND), Hb. split; congruence.
Qed.

Lemma consistent_decides_witness :
  exists b,
    consistent Samples.hook [(Samples.Q, "CAT"%string); (Samples.P, "TAR"%string)]
    = Ok b
    /\ (b = true <->
        violation_free Samples.hook
          [(Samples.Q, "CAT"%string); (Samples.P, "TAR"%string)]).
Proof.
  apply consistent_decides.
  - exact hook_well_formed.
  - repeat constructor; simpl; intuition discriminate.
  - intros v Hv. simpl in *. intuition auto.
  - intros v w Hvw. simpl in Hvw.
    destruct Hvw as [Hvw|[Hvw|[]]]; injection Hvw as <- <-; reflexivity.
Defined.

(** ** The variable heuristic *)

Lemma mrv_key_leb_refl (k : nat * nat) : mrv_key_leb k k = true.
Proof.
  unfold mrv_key_leb. rewrite Nat.eqb_refl, Nat.leb_refl.
  apply orb_true_r.
Qed.

Lemma mrv_key_leb_iff (k1 k2 : nat * nat) :
  mrv_key_leb k1 k2 = true <->
  fst k1 < fst k2 \/ (fst k1 = fst k2 /\ snd k2 <= snd k1).
Proof.
  unfold mrv_key_leb.
  rewrite orb_true_iff, andb_true_iff, Nat.ltb_lt, Nat.eqb_eq, Nat.leb_le.
  reflexivity.
Qed.

Lemma mrv_key_leb_total (k1 k2 : nat * nat) :
  mrv_key_leb k1 k2 = false -> mrv_key_leb k2 k1 = true.
Proof.
  intros H. apply mrv_key_leb_iff.
  destruct (mrv_key_leb k1 k2) eqn:E; [discriminate|].
  assert (Hn : ~ (fst k1 < fst k2 \/ (fst k1 = fst k2 /\ snd k2 <= snd k1))).
  { intros Hc. apply mrv_key_leb_iff in Hc. congruence. }
  lia.
Qed.

Lemma mrv_key_leb_trans (k1 k2 k3 : nat * nat) :
  mrv_key_leb k1 k2 = true -> mrv_key_leb k2 k3 = true ->
  mrv_key_leb k1 k3 = true.
Proof. rewrite !mrv_key_leb_iff. lia. Qed.

Lemma mrv_keys_In (cw : Crossword) (doms : Domains) (vars : list Var) :
  forall keyed,
    mrv_keys cw doms vars = Ok keyed ->
    forall u k, In (u, k) keyed ->
      exists d, getitem doms u = Ok d
                /\ k = (List.length d, List.length (neighbors cw u)).
Proof.
  induction vars as [|var rest IH]; simpl; intros keyed H u k Hin.
  - injection H as <-. destruct Hin.
  - bind_inv H as d Hd. bind_inv H as keyed' Hk. injection H as <-.
    destruct Hin as [E|Hin].
    + injection E as <- <-. eauto.
    + eapply IH; eauto.
Qed.

(** The first element of a sorted list is below all of them. *)
Lemma sort_by_head_least {A K : Type} (key : A -> K) (leb : K -> K -> bool)
      (l : list A) (h : A) (t : list A) :
  (forall a, leb a a = true) ->
  (forall a b, leb a b = false -> leb b a = true) ->
  (forall a b c, leb a b = true -> leb b c = true -> leb a c = true) ->
  sort_by key leb l = h :: t ->
  forall e, In e l -> leb (key h) (key e) = true.
Proof.
  intros Hrefl Htotal Htrans Hs e He.
  pose proof (sort_by_StronglySorted key leb Htotal Htrans l) as Hsorted.
  apply (In_sort_by key leb) in He. rewrite Hs in He, Hsorted.
  inversion Hsorted as [|? ? _ Hall]; subst.
  destruct He as [<-|He]; [apply Hrefl|].
  rewrite Forall_forall in Hall. apply Hall. exact He.
Qed.

(** The slot selected is least for the order of the heuristic among the
    unassigned slots. *)
Lemma select_unassigned_variable_least (cw : Crossword) (a : Assignment)
      (doms : Domains) (v : Var) :
  select_unassigned_variable cw a doms = Ok (Some v) ->
  forall u, In u (keys doms) -> contains a u = false ->
            mrv_before cw doms v u.
Proof.
  intros Hr.
  - intros u Hu Hcu dv du Hdv Hdu.
    unfold select_unassigned_variable in Hr. fold (unassigned a doms) in Hr.
    destruct (unassigned a doms) as [|u0 us] eqn:Eu; [discriminate|].
    bind_inv Hr as keyed Hk.
    destruct (sort_by snd mrv_key_leb keyed) as [|[var k] sorted] eqn:Es;
      [discriminate|].
    injection Hr as ->.
    assert (Hkv : In (v, k) keyed).
    { apply (In_sort_by snd mrv_key_leb). rewrite Es. left. reflexivity. }
    destruct (mrv_keys_In _ _ _ Hk _ _ Hkv) as [dv' [Hdv' ->]].
    rewrite Hdv in Hdv'. injection Hdv' as <-.
    assert (Hin_u : In u (map fst keyed)).
    { rewrite (mrv_keys_fst _ _ _ Hk), <- Eu. apply In_unassigned. auto. }
    apply in_map_iff in Hin_u. destruct Hin_u as [[u' ku] [E Hku]].
    simpl in E. subst u'.
    destruct (mrv_keys_In _ _ _ Hk _ _ Hku) as [du' [Hdu' ->]].
    rewrite Hdu in Hdu'. injection Hdu' as <-.
    pose proof (sort_by_head_least snd mrv_key_leb keyed mrv_key_leb_refl
                  mrv_key_leb_total mrv_key_leb_trans Es _ Hku) as Hle.
    apply mrv_key_leb_iff in Hle. exact Hle.
Qed.

(** X12. [select_unassigned_variable] raises nothing on any store.  It
    returns [None] exactly when every slot of the store is assigned;
    otherwise it returns an unassigned slot of the store that no other
    unassigned slot beats: none has fewer words left, and none with as
    many words has more neighbors. *)
Theorem select_unassigned_variable_mrv (cw : Crossword) (a : Assignment)
        (doms : Domains) :
  exists r,
    select_unassigned_variable cw a doms = Ok r
    /\ match r with
       | None => complete a doms
       | Some v =>
           In v (keys doms) /\ contains a v = false
           /\ ~ complete a doms
           /\ forall u, In u (keys doms) -> contains a u = false ->
                        mrv_before cw doms v u
       end.
Proof.
  destruct (select_unassigned_variable_total cw a doms) as [r Hr].
  exists r. split; [exact Hr|]. destruct r as [v|].
  - pose proof (select_unassigned_variable_Some _ _ _ Hr) as [Hv Hc].
    split; [exact Hv|]. split; [exact Hc|]. split.
    + intros Hcomp. apply contains_false in Hc. apply Hc, Hcomp, Hv.
    + apply select_unassigned_variable_least. exact Hr.
  - apply (select_unassigned_variable_None cw). exact Hr.
Qed.

(** ** The search: what [backtrack] touches *)

Lemma getitem_delitem_other {V : Type} (d d' : dict V) (k k' : Var) :
  delitem d k = Ok d' -> k' <> k -> getitem d' k' = getitem d k'.
Proof.
  revert d'. induction d as [|[k0 v0] d IH]; simpl; intros d' H Hne;
    [discriminate|].
  destruct (Var_eqb k0 k) eqn:E0.
  - injection H as <-. apply Var_eqb_eq in E0. subst k0.
    destruct (Var_eqb k k') eqn:E2; [|reflexivity].
    apply Var_eqb_eq in E2. congruence.
  - bind_inv H as d2 Hd. injection H as <-. simpl.
    destruct (Var_eqb k0 k'); [reflexivity | eauto].
Qed.

Lemma setitem_In {V : Type} (d : dict V) (k k' : Var) (v v' : V) :
  In (k', v') (setitem d k v) -> (k' = k /\ v' = v) \/ In (k', v') d.
Proof.
  induction d as [|[k0 v0] d IH]; simpl.
  - intros [Heq|[]]. injection Heq as <- <-. left. auto.
  - destruct (Var_eqb k0 k) eqn:E0.
    + apply Var_eqb_eq in E0. subst k0. intros [Heq|Hin].
      * injection Heq as <- <-. left. auto.
      * right. right. exact Hin.
    + intros [Heq|Hin]; [right; left; exact Heq|].
      destruct (IH Hin) as [Hl|Hr]; [left | right; right]; assumption.
Qed.

Lemma same_entries_keys (ex : list Var) (a a' : Assignment) (v : Var) :
  same_entries ex a a' -> ~ In v ex -> In v (keys a) -> In v (keys a').
Proof.
  intros Hs Hv Hin. pose proof (Hs v Hv Hin) as Heq.
  apply contains_In, contains_getitem in Hin. destruct Hin as [w Hw].
  rewrite Hw in Heq. apply contains_In. eapply getitem_contains. exact Heq.
Qed.

Lemma same_entries_trans (ex : list Var) (a a1 a2 : Assignment) :
  same_entries ex a a1 -> same_entries ex a1 a2 -> same_entries ex a a2.
Proof.
  intros H1 H2 v Hv Hin. rewrite (H2 v Hv).
  - apply H1; assumption.
  - eapply same_entries_keys; eauto.
Qed.

Lemma same_entries_weaken (ex : list Var) (a a' : Assignment) :
  same_entries [] a a' -> same_entries ex a a'.
Proof. intros H v _ Hin. apply H; [intros [] | exact Hin]. Qed.

Lemma same_entries_setitem (a : Assignment) (v : Var) (w : word) :
  same_entries [v] a (setitem a v w).
Proof.
  intros k Hk _. apply getitem_setitem_other. intros ->. apply Hk.
  left. reflexivity.
Qed.

Lemma same_entries_delitem (a a' : Assignment) (v : Var) :
  delitem a v = Ok a' -> same_entries [v] a a'.
Proof.
  intros H k Hk _. eapply getitem_delitem_other; [exact H|].
  intros ->. apply Hk. left. reflexivity.
Qed.

Lemma drawn_from_refl (doms : Domains) (a : Assignment) : drawn_from doms a a.
Proof. intros v w H. left. exact H. Qed.

Lemma drawn_from_trans (doms : Domains) (a a1 a2 : Assignment) :
  drawn_from doms a a1 -> drawn_from doms a1 a2 -> drawn_from doms a a2.
Proof.
  intros H1 H2 v w Hin. destruct (H2 v w Hin) as [Hl|Hr]; [|right; exact Hr].
  apply H1. exact Hl.
Qed.

Lemma drawn_from_shrinks (doms0 doms : Domains) (a a' : Assignment) :
  shrinks doms0 doms -> drawn_from doms a a' -> drawn_from doms0 a a'.
Proof.
  intros [_ Hs] H v w Hin. destruct (H v w Hin) as [Hl|[d [Hd Hw]]];
    [left; exact Hl|].
  right. destruct (Hs _ _ Hd) as [d0 [f [Hd0 ->]]].
  exists d0. split; [exact Hd0|]. apply filter_In in Hw. tauto.
Qed.

Lemma drawn_from_setitem (doms : Domains) (a : Assignment) (v : Var)
      (w : word) (d : list word) :
  getitem doms v = Ok d -> In w d -> drawn_from doms a (setitem a v w).
Proof.
  intros Hd Hw k w' Hin. apply setitem_In in Hin.
  destruct Hin as [[-> ->]|Hin]; [right; eauto | left; exact Hin].
Qed.

Lemma drawn_from_incl (doms : Domains) (a a' : Assignment) :
  incl a' a -> drawn_from doms a a'.
Proof. intros H v w Hin. left. apply H. exact Hin. Qed.

Lemma ac3_shrinks (cw : Crossword) (arcs : option (list (Var * Var)))
      (doms doms' : Domains) (b : bool) :
  ac3 cw arcs doms = Ok (b, doms') -> shrinks doms doms'.
Proof. unfold ac3. apply ac3_loop_shrinks. Qed.

Section BacktrackFrame.
Variable cw : Crossword.

Section Loop.
Variable rec : Assignment -> Domains -> result outcome.
Hypothesis rec_frame :
  forall a doms res a' doms',
    rec a doms = Ok (res, a', doms') ->
    shrinks doms doms' /\ same_entries [] a a' /\ drawn_from doms a a'
    /\ forall r, res = Some r -> r = a'.
Variable variable : Var.
Variable doms0 : Domains.

Lemma backtrack_values_frame (values : list word) :
  forall a doms res a' doms',
    shrinks doms0 doms ->
    (forall w, In w values ->
               exists d, getitem doms0 variable = Ok d /\ In w d) ->
    backtrack_values cw rec variable values a doms = Ok (res, a', doms') ->
    shrinks doms doms' /\ same_entries [variable] a a'
    /\ drawn_from doms0 a a' /\ forall r, res = Some r -> r = a'.
Proof.
  induction values as [|value rest IH]; intros a doms res a' doms' Hs Hv H.
  - simpl in H. injection H as <- <- <-.
    split; [apply shrinks_refl|]. split; [intros v _ _; reflexivity|].
    split; [apply drawn_from_refl|]. discriminate.
  - assert (Hrest : forall w, In w rest ->
                      exists d, getitem doms0 variable = Ok d /\ In w d)
      by (intros w Hw; apply Hv; right; exact Hw).
    destruct (Hv value (or_introl eq_refl)) as [d0 [Hd0 Hin0]].
    pose proof (@same_entries_setitem a variable value) as Hset.
    pose proof (@drawn_from_setitem doms0 a variable value d0 Hd0 Hin0)
      as Hdrawn.
    simpl in H. bind_inv H as ok Hok. destruct ok.
    + bind_inv H as p Hac3. destruct p as [inference doms1].
      apply ac3_shrinks in Hac3.
      pose proof (shrinks_trans Hs Hac3) as Hs01. destruct inference.
      * bind_inv H as o Hrec. destruct o as [[res1 a2] doms2].
        apply rec_frame in Hrec.
        destruct Hrec as [Hs2 [Hsame2 [Hdrawn2 Hres2]]].
        pose proof (shrinks_trans Hs01 Hs2) as Hs02.
        pose proof (shrinks_trans Hac3 Hs2) as Hs12.
        assert (Hsame : same_entries [variable] a a2)
          by (eapply same_entries_trans; [exact Hset|];
              apply same_entries_weaken; exact Hsame2).
        assert (Hdr : drawn_from doms0 a a2).
        { eapply drawn_from_trans; [exact Hdrawn|].
          eapply drawn_from_shrinks; [exact Hs01 | exact Hdrawn2]. }
        destruct res1 as [r1|].
        -- injection H as <- <- <-.
           split; [exact Hs12|]. split; [exact Hsame|].
           split; [exact Hdr|]. intros r Hr. injection Hr as <-.
           apply Hres2. reflexivity.
        -- apply IH in H; [|exact Hs02|exact Hrest].
           destruct H as [Hs' [Hsame' [Hdr' Hres']]].
           split; [exact (shrinks_trans Hs12 Hs')|].
           split; [exact (same_entries_trans Hsame Hsame')|].
           split; [exact (drawn_from_trans Hdr Hdr') | exact Hres'].
      * apply IH in H; [|exact Hs01|exact Hrest].
        destruct H as [Hs' [Hsame' [Hdr' Hres']]].
        split; [exact (shrinks_trans Hac3 Hs')|].
        split; [exact (same_entries_trans Hset Hsame')|].
        split; [exact (drawn_from_trans Hdrawn Hdr') | exact Hres'].
    + bind_inv H as a2 Hdel.
      pose proof (@same_entries_delitem _ _ _ Hdel) as Hdel_same.
      pose proof (@drawn_from_incl doms0 _ _ (@delitem_In _ _ _ _ Hdel))
        as Hdel_drawn.
      apply IH in H; [|exact Hs|exact Hrest].
      destruct H as [Hs' [Hsame' [Hdr' Hres']]].
      split; [exact Hs'|].
      split; [exact (same_entries_trans
                       (same_entries_trans Hset Hdel_same) Hsame')|].
      split; [|exact Hres'].
      exact (drawn_from_trans (drawn_from_trans Hdrawn Hdel_drawn) Hdr').
Qed.
End Loop.

Lemma backtrack_frame (fuel : nat) :
  forall a doms res a' doms',
    backtrack cw fuel a doms = Ok (res, a', doms') ->
    shrinks doms doms' /\ same_entries [] a a' /\ drawn_from doms a a'
    /\ forall r, res = Some r -> r = a'.
Proof.
  induction fuel as [|fuel IH]; intros a doms res a' doms' H;
    [discriminate|].
  assert (Hsame : forall (r : Assignment),
             Ok (Some a, a, doms) = Ok (res, a', doms') ->
             shrinks doms doms' /\ same_entries [] a a'
             /\ drawn_from doms a a' /\ forall r, res = Some r -> r = a').
  { intros _ Heq. injection Heq as <- <- <-.
    split; [apply shrinks_refl|]. split; [intros v _ _; reflexivity|].
    split; [apply drawn_from_refl|]. intros r Hr. congruence. }
  simpl in H. destruct (assignment_complete a doms); [apply Hsame; auto|].
  bind_inv H as sel Hsel. destruct sel as [variable|]; [|apply Hsame; auto].
  bind_inv H as values Hvalues.
  apply select_unassigned_variable_Some in Hsel. destruct Hsel as [_ Hc].
  apply order_domain_values_In in Hvalues.
  destruct Hvalues as [d [Hd Hvalues]].
  apply (@backtrack_values_frame (backtrack cw fuel) IH variable doms) in H.
  - destruct H as [Hs [Hsame' [Hdr Hres]]].
    split; [exact Hs|]. split; [|split; assumption].
    intros v _ Hv. apply Hsame'; [|exact Hv].
    intros [<-|[]]. apply contains_false in Hc. contradiction.
  - apply shrinks_refl.
  - intros w Hw. exists d. split; [exact Hd|]. apply Hvalues. exact Hw.
Qed.
End BacktrackFrame.

(** X13. A call of [backtrack] that returns has left every entry the
    dictionary held on entry as it was, whatever the result: it only adds
    entries, each for a word of the domain the store had for its slot, and
    the store itself has only lost words.  A returned assignment is the
    dictionary itself. *)
Theorem backtrack_keeps_entries (cw : Crossword) (fuel : nat)
        (a a' : Assignment) (doms doms' : Domains)
        (res : option Assignment) :
  backtrack cw fuel a doms = Ok (res, a', doms') ->
  (forall v, In v (keys a) -> getitem a' v = getitem a v)
  /\ (forall v w, In (v, w) a' ->
        In (v, w) a \/ exists d, getitem doms v = Ok d /\ In w d)
  /\ shrinks doms doms'
  /\ forall r, res = Some r -> r = a'.
Proof.
  intros H. apply backtrack_frame in H.
  destruct H as [Hs [Hsame [Hdr Hres]]].
  split; [|split; [exact Hdr | split; assumption]].
  intros v Hv. apply Hsame; [intros [] | exact Hv].
Qed.

Lemma backtrack_keeps_entries_witness :
  (forall v, In v (keys [(Samples.X, "AB"%string)]) ->
             getitem [(Samples.X, "AB"%string); (Samples.Y, "AC"%string)] v
             = getitem [(Samples.X, "AB"%string)] v)
  /\ (forall v w,
        In (v, w) [(Samples.X, "AB"%string); (Samples.Y, "AC"%string)] ->
        In (v, w) [(Samples.X, "AB"%string)]
        \/ exists d, getitem Samples.corner_domains v = Ok d /\ In w d)
  /\ shrinks Samples.corner_domains Samples.corner_domains
  /\ forall r,
       Some [(Samples.X, "AB"%string); (Samples.Y, "AC"%string)] = Some r ->
       r = [(Samples.X, "AB"%string); (Samples.Y, "AC"%string)].
Proof.
  apply (@backtrack_keeps_entries Samples.corner 2
           [(Samples.X, "AB"%string)]
           [(Samples.X, "AB"%string); (Samples.Y, "AC"%string)]
           Samples.corner_domains).
  vm_compute. reflexivity.
Defined.

(** ** The search: dead ends *)

Lemma assignment_complete_false (a : Assignment) (doms : Domains) (v : Var) :
  assignment_ok a doms -> In v (keys doms) -> contains a v = false ->
  assignment_complete a doms = false.
Proof.
  intros [ND Hincl] Hv Hc. unfold assignment_complete.
  apply Nat.eqb_neq. intros Hlen. apply contains_false in Hc. apply Hc.
  apply (@NoDup_length_incl _ (keys a) (keys doms) ND);
    [lia | exact Hincl | exact Hv].
Qed.

Lemma select_empty_domain (cw : Crossword) (a : Assignment) (doms : Domains)
      (v : Var) :
  getitem doms v = Ok [] -> contains a v = false ->
  exists v', select_unassigned_variable cw a doms = Ok (Some v')
             /\ getitem doms v' = Ok [].
Proof.
  intros Hd Hc.
  assert (Hv : In v (keys doms))
    by (apply contains_In; eapply getitem_contains; exact Hd).
  destruct (select_unassigned_variable_total cw a doms) as [[v'|] Hsel].
  - exists v'. split; [exact Hsel|].
    pose proof (@select_unassigned_variable_least cw a doms v' Hsel v Hv Hc) as Hmrv.
    apply select_unassigned_variable_Some in Hsel. destruct Hsel as [Hv' _].
    apply contains_In, contains_getitem in Hv'. destruct Hv' as [d' Hd'].
    destruct (Hmrv _ _ Hd' Hd) as [Hlt|[Hlen _]]; simpl in *; [lia|].
    destruct d'; [exact Hd' | discriminate].
  - apply select_unassigned_variable_None in Hsel. exfalso.
    apply contains_false in Hc. apply Hc, Hsel, Hv.
Qed.

Lemma order_domain_values_nil (cw : Crossword) (v : Var) (a : Assignment)
      (doms : Domains) :
  getitem doms v = Ok [] -> order_domain_values cw v a doms = Ok [].
Proof. unfold order_domain_values. intros ->. reflexivity. Qed.

(** X14. With an unassigned slot whose domain is empty, [backtrack]
    returns [None] at once: it selects a slot without words, tries
    nothing, and leaves the dictionary and the store as they were. *)
Theorem backtrack_fails_on_empty_domain (cw : Crossword) (fuel : nat)
        (a : Assignment) (doms : Domains) (v : Var) :
  assignment_ok a doms -> getitem doms v = Ok [] -> contains a v = false ->
  backtrack cw (S fuel) a doms = Ok (None, a, doms).
Proof.
  intros Hok Hd Hc. simpl.
  rewrite (@assignment_complete_false a doms v Hok); [|
    apply contains_In; eapply getitem_contains; exact Hd | exact Hc].
  destruct (@select_empty_domain cw a doms v Hd Hc) as [v' [-> Hd']]. cbn [bind].
  rewrite (@order_domain_values_nil cw v' a doms Hd'). reflexivity.
Qed.

Lemma backtrack_fails_on_empty_domain_witness :
  backtrack Samples.corner 1 [(Samples.X, "AB"%string)]
            [(Samples.X, ["AB"%string]); (Samples.Y, [])]
  = Ok (None, [(Samples.X, "AB"%string)],
        [(Samples.X, ["AB"%string]); (Samples.Y, [])]).
Proof.
  apply (@backtrack_fails_on_empty_domain Samples.corner 0
           [(Samples.X, "AB"%string)]
           [(Samples.X, ["AB"%string]); (Samples.Y, [])] Samples.Y).
  - split.
    + repeat constructor. simpl. tauto.
    + intros k [<-|[]]. left. reflexivity.
  - reflexivity.
  - reflexivity.
Defined.

Lemma ac3_loop_false_empty (cw : Crossword) (fuel : nat) :
  forall arcs doms doms',
    ac3_loop cw fuel arcs doms = Ok (false, doms') ->
    exists v, getitem doms' v = Ok [].
Proof.
  induction fuel as [|fuel IH]; simpl; intros arcs doms doms' H;
    [discriminate|].
  destruct arcs as [|[var1 var2] arcs']; [discriminate|].
  bind_inv H as r Hr. destruct r as [revised doms1]. destruct revised.
  - bind_inv H as d Hd. destruct d.
    + injection H as <-. exists var1. exact Hd.
    + eapply IH. exact H.
  - eapply IH. exact H.
Qed.

(** X15. [solve] does not look at the answer of [ac3], yet a failed
    propagation is not lost: when [ac3] returns [False] it has emptied a
    domain, and the search that follows returns [None] without trying a
    word. *)
Theorem solve_fails_when_propagation_fails (cw : Crossword)
        (doms1 doms2 : Domains) :
  enforce_node_consistency (init_domains cw) = Ok doms1 ->
  ac3 cw None doms1 = Ok (false, doms2) ->
  solve_outcome cw = Ok (None, [], doms2) /\ solve cw = Ok None.
Proof.
  intros H1 H2.
  assert (Hout : solve_outcome cw = Ok (None, [], doms2)).
  { unfold solve_outcome. rewrite H1. cbn [bind]. rewrite H2. cbn [bind].
    unfold ac3 in H2. apply ac3_loop_false_empty in H2.
    destruct H2 as [v Hv]. unfold backtrack_fuel. simpl.
    rewrite (@assignment_complete_false [] doms2 v).
    - destruct (@select_empty_domain cw [] doms2 v Hv eq_refl)
        as [v' [-> Hd']].
      cbn [bind]. rewrite (@order_domain_values_nil cw v' [] doms2 Hd').
      reflexivity.
    - split; [constructor | intros k []].
    - apply contains_In. eapply getitem_contains. exact Hv.
    - reflexivity. }
  split; [exact Hout|]. unfold solve. rewrite Hout. reflexivity.
Qed.

(** ** The words of an answer *)

Lemma setitem_shrinks (doms : Domains) (k : Var) (s : list word)
      (f : word -> bool) :
  getitem doms k = Ok s -> shrinks doms (setitem doms k (filter f s)).
Proof.
  intros Hs. split.
  - apply keys_setitem_present. eapply getitem_contains. exact Hs.
  - intros v d' Hd'. destruct (Var_eqb v k) eqn:Evk.
    + apply Var_eqb_eq in Evk. subst v.
      rewrite getitem_setitem_same in Hd'. injection Hd' as <-. eauto.
    + apply Var_eqb_neq in Evk.
      rewrite getitem_setitem_other in Hd' by exact Evk.
      apply (proj2 (shrinks_refl doms)). exact Hd'.
Qed.

Lemma enforce_nodes_shrinks (domain : Var) (dom : list word) :
  forall doms doms',
    enforce_nodes domain dom doms = Ok doms' -> shrinks doms doms'.
Proof.
  induction dom as [|node dom IH]; simpl; intros doms doms' H.
  - injection H as <-. apply shrinks_refl.
  - destruct (negb (Nat.eqb (String.length node) (var_length domain))).
    + bind_inv H as s Hs. bind_inv H as s' Hs'.
      apply set_remove_Ok in Hs'. destruct Hs' as [_ ->].
      apply IH in H.
      exact (shrinks_trans (@setitem_shrinks doms domain s _ Hs) H).
    + apply IH. exact H.
Qed.

Lemma enforce_loop_shrinks (domains : list Var) :
  forall doms doms',
    enforce_loop domains doms = Ok doms' -> shrinks doms doms'.
Proof.
  induction domains as [|domain rest IH]; simpl; intros doms doms' H.
  - injection H as <-. apply shrinks_refl.
  - bind_inv H as dom Hd. bind_inv H as doms1 H1.
    apply enforce_nodes_shrinks in H1. apply IH in H.
    exact (shrinks_trans H1 H).
Qed.

Lemma shrinks_In (doms doms' : Domains) (v : Var) (d' : list word)
      (w : word) :
  shrinks doms doms' -> getitem doms' v = Ok d' -> In w d' ->
  exists d, getitem doms v = Ok d /\ In w d.
Proof.
  intros [_ Hs] Hd' Hw. destruct (Hs _ _ Hd') as [d [f [Hd ->]]].
  exists d. split; [exact Hd|]. apply filter_In in Hw. tauto.
Qed.

(** X16. Every word of an assignment that [solve] returns is a word of
    the vocabulary, and it is entered for a slot of the puzzle. *)
Theorem solve_uses_vocabulary (cw : Crossword) (a : Assignment) :
  solve cw = Ok (Some a) ->
  forall v w, In (v, w) a -> In v (variables cw) /\ In w (words cw).
Proof.
  unfold solve. intros H v w Hin.
  bind_inv H as o Ho. destruct o as [[res a'] doms']. injection H as ->.
  unfold solve_outcome in Ho.
  bind_inv Ho as doms1 H1. bind_inv Ho as p H2. destruct p as [b doms2].
  apply backtrack_frame in Ho. destruct Ho as [_ [_ [Hdr Hres]]].
  rewrite <- (Hres a eq_refl) in Hdr.
  destruct (Hdr v w Hin) as [[]|[d2 [Hd2 Hw2]]].
  apply ac3_shrinks in H2. apply enforce_loop_shrinks in H1.
  destruct (@shrinks_In _ _ _ _ _ (shrinks_trans H1 H2) Hd2 Hw2) as [d0 [Hd0 Hw0]].
  split.
  - rewrite <- (keys_init_domains cw). apply contains_In.
    eapply getitem_contains. exact Hd0.
  - apply init_domains_getitem in Hd0. subst d0. exact Hw0.
Qed.

Lemma solve_uses_vocabulary_witness :
  In Samples.Y (variables Samples.corner)
  /\ In "AC"%string (words Samples.corner).
Proof.
  apply (@solve_uses_vocabulary Samples.corner
           [(Samples.X, "AB"%string); (Samples.Y, "AC"%string)]).
  - vm_compute. reflexivity.
  - right. left. reflexivity.
Defined.

Lemma solve_fails_when_propagation_fails_witness :
  solve_outcome Samples.deadlock
  = Ok (None, [],
        [(Samples.P, []); (Samples.Q, ["CAT"%string; "DOG"%string])])
  /\ solve Samples.deadlock = Ok None.
Proof.
  apply (@solve_fails_when_propagation_fails Samples.deadlock
           [(Samples.P, ["CAT"%string; "DOG"%string]);
            (Samples.Q, ["CAT"%string; "DOG"%string])]).
  - vm_compute. reflexivity.
  - vm_compute. reflexivity.
Defined.

(** ** The budget of the search *)

Section BacktrackFuel.
Variable cw : Crossword.

Lemma backtrack_values_agree
      (rec1 rec2 : Assignment -> Domains -> result outcome)
      (variable : Var) (values : list word) :
  (forall a doms, terminates (rec1 a doms) -> rec2 a doms = rec1 a doms) ->
  forall a doms,
    terminates (backtrack_values cw rec1 variable values a doms) ->
    backtrack_values cw rec2 variable values a doms
    = backtrack_values cw rec1 variable values a doms.
Proof.
  intros Hrec.
  induction values as [|value rest IH]; intros a doms H; [reflexivity|].
  simpl in *.
  destruct (consistent cw (setitem a variable value)) as [[|]| |];
    cbn [bind] in *; try reflexivity.
  - destruct (ac3 cw
                (Some (map (fun var => (var, variable))
                           (neighbors cw variable))) doms)
      as [[inference doms1]| |]; cbn [bind] in *; try reflexivity.
    destruct inference; [|apply IH; exact H].
    destruct (rec1 (setitem a variable value) doms1)
      as [[[res a2] doms2]| |] eqn:E1.
    + rewrite Hrec by (rewrite E1; discriminate). rewrite E1.
      cbn [bind] in *. destruct res; [reflexivity | apply IH; exact H].
    + rewrite Hrec by (rewrite E1; discriminate). rewrite E1. reflexivity.
    + exfalso. apply H. reflexivity.
  - destruct (delitem (setitem a variable value) variable) as [a2| |];
      cbn [bind] in *; try reflexivity.
    apply IH. exact H.
Qed.

Lemma backtrack_fuel_mono (fuel extra : nat) :
  forall a doms,
    terminates (backtrack cw fuel a doms) ->
    backtrack cw (fuel + extra) a doms = backtrack cw fuel a doms.
Proof.
  induction fuel as [|fuel IH]; intros a doms H.
  - exfalso. apply H. reflexivity.
  - simpl in *. destruct (assignment_complete a doms); [reflexivity|].
    destruct (select_unassigned_variable cw a doms) as [[variable|]| |];
      cbn [bind] in *; try reflexivity.
    destruct (order_domain_values cw variable a doms) as [values| |];
      cbn [bind] in *; try reflexivity.
    apply backtrack_values_agree; [exact IH | exact H].
Qed.
End BacktrackFuel.

(** X17. The recursion of [backtrack] is at most one level deep per
    unassigned slot: from a dictionary over slots of the store the call
    ends within that depth, and a deeper bound changes nothing of its
    outcome. *)
Theorem backtrack_depth_bounded (cw : Crossword) (fuel extra : nat)
        (a : Assignment) (doms : Domains) :
  assignment_ok a doms -> List.length (unassigned a doms) < fuel ->
  terminates (backtrack cw fuel a doms)
  /\ backtrack cw (fuel + extra) a doms = backtrack cw fuel a doms.
Proof.
  intros Hok Hlt.
  assert (Ht : terminates (backtrack cw fuel a doms))
    by (apply backtrack_terminates; assumption).
  split; [exact Ht|]. apply backtrack_fuel_mono. exact Ht.
Qed.

Lemma backtrack_depth_bounded_witness :
  terminates (backtrack Samples.corner 2 [(Samples.X, "AB"%string)]
                        Samples.corner_domains)
  /\ backtrack Samples.corner (2 + 7) [(Samples.X, "AB"%string)]
               Samples.corner_domains
     = backtrack Samples.corner 2 [(Samples.X, "AB"%string)]
                 Samples.corner_domains.
Proof.
  apply (@backtrack_depth_bounded Samples.corner 2 7
           [(Samples.X, "AB"%string)] Samples.corner_domains).
  - split.
    + repeat constructor. simpl. tauto.
    + intros k [<-|[]]. left. reflexivity.
  - vm_compute. lia.
Defined.

(** ** [assignment_complete] *)

(** X18. On a dictionary over slots of the store, comparing the two key
    counts decides completeness: [assignment_complete] answers [True]
    exactly when every slot of the store has an entry. *)
Theorem assignment_complete_iff (a : Assignment) (doms : Domains) :
  assignment_ok a doms -> NoDup (keys doms) ->
  (assignment_complete a doms = true <-> complete a doms).
Proof.
  intros [ND Hincl] NDd. unfold assignment_complete, complete.
  rewrite Nat.eqb_eq. split.
  - intros Hlen v Hv.
    apply (@NoDup_length_incl _ (keys a) (keys doms) ND);
      [lia | exact Hincl | exact Hv].
  - intros Hc. apply Nat.le_antisymm.
    + apply NoDup_incl_length; assumption.
    + apply NoDup_incl_length; assumption.
Qed.

Lemma assignment_complete_iff_witness :
  assignment_complete [(Samples.X, "AB"%string)] Samples.corner_domains
  = true
  <-> complete [(Samples.X, "AB"%string)] Samples.corner_domains.
Proof.
  apply (@assignment_complete_iff [(Samples.X, "AB"%string)]
           Samples.corner_domains).
  - split.
    + repeat constructor. simpl. tauto.
    + intros k [<-|[]]. left. reflexivity.
  - repeat constructor; simpl; intuition discriminate.
Defined.

(** ** The order of the values *)

Lemma rank_values_counts (cw : Crossword) (var : Var) (a : Assignment)
      (doms : Domains) (values : list word) :
  forall ranked,
    rank_values cw var a doms values = Ok ranked ->
    Forall (fun p => ruled_out cw var a doms (fst p) = Ok (snd p)) ranked.
Proof.
  induction values as [|value rest IH]; simpl; intros ranked H.
  - injection H as <-. constructor.
  - bind_inv H as counter Hc. bind_inv H as ordered Ho. injection H as <-.
    constructor; [exact Hc | apply IH; exact Ho].
Qed.

Lemma StronglySorted_map_Forall {A B : Type} (f : A -> B)
      (R : A -> A -> Prop) (R' : B -> B -> Prop) (P : A -> Prop)
      (l : list A) :
  (forall p q, P p -> P q -> R p q -> R' (f p) (f q)) ->
  Forall P l -> StronglySorted R l -> StronglySorted R' (map f l).
Proof.
  intros HR HP HS. induction HS as [|x l HS IH Hx]; simpl; [constructor|].
  inversion HP as [|? ? Px Pl]; subst. constructor; [apply IH; exact Pl|].
  apply Forall_forall. intros y Hy. apply in_map_iff in Hy.
  destruct Hy as [q [<- Hq]]. rewrite Forall_forall in Hx, Pl.
  apply HR; auto.
Qed.

(** X19. [order_domain_values] returns the words of the domain of the
    slot, each once per occurrence, in ascending order of the counter the
    code computes for them. *)
Theorem order_domain_values_ascending (cw : Crossword) (var : Var)
        (a : Assignment) (doms : Domains) (values : list word) :
  order_domain_values cw var a doms = Ok values ->
  exists d,
    getitem doms var = Ok d
    /\ Permutation values d
    /\ StronglySorted
         (fun w1 w2 => exists n1 n2,
              ruled_out cw var a doms w1 = Ok n1
              /\ ruled_out cw var a doms w2 = Ok n2 /\ n1 <= n2)
         values.
Proof.
  intros H. apply order_domain_values_sorted in H.
  destruct H as [d [ranked [Hd [Hr [_ [-> [Hp Hs]]]]]]].
  exists d. split; [exact Hd|]. split; [exact Hp|].
  apply rank_values_counts in Hr.
  eapply StronglySorted_map_Forall; [| |exact Hs].
  - intros p q Hp' Hq' Hle. exists (snd p), (snd q). simpl in *.
    split; [exact Hp'|]. split; [exact Hq' | exact Hle].
  - eapply Permutation_Forall; [|exact Hr].
    apply Permutation_sym. apply sort_by_Permutation.
Qed.

Lemma order_domain_values_ascending_witness :
  exists d,
    getitem Samples.fork_domains Samples.H = Ok d
    /\ Permutation ["AB"%string; "CD"%string] d
    /\ StronglySorted
         (fun w1 w2 => exists n1 n2,
              ruled_out Samples.fork Samples.H Samples.fork_assignment
                        Samples.fork_domains w1 = Ok n1
              /\ ruled_out Samples.fork Samples.H Samples.fork_assignment
                           Samples.fork_domains w2 = Ok n2
              /\ n1 <= n2)
         ["AB"%string; "CD"%string].
Proof.
  apply (@order_domain_values_ascending Samples.fork Samples.H
           Samples.fork_assignment Samples.fork_domains).
  vm_compute. reflexivity.
Defined.

(** ** [letter_grid] *)

Lemma list_set_nth {A : Type} (x : A) (l : list A) :
  forall i l',
    list_set l i x = Ok l' ->
    List.length l' = List.length l
    /\ forall i', nth_error l' i'
                  = if Nat.eqb i' i then Some x else nth_error l i'.
Proof.
  unfold list_set. induction l as [|y l IH]; intros i l' H.
  - discriminate.
  - destruct i as [|i].
    + simpl in H. injection H as <-. split; [reflexivity|].
      intros [|i']; reflexivity.
    + change (Nat.ltb (S i) (List.length (y :: l)))
        with (Nat.ltb i (List.length l)) in H.
      specialize (IH i (firstn i l ++ x :: skipn (S i) l)).
      destruct (Nat.ltb i (List.length l)); [|discriminate].
      injection H as <-. destruct (IH eq_refl) as [Hlen Hnth].
      split; [simpl in *; congruence|].
      intros [|i']; simpl; [reflexivity | apply Hnth].
Qed.

Lemma grid_set_at (g g' : Grid) (i j : nat) (c : ascii) :
  grid_set g i j c = Ok g' ->
  forall i' j',
    grid_at g' i' j'
    = if cell_eqb (i, j) (i', j') then Some c else grid_at g i' j'.
Proof.
  unfold grid_set, list_get. intros H i' j'.
  destruct (nth_error g i) as [row|] eqn:Er; [|discriminate].
  cbn [bind] in H. bind_inv H as row' Hrow.
  apply list_set_nth in Hrow. destruct Hrow as [_ Hrow].
  apply list_set_nth in H. destruct H as [_ Hg].
  unfold grid_at, cell_eqb. simpl. rewrite Hg.
  rewrite (Nat.eqb_sym i i'). destruct (Nat.eqb_spec i' i) as [->|Hne]; simpl.
  - rewrite Hrow. rewrite (Nat.eqb_sym j j').
    destruct (Nat.eqb j' j); [reflexivity|]. rewrite Er. reflexivity.
  - reflexivity.
Qed.

Lemma grid_set_rectangular (h w : nat) (g g' : Grid) (i j : nat)
      (c : ascii) :
  grid_set g i j c = Ok g' -> rectangular h w g ->
  i < h /\ j < w /\ rectangular h w g'.
Proof.
  unfold grid_set, list_get. intros H [Hlen Hrows].
  rewrite Forall_forall in Hrows.
  destruct (nth_error g i) as [row|] eqn:Er; [|discriminate].
  cbn [bind] in H. bind_inv H as row' Hrow.
  assert (Hi : i < h) by (rewrite <- Hlen; apply nth_error_Some; congruence).
  assert (Hw : List.length row = w)
    by (apply Hrows; eapply nth_error_In; exact Er).
  assert (Hj : j < w).
  { unfold list_set in Hrow.
    destruct (Nat.ltb j (List.length row)) eqn:E; [|discriminate].
    apply Nat.ltb_lt in E. lia. }
  apply list_set_nth in Hrow. destruct Hrow as [Hlr _].
  apply list_set_nth in H. destruct H as [Hlg Hg].
  split; [exact Hi|]. split; [exact Hj|]. split; [lia|].
  apply Forall_forall. intros r Hr. apply In_nth_error in Hr.
  destruct Hr as [n Hn]. rewrite Hg in Hn. destruct (Nat.eqb n i).
  - injection Hn as <-. lia.
  - apply Hrows. eapply nth_error_In. exact Hn.
Qed.

Lemma grid_set_total (h w : nat) (g : Grid) (i j : nat) (c : ascii) :
  rectangular h w g -> i < h -> j < w -> exists g', grid_set g i j c = Ok g'.
Proof.
  intros [Hlen Hrows] Hi Hj. unfold grid_set, list_get.
  rewrite Forall_forall in Hrows.
  destruct (nth_error g i) as [row|] eqn:Er.
  - cbn [bind].
    assert (Hw : List.length row = w)
      by (apply Hrows; eapply nth_error_In; exact Er).
    unfold list_set.
    rewrite (proj2 (Nat.ltb_lt j (List.length row))) by lia. cbn [bind].
    rewrite (proj2 (Nat.ltb_lt i (List.length g))) by lia. eauto.
  - apply nth_error_None in Er. lia.
Qed.

Lemma grid_set_raises (g : Grid) (i j : nat) (c : ascii) :
  (exists g', grid_set g i j c = Ok g') \/ grid_set g i j c = Raise IndexError.
Proof.
  unfold grid_set, list_get, list_set.
  destruct (nth_error g i) as [row|]; cbn [bind]; [|right; reflexivity].
  destruct (Nat.ltb j (List.length row)); cbn [bind]; [|right; reflexivity].
  destruct (Nat.ltb i (List.length g)); [left; eauto | right; reflexivity].
Qed.

Lemma cell_coordinates (v : Var) (k : nat) :
  cell v k
  = (var_i v + match var_direction v with DOWN => k | ACROSS => 0 end,
     var_j v + match var_direction v with ACROSS => k | DOWN => 0 end).
Proof.
  unfold cell. destruct (var_direction v); rewrite Nat.add_0_r; reflexivity.
Qed.

Lemma find_app {A : Type} (f : A -> bool) (l1 l2 : list A) :
  find f (l1 ++ l2)
  = match find f l1 with Some x => Some x | None => find f l2 end.
Proof.
  induction l1 as [|x l1 IH]; simpl; [reflexivity|].
  destruct (f x); [reflexivity | exact IH].
Qed.

Lemma last_write_app (ws1 ws2 : list (nat * nat * ascii)) (i j : nat) :
  last_write (ws1 ++ ws2) i j
  = match last_write ws2 i j with
    | Some c => Some c
    | None => last_write ws1 i j
    end.
Proof.
  unfold last_write. rewrite rev_app_distr, find_app.
  destruct (find _ (rev ws2)); reflexivity.
Qed.

Lemma last_write_single (cl : nat * nat) (c : ascii) (i j : nat) :
  last_write [(cl, c)] i j = if cell_eqb cl (i, j) then Some c else None.
Proof.
  unfold last_write. simpl. destruct (cell_eqb cl (i, j)); reflexivity.
Qed.

Lemma cell_eqb_eq (c1 c2 : nat * nat) : cell_eqb c1 c2 = true <-> c1 = c2.
Proof.
  destruct c1 as [i1 j1], c2 as [i2 j2]. unfold cell_eqb. simpl.
  rewrite andb_true_iff, !Nat.eqb_eq. split.
  - intros [-> ->]. reflexivity.
  - intros H. injection H as -> ->. auto.
Qed.

Lemma last_write_Some (ws : list (nat * nat * ascii)) (i j : nat)
      (c : ascii) :
  last_write ws i j = Some c -> In ((i, j), c) ws.
Proof.
  unfold last_write.
  destruct (find (fun w => cell_eqb (fst w) (i, j)) (rev ws))
    as [[cl c0]|] eqn:E; [|discriminate].
  simpl. intros H. injection H as <-. apply find_some in E.
  destruct E as [Hin Heq]. simpl in Heq. apply cell_eqb_eq in Heq.
  subst cl. apply in_rev. exact Hin.
Qed.

Lemma last_write_covered (ws : list (nat * nat * ascii)) (i j : nat)
      (c : ascii) :
  In ((i, j), c) ws -> exists c', last_write ws i j = Some c'.
Proof.
  intros Hin. unfold last_write.
  destruct (find (fun w => cell_eqb (fst w) (i, j)) (rev ws)) as [p|] eqn:E.
  - simpl. eauto.
  - apply in_rev in Hin. apply (find_none _ _ E) in Hin. simpl in Hin. assert (Hrefl : cell_eqb (i, j) (i, j) = true)
      by (apply cell_eqb_eq; reflexivity).
    congruence.
Qed.

Lemma In_letter_writes (v : Var) (w : word) (ks : list nat)
      (cl : nat * nat) (c : ascii) :
  In (cl, c) (letter_writes v w ks)
  <-> exists k, In k ks /\ cell v k = cl /\ String.get k w = Some c.
Proof.
  unfold letter_writes. rewrite in_flat_map. split.
  - intros [k [Hk Hin]]. exists k. split; [exact Hk|].
    destruct (String.get k w) as [c0|]; [|destruct Hin].
    destruct Hin as [Heq|[]]. injection Heq as <- <-. auto.
  - intros [k [Hk [<- Hc]]]. exists k. split; [exact Hk|].
    rewrite Hc. left. reflexivity.
Qed.

Lemma In_writes (a : Assignment) (cl : nat * nat) (c : ascii) :
  In (cl, c) (writes a)
  <-> exists v w k, In (v, w) a /\ k < String.length w
                    /\ cell v k = cl /\ String.get k w = Some c.
Proof.
  unfold writes, entry_writes. rewrite in_flat_map. split.
  - intros [[v w] [Hin Hw]]. simpl in Hw. apply In_letter_writes in Hw.
    destruct Hw as [k [Hk Hc]]. apply in_seq in Hk.
    exists v, w, k. split; [exact Hin|]. split; [lia | exact Hc].
  - intros [v [w [k [Hin [Hk Hc]]]]]. exists (v, w). split; [exact Hin|].
    simpl. apply In_letter_writes. exists k. split; [|exact Hc].
    apply in_seq. lia.
Qed.

Section LetterGrid.
Variables height width : nat.

Lemma letter_grid_word_Ok (v : Var) (w : word) (ks : list nat) :
  forall g g',
    letter_grid_word v w ks g = Ok g' -> rectangular height width g ->
    rectangular height width g'
    /\ (forall k, In k ks ->
                  fst (cell v k) < height /\ snd (cell v k) < width)
    /\ forall i j,
         grid_at g' i j
         = match last_write (letter_writes v w ks) i j with
           | Some c => Some c
           | None => grid_at g i j
           end.
Proof.
  induction ks as [|k ks IH]; intros g g' H Hrect.
  - simpl in H. injection H as <-. split; [exact Hrect|].
    split; [intros k []|]. intros i j. reflexivity.
  - simpl in H. bind_inv H as c Hc. bind_inv H as g1 Hset.
    pose proof (cell_coordinates v k) as Hcell.
    destruct (@grid_set_rectangular height width _ _ _ _ _ Hset Hrect)
      as [Hi [Hj Hrect1]].
    pose proof (@grid_set_at _ _ _ _ _ Hset) as Hat.
    destruct (IH _ _ H Hrect1) as [Hrect' [Hin Hat']].
    split; [exact Hrect'|]. split.
    + intros k' [<-|Hk']; [|apply Hin; exact Hk'].
      rewrite Hcell. simpl. split; assumption.
    + intros i j. rewrite Hat'. apply str_index_Ok in Hc.
      change (letter_writes v w (k :: ks))
        with ((match String.get k w with
               | Some c => [(cell v k, c)]
               | None => []
               end) ++ letter_writes v w ks).
      rewrite Hc, last_write_app.
      destruct (last_write (letter_writes v w ks) i j); [reflexivity|].
      rewrite Hat, last_write_single, Hcell.
      destruct (cell_eqb _ (i, j)); reflexivity.
Qed.

Lemma letter_grid_word_total (v : Var) (w : word) (ks : list nat) :
  (forall k, In k ks ->
             k < String.length w
             /\ fst (cell v k) < height /\ snd (cell v k) < width) ->
  forall g, rectangular height width g ->
            exists g', letter_grid_word v w ks g = Ok g'.
Proof.
  induction ks as [|k ks IH]; intros Hks g Hrect; [simpl; eauto|].
  destruct (Hks k (or_introl eq_refl)) as [Hk [Hi Hj]].
  destruct (@get_in_range w k Hk) as [c Hc]. apply str_index_Ok in Hc.
  simpl. rewrite Hc. cbn [bind].
  rewrite cell_coordinates in Hi, Hj. simpl in Hi, Hj.
  destruct (@grid_set_total height width g _ _ c Hrect Hi Hj) as [g1 Hg1].
  rewrite Hg1. cbn [bind]. apply IH.
  - intros k' Hk'. apply Hks. right. exact Hk'.
  - destruct (@grid_set_rectangular height width _ _ _ _ _ Hg1 Hrect)
      as [_ [_ Hr]].
    exact Hr.
Qed.

Lemma letter_grid_word_raises (v : Var) (w : word) (ks : list nat) :
  (forall k, In k ks -> k < String.length w) ->
  forall g, (exists g', letter_grid_word v w ks g = Ok g')
            \/ letter_grid_word v w ks g = Raise IndexError.
Proof.
  induction ks as [|k ks IH]; intros Hks g; [left; simpl; eauto|].
  destruct (@get_in_range w k (Hks k (or_introl eq_refl))) as [c Hc].
  apply str_index_Ok in Hc. simpl. rewrite Hc. cbn [bind].
  destruct (grid_set_raises g
              (var_i v + match var_direction v with
                         | DOWN => k | ACROSS => 0 end)
              (var_j v + match var_direction v with
                         | ACROSS => k | DOWN => 0 end) c)
    as [[g1 ->]| ->]; cbn [bind]; [|right; reflexivity].
  apply IH. intros k' Hk'. apply Hks. right. exact Hk'.
Qed.

Lemma letter_grid_items_Ok (items : list (Var * word)) :
  forall g g',
    letter_grid_items items g = Ok g' -> rectangular height width g ->
    rectangular height width g'
    /\ within_grid height width items
    /\ forall i j,
         grid_at g' i j
         = match last_write (writes items) i j with
           | Some c => Some c
           | None => grid_at g i j
           end.
Proof.
  induction items as [|[v w] rest IH]; intros g g' H Hrect.
  - simpl in H. injection H as <-. split; [exact Hrect|].
    split; [intros v w k []|]. intros i j. reflexivity.
  - simpl in H. bind_inv H as g1 Hword.
    destruct (@letter_grid_word_Ok v w _ g g1 Hword Hrect)
      as [Hrect1 [Hin1 Hat1]].
    destruct (IH _ _ H Hrect1) as [Hrect' [Hin Hat']].
    split; [exact Hrect'|]. split.
    + intros v' w' k [Heq|Hvw] Hk.
      * injection Heq as <- <-. apply Hin1. apply in_seq. lia.
      * eapply Hin; eauto.
    + intros i j. rewrite Hat', Hat1.
      change (writes ((v, w) :: rest))
        with (entry_writes (v, w) ++ writes rest).
      rewrite last_write_app. unfold entry_writes. simpl.
      destruct (last_write (writes rest) i j); reflexivity.
Qed.

Lemma letter_grid_items_total (items : list (Var * word)) :
  within_grid height width items ->
  forall g, rectangular height width g ->
            exists g', letter_grid_items items g = Ok g'.
Proof.
  induction items as [|[v w] rest IH]; intros Hin g Hrect; [simpl; eauto|].
  simpl.
  assert (Hks : forall k, In k (seq 0 (String.length w)) ->
                 k < String.length w
                 /\ fst (cell v k) < height /\ snd (cell v k) < width).
  { intros k Hk. apply in_seq in Hk. split; [lia|].
    apply (Hin v w k); [left; reflexivity | lia]. }
  destruct (@letter_grid_word_total v w _ Hks g Hrect) as [g1 Hg1].
  rewrite Hg1. cbn [bind]. apply IH.
  - intros v' w' k Hvw Hk. apply (Hin v' w' k); [right; exact Hvw|exact Hk].
  - destruct (@letter_grid_word_Ok v w _ g g1 Hg1 Hrect) as [Hr _]. exact Hr.
Qed.

Lemma letter_grid_items_raises (items : list (Var * word)) :
  forall g, (exists g', letter_grid_items items g = Ok g')
            \/ letter_grid_items items g = Raise IndexError.
Proof.
  induction items as [|[v w] rest IH]; intros g; [left; simpl; eauto|].
  simpl.
  assert (Hks : forall k, In k (seq 0 (String.length w)) ->
                 k < String.length w)
    by (intros k Hk; apply in_seq in Hk; lia).
  destruct (@letter_grid_word_raises v w _ Hks g) as [[g1 ->]| ->];
    cbn [bind]; [apply IH | right; reflexivity].
Qed.

Lemma blank_rectangular :
  rectangular height width (repeat (repeat None width) height).
Proof.
  split; [apply repeat_length|]. apply Forall_forall. intros row Hrow.
  apply repeat_spec in Hrow. subst row. apply repeat_length.
Qed.

Lemma blank_at (i j : nat) :
  grid_at (repeat (repeat None width) height) i j = None.
Proof.
  unfold grid_at.
  destruct (nth_error (repeat (repeat None width) height) i) as [row|] eqn:Er;
    [|reflexivity].
  apply nth_error_In, repeat_spec in Er. subst row.
  destruct (nth_error (repeat None width) j) as [x|] eqn:Ex; [|reflexivity].
  apply nth_error_In, repeat_spec in Ex. exact Ex.
Qed.
End LetterGrid.

(** X20. The grid [letter_grid] returns has the height and the width of
    the puzzle, and each of its cells holds the letter that the last entry
    covering it puts there, or [None] when no entry covers it. *)
Theorem letter_grid_cells (height width : nat) (a : Assignment) (g : Grid) :
  letter_grid height width a = Ok g ->
  rectangular height width g
  /\ forall i j, grid_at g i j = last_write (writes a) i j.
Proof.
  unfold letter_grid. intros H.
  destruct (@letter_grid_items_Ok height width a _ g H
              (blank_rectangular height width))
    as [Hrect [_ Hat]].
  split; [exact Hrect|]. intros i j. rewrite Hat, blank_at.
  destruct (last_write (writes a) i j); reflexivity.
Qed.

Lemma letter_grid_cells_witness :
  rectangular 2 2 [[Some "A"%char; Some "B"%char]; [Some "C"%char; None]]
  /\ forall i j,
       grid_at [[Some "A"%char; Some "B"%char]; [Some "C"%char; None]] i j
       = last_write
           (writes [(Samples.X, "AB"%string); (Samples.Y, "AC"%string)]) i j.
Proof.
  apply (@letter_grid_cells 2 2
           [(Samples.X, "AB"%string); (Samples.Y, "AC"%string)]).
  vm_compute. reflexivity.
Defined.

(** X21. [letter_grid] either returns a grid, which it does exactly when
    every letter of every entry falls inside the height and the width of
    the puzzle, or raises [IndexError]. *)
Theorem letter_grid_outcome (height width : nat) (a : Assignment) :
  (within_grid height width a
   /\ exists g, letter_grid height width a = Ok g)
  \/ (~ within_grid height width a
      /\ letter_grid height width a = Raise IndexError).
Proof.
  unfold letter_grid.
  destruct (letter_grid_items_raises a (repeat (repeat None width) height))
    as [[g Hg]|Hraise].
  - left. split; [|eauto].
    destruct (@letter_grid_items_Ok height width a _ g Hg
                (blank_rectangular height width))
      as [_ [Hin _]].
    exact Hin.
  - right. split; [|exact Hraise]. intros Hin.
    destruct (@letter_grid_items_total height width a Hin _
                (blank_rectangular height width))
      as [g Hg].
    congruence.
Qed.

(** X22. When the entries that share a cell carry the same letter there,
    every word of the assignment reads back from the grid of
    [letter_grid], letter by letter along its slot; and a cell that no
    entry covers is [None]. *)
Theorem letter_grid_reads_back (height width : nat) (a : Assignment)
        (g : Grid) :
  letter_grid height width a = Ok g -> cells_agree a ->
  (forall v w k, In (v, w) a -> k < String.length w ->
                 grid_at g (fst (cell v k)) (snd (cell v k))
                 = String.get k w)
  /\ (forall i j,
        (forall v w k, In (v, w) a -> k < String.length w ->
                       cell v k <> (i, j)) ->
        grid_at g i j = None).
Proof.
  unfold letter_grid. intros H Hagree.
  destruct (@letter_grid_items_Ok height width a _ g H
              (blank_rectangular height width))
    as [_ [_ Hat]].
  split.
  - intros v w k Hin Hk. rewrite Hat, blank_at.
    destruct (@get_in_range w k Hk) as [c Hc].
    assert (Hw : In (cell v k, c) (writes a))
      by (apply In_writes; exists v, w, k; auto).
    rewrite (surjective_pairing (cell v k)) in Hw.
    destruct (@last_write_covered _ _ _ _ Hw) as [c' Hc'].
    rewrite Hc'. apply last_write_Some in Hc'.
    rewrite <- surjective_pairing in Hc'. apply In_writes in Hc'.
    destruct Hc' as [v2 [w2 [k2 [Hin2 [Hk2 [Hcell <-]]]]]].
    apply (Hagree v2 w2 v w k2 k); assumption.
  - intros i j Hfree. rewrite Hat, blank_at.
    destruct (last_write (writes a) i j) as [c|] eqn:E; [|reflexivity].
    apply last_write_Some, In_writes in E.
    destruct E as [v [w [k [Hin [Hk [Hcell _]]]]]].
    exfalso. exact (Hfree v w k Hin Hk Hcell).
Qed.

Lemma letter_grid_reads_back_witness :
  (forall v w k,
      In (v, w) [(Samples.X, "AB"%string); (Samples.Y, "AC"%string)] ->
      k < String.length w ->
      grid_at [[Some "A"%char; Some "B"%char]; [Some "C"%char; None]]
              (fst (cell v k)) (snd (cell v k))
      = String.get k w)
  /\ (forall i j,
        (forall v w k,
            In (v, w) [(Samples.X, "AB"%string); (Samples.Y, "AC"%string)] ->
            k < String.length w -> cell v k <> (i, j)) ->
        grid_at [[Some "A"%char; Some "B"%char]; [Some "C"%char; None]] i j
        = None).
Proof.
  apply (@letter_grid_reads_back 2 2
           [(Samples.X, "AB"%string); (Samples.Y, "AC"%string)]).
  - vm_compute. reflexivity.
  - intros v1 w1 v2 w2 k1 k2 H1 H2 Hk1 Hk2. simpl in H1, H2.
    destruct H1 as [H1|[H1|[]]]; injection H1 as <- <-;
      destruct H2 as [H2|[H2|[]]]; injection H2 as <- <-;
      simpl in Hk1, Hk2;
      destruct k1 as [|[|k1]]; try lia;
      destruct k2 as [|[|k2]]; try lia;
      vm_compute; intros Hcell; try reflexivity; discriminate.
Defined.

(** ** The whole run on the sample puzzles *)

Lemma solve_answers_witness :
  solve Samples.corner = Ok None
  \/ exists a, solve Samples.corner = Ok (Some a)
               /\ solution Samples.corner a.
Proof. apply (@solve_answers Samples.corner). apply corner_well_formed. Defined.

Lemma solve_empty_vocabulary_witness :
  enforce_node_consistency (init_domains Samples.lonely)
  = Ok (map (fun var => (var, [])) (variables Samples.lonely))
  /\ solve Samples.lonely = Ok None.
Proof.
  apply (@solve_empty_vocabulary Samples.lonely).
  - reflexivity.
  - simpl. discriminate.
Defined.
